(** * revanity: vanity-address search for Reticulum destinations

    A shallow embedding of the search core of [revanity]
    ([matcher.py], [core.py], [worker.py], [generator.py]) together with
    the properties its specification states about it.

    Python values are modelled as follows.
    - [str] is a list of Unicode code points ([pystr]); [bytes] is a list of
      octets ([pybytes]).
    - An exception is a value of [exn]; a call that may raise returns a
      [result].
    - The standard-library services the code calls but does not define
      (the [re] engine, the Unicode lower-case table beyond ASCII, key
      generation, the wall clock) are interfaces (type classes) or explicit
      oracles.  SHA-256 and binary64 division are written out. *)

From Stdlib Require Import ZArith NArith Strings.String Strings.Ascii Bool Lia.
From stdpp Require Import base tactics option list gmap.

Open Scope Z_scope.

(* ===================================================================== *)
(** * Part I: the model                                                   *)
(* ===================================================================== *)

(** ** Exceptions and results *)

Inductive value_error : Set :=
| EmptyPattern      (* "Pattern cannot be empty." *)
| NonHexPattern     (* "... contains non-hex characters ..." *)
| PatternTooLong    (* "Pattern length ... exceeds maximum ..." *)
| BadDestType       (* "Invalid destination type: ..." *)
| UnicodeEncodeError. (* a subclass of ValueError, raised by str.encode *)

Inductive exn : Set :=
| ValueError (why : value_error)
| RuntimeError        (* "Generator is already running" *)
| ReError             (* re.error, from re.compile *)
| AttributeError      (* method call on None *)
| OverflowError       (* int / int too large for a float *)
| ZeroDivisionError.

Inductive result (A : Type) : Type :=
| Ok (a : A)
| Raise (e : exn).
Arguments Ok {A} a.
Arguments Raise {A} e.

#[global] Instance result_ret : MRet result := fun A a => Ok a.

#[global] Instance result_bind : MBind result := fun A B k r =>
  match r with
  | Ok a => k a
  | Raise e => Raise e
  end.

(** ** Python strings and bytes *)

(** A [str] is a sequence of code points, a [bytes] a sequence of octets. *)
Abbreviation pystr := (list N).
Abbreviation pybytes := (list Z).

(** String literals of the source, written as Rocq strings. *)
Definition lit (s : string) : pystr :=
  map N_of_ascii (list_ascii_of_string s).

Definition N_list_eqb (a b : pystr) : bool := bool_decide (a = b).

(** [s.startswith(p)] *)
Fixpoint startswith (s p : pystr) {struct p} : bool :=
  match p with
  | [] => true
  | c :: p' =>
      match s with
      | [] => false
      | d :: s' => (d =? c)%N && startswith s' p'
      end
  end.

(** [s.endswith(p)]: the last [len(p)] characters of [s] are [p]. *)
Definition endswith (s p : pystr) : bool :=
  (length p <=? length s)%nat &&
  N_list_eqb (drop (length s - length p) s) p.

(** [p in s] for strings: [p] occurs at some offset of [s]. *)
Fixpoint str_contains (p s : pystr) : bool :=
  startswith s p ||
  match s with
  | [] => false
  | _ :: s' => str_contains p s'
  end.

(** [c in "0123456789abcdef"] for a one-character [c]. *)
Definition hexdigits : pystr := lit "0123456789abcdef".

Definition char_in (c : N) (s : pystr) : bool :=
  existsb (N.eqb c) s.

(** [str.isspace] per code point: the white-space table of CPython's
    Unicode database ([_PyUnicode_IsWhitespace]). *)
Definition isspace (c : N) : bool :=
  ((9 <=? c) && (c <=? 13) ||
   (28 <=? c) && (c <=? 32) ||
   (c =? 133) || (c =? 160) || (c =? 5760) ||
   (8192 <=? c) && (c <=? 8202) ||
   (c =? 8232) || (c =? 8233) || (c =? 8239) || (c =? 8287) ||
   (c =? 12288))%N.

Fixpoint lstrip (s : pystr) : pystr :=
  match s with
  | [] => []
  | c :: s' => if isspace c then lstrip s' else s
  end.

Definition rstrip (s : pystr) : pystr := rev (lstrip (rev s)).

(** [s.strip()] *)
Definition strip (s : pystr) : pystr := rstrip (lstrip s).

(** The lower-case mapping of the Unicode database for code points beyond
    ASCII.  It is given the whole string and the position because CPython
    lowers a capital sigma by its context; a code point may lower to more
    than one. *)
Class Unicode := {
  lower_full : pystr -> nat -> N -> pystr
}.

Definition ascii_lower (c : N) : N :=
  if ((65 <=? c) && (c <=? 90))%N then (c + 32)%N else c.

Definition lower_cp `{Unicode} (whole : pystr) (i : nat) (c : N) : pystr :=
  if (c <? 128)%N then [ascii_lower c] else lower_full whole i c.

Fixpoint lower_from `{Unicode} (whole : pystr) (i : nat) (rest : pystr)
  : pystr :=
  match rest with
  | [] => []
  | c :: r => lower_cp whole i c ++ lower_from whole (S i) r
  end.

(** [s.lower()] *)
Definition lower `{Unicode} (s : pystr) : pystr := lower_from s 0 s.

(** ** Python numbers

    [int] is [Z].  A [float] is an IEEE-754 binary64 value; a finite one is
    held as a pair [m], [e] standing for [m * 2^e]. *)
Inductive float64 : Set :=
| Fin (m e : Z)
| Inf.

(** The binary64 value nearest to the rational [a / b] (for [0 <= a],
    [0 < b]), ties to even; [Inf] when the rounded value does not fit.
    The exponent is chosen so that the significand has 53 bits, and is not
    taken below that of the subnormal numbers. *)
Definition round_ratio (a b : Z) : float64 :=
  if a =? 0 then Fin 0 0
  else
    let e0 := Z.log2 a - Z.log2 b - 53 in
    let scaled e := if 0 <=? e then (a, b * 2 ^ e) else (a * 2 ^ (- e), b) in
    let e1 := if 2 ^ 53 <=? fst (scaled e0) / snd (scaled e0)
              then e0 + 1 else e0 in
    let e := Z.max e1 (-1074) in
    let '(num, den) := scaled e in
    let q := num / den in
    let r := num mod den in
    let m := if (den <? 2 * r) || ((den =? 2 * r) && Z.odd q)
             then q + 1 else q in
    if (971 <? e) || ((e =? 971) && (2 ^ 53 <=? m)) then Inf else Fin m e.

(** [a / b] on two [int]s: the correctly rounded quotient, or an error. *)
Definition int_truediv (a b : Z) : result float64 :=
  if b =? 0 then Raise ZeroDivisionError
  else
    let sgn := Z.sgn a * Z.sgn b in
    match round_ratio (Z.abs a) (Z.abs b) with
    | Fin m e => Ok (Fin (sgn * m) e)
    | Inf => Raise OverflowError
    end.

(** [x / b] for a [float] [x] and an [int] [b] that converts to a float
    without rounding (as 5000 does). *)
Definition float_truediv_int (x : float64) (b : Z) : result float64 :=
  if b =? 0 then Raise ZeroDivisionError
  else
    match x with
    | Inf => Ok Inf
    | Fin m e =>
        let sgn := Z.sgn m * Z.sgn b in
        let '(num, den) :=
          if 0 <=? e then (Z.abs m * 2 ^ e, Z.abs b)
          else (Z.abs m, Z.abs b * 2 ^ (- e)) in
        match round_ratio num den with
        | Fin m' e' => Ok (Fin (sgn * m') e')
        | Inf => Ok Inf
        end
    end.

Inductive pynum : Set :=
| PyInt (z : Z)
| PyFloat (x : float64).

(** [x < k] and [x > k] for a number [x] and an [int] [k]; Python compares
    a float with an int by value. *)
Definition num_ltb (x : pynum) (k : Z) : bool :=
  match x with
  | PyInt z => z <? k
  | PyFloat Inf => false
  | PyFloat (Fin m e) =>
      if 0 <=? e then m * 2 ^ e <? k else m <? k * 2 ^ (- e)
  end.

Definition num_gtb (x : pynum) (k : Z) : bool :=
  match x with
  | PyInt z => k <? z
  | PyFloat Inf => true
  | PyFloat (Fin m e) =>
      if 0 <=? e then k <? m * 2 ^ e else k * 2 ^ (- e) <? m
  end.

(** [int(x)]: truncation towards zero. *)
Definition num_int (x : pynum) : result Z :=
  match x with
  | PyInt z => Ok z
  | PyFloat Inf => Raise OverflowError
  | PyFloat (Fin m e) =>
      Ok (if 0 <=? e then m * 2 ^ e else Z.quot m (2 ^ (- e)))
  end.

(** [x / k] for a number [x] and an [int] [k]. *)
Definition num_truediv (x : pynum) (k : Z) : result float64 :=
  match x with
  | PyInt z => int_truediv z k
  | PyFloat f => float_truediv_int f k
  end.

(** ** matcher.py *)

Inductive MatchMode : Set := PREFIX | SUFFIX | CONTAINS | REGEX.

(** The [re] module as far as the matcher uses it: [re.compile(p, flags)]
    returns a pattern object or raises [re.error]; [search] returns a match
    object or [None]. *)
Class RegexEngine := {
  re_Pattern : Type;
  re_Match : Type;
  re_compile : pystr -> Z -> option re_Pattern;
  re_search : re_Pattern -> pystr -> option re_Match
}.

Definition re_IGNORECASE : Z := 2.

Record MatchPattern : Type := {
  mode : MatchMode;
  pattern : pystr;
  case_sensitive : bool
}.

Record CompiledPattern `{RegexEngine} : Type := {
  cp_mode : MatchMode;
  cp_pattern : pystr;
  cp_regex : option re_Pattern
}.

(** [MatchPattern.compile] *)
Definition compile `{RegexEngine} (self : MatchPattern)
  : result CompiledPattern :=
  match mode self with
  | REGEX =>
      let flags := if case_sensitive self then 0 else re_IGNORECASE in
      match re_compile (pattern self) flags with
      | Some r => Ok {| cp_mode := mode self; cp_pattern := pattern self;
                        cp_regex := Some r |}
      | None => Raise ReError
      end
  | _ => Ok {| cp_mode := mode self; cp_pattern := pattern self;
               cp_regex := None |}
  end.

(** [CompiledPattern.matches]; [bool(m)] of a match object is [True], of
    [None] is [False]. *)
Definition matches `{RegexEngine} (self : CompiledPattern) (hex_addr : pystr)
  : result bool :=
  match cp_mode self with
  | PREFIX => Ok (startswith hex_addr (cp_pattern self))
  | SUFFIX => Ok (endswith hex_addr (cp_pattern self))
  | CONTAINS => Ok (str_contains (cp_pattern self) hex_addr)
  | REGEX =>
      match cp_regex self with
      | Some r => Ok (bool_decide (is_Some (re_search r hex_addr)))
      | None => Raise AttributeError
      end
  end.

(** [validate_hex_pattern] *)
Definition validate_hex_pattern `{Unicode} (pattern : pystr) : result pystr :=
  let cleaned := strip (lower pattern) in
  if bool_decide (cleaned = []) then Raise (ValueError EmptyPattern)
  else if negb (forallb (fun c => char_in c hexdigits) cleaned)
  then Raise (ValueError NonHexPattern)
  else if (32 <? Z.of_nat (length cleaned)) then Raise (ValueError PatternTooLong)
  else Ok cleaned.

(** The dictionary [estimate_difficulty] returns. *)
Record Difficulty : Type := {
  expected_attempts : option Z;
  estimated_seconds_per_core : option float64;
  difficulty_description : pystr
}.

(** [estimate_difficulty] *)
Definition estimate_difficulty (pattern_ : MatchPattern) : result Difficulty :=
  let len := Z.of_nat (length (pattern pattern_)) in
  match mode pattern_ with
  | REGEX =>
      Ok {| expected_attempts := None;
            estimated_seconds_per_core := None;
            difficulty_description := lit "Cannot estimate for regex" |}
  | m =>
      expected ←
        match m with
        | CONTAINS =>
            let n := len in
            let positions := Z.max 1 (32 - n + 1) in
            x ← int_truediv (16 ^ n) positions; Ok (PyFloat x)
        | _ => Ok (PyInt (16 ^ len))
        end;
      let keys_per_sec := 5000 in
      secs ←
        (if num_gtb expected 0
         then x ← num_truediv expected keys_per_sec; Ok (Some x)
         else Ok None);
      let desc :=
        if num_ltb expected 100 then lit "Instant"
        else if num_ltb expected 100000 then lit "Seconds"
        else if num_ltb expected 10000000 then lit "Minutes"
        else if num_ltb expected 1000000000 then lit "Hours"
        else if num_ltb expected 100000000000 then lit "Days"
        else lit "Weeks+ (consider a shorter pattern)" in
      n ← num_int expected;
      Ok {| expected_attempts := Some n;
            estimated_seconds_per_core := secs;
            difficulty_description := desc |}
  end.

(** ** hashlib.sha256

    SHA-256 as FIPS 180-4 defines it, on octet strings.  Words are 32-bit
    values held in [Z]; every addition keeps the low 32 bits. *)
Module SHA256.

Definition w32 (x : Z) : Z := Z.land x 0xffffffff.
Definition add32 (x y : Z) : Z := w32 (x + y).
Definition rotr (n x : Z) : Z :=
  Z.lor (Z.shiftr x n) (w32 (Z.shiftl x (32 - n))).
Definition shr (n x : Z) : Z := Z.shiftr x n.

Definition Ch (x y z : Z) : Z :=
  Z.lxor (Z.land x y) (Z.land (Z.lxor x 0xffffffff) z).
Definition Maj (x y z : Z) : Z :=
  Z.lxor (Z.lxor (Z.land x y) (Z.land x z)) (Z.land y z).
Definition Sigma0 (x : Z) : Z :=
  Z.lxor (Z.lxor (rotr 2 x) (rotr 13 x)) (rotr 22 x).
Definition Sigma1 (x : Z) : Z :=
  Z.lxor (Z.lxor (rotr 6 x) (rotr 11 x)) (rotr 25 x).
Definition sigma0 (x : Z) : Z :=
  Z.lxor (Z.lxor (rotr 7 x) (rotr 18 x)) (shr 3 x).
Definition sigma1 (x : Z) : Z :=
  Z.lxor (Z.lxor (rotr 17 x) (rotr 19 x)) (shr 10 x).

(** The first 64 primes. *)
Definition is_prime (n : nat) : bool :=
  forallb (fun d => negb (n mod d =? 0)%nat) (seq 2 (n - 2)).

Definition primes : list Z :=
  Eval vm_compute in map Z.of_nat (filter is_prime (seq 2 310)).

(** The integer cube root of a number below 2^108, bit by bit. *)
Definition icbrt (n : Z) : Z :=
  fold_left (fun r b => let r' := r + 2 ^ b in
                        if r' * r' * r' <=? n then r' else r)
            (map Z.of_nat (rev (seq 0 36))) 0.

(** The round constants: the first 32 bits of the fractional parts of the
    cube roots of the primes. *)
Definition K : list Z :=
  Eval vm_compute in map (fun p => w32 (icbrt (p * 2 ^ 96))) primes.

(** The initial hash value: the first 32 bits of the fractional parts of
    the square roots of the first 8 primes. *)
Definition H0 : list Z :=
  Eval vm_compute in map (fun p => w32 (Z.sqrt (p * 2 ^ 64))) (take 8 primes).

(** Big-endian encoding of [x] on [n] octets. *)
Fixpoint be_bytes (n : nat) (x : Z) : pybytes :=
  match n with
  | O => []
  | S n' => (Z.shiftr x (8 * Z.of_nat n')) mod 256 :: be_bytes n' x
  end.

Definition be_word (bs : pybytes) : Z :=
  fold_left (fun acc b => acc * 256 + b) bs 0.

(** Padding: a 1 bit, zeros up to 56 modulo 64 octets, the bit length on
    64 bits. *)
Definition pad (msg : pybytes) : pybytes :=
  let len := Z.of_nat (length msg) in
  let zeros := Z.to_nat ((55 - len) mod 64) in
  msg ++ [128] ++ repeat 0 zeros ++ be_bytes 8 (8 * len).

Fixpoint chunks (fuel n : nat) (l : pybytes) : list pybytes :=
  match fuel with
  | O => []
  | S fuel' =>
      match l with
      | [] => []
      | _ => take n l :: chunks fuel' n (drop n l)
      end
  end.

Definition words (block : pybytes) : list Z :=
  map be_word (chunks 16 4 block).

(** The message schedule: 16 words of the block, extended to 64. *)
Fixpoint schedule (n : nat) (w : list Z) : list Z :=
  match n with
  | O => w
  | S n' =>
      let t := length w in
      let at_ i := nth (t - i) w 0 in
      schedule n'
        (w ++ [add32 (add32 (sigma1 (at_ 2%nat)) (at_ 7%nat))
                     (add32 (sigma0 (at_ 15%nat)) (at_ 16%nat))])
  end.

Record regs : Type := Regs {
  ra : Z; rb : Z; rc : Z; rd : Z; re : Z; rf : Z; rg : Z; rh : Z
}.

Definition round (s : regs) (kw : Z * Z) : regs :=
  let t1 := add32 (add32 (add32 (rh s) (Sigma1 (re s)))
                         (add32 (Ch (re s) (rf s) (rg s)) (fst kw)))
                  (snd kw) in
  let t2 := add32 (Sigma0 (ra s)) (Maj (ra s) (rb s) (rc s)) in
  Regs (add32 t1 t2) (ra s) (rb s) (rc s) (add32 (rd s) t1)
       (re s) (rf s) (rg s).

Definition regs_of (h : list Z) : regs :=
  Regs (nth 0 h 0) (nth 1 h 0) (nth 2 h 0) (nth 3 h 0)
       (nth 4 h 0) (nth 5 h 0) (nth 6 h 0) (nth 7 h 0).

Definition list_of (s : regs) : list Z :=
  [ra s; rb s; rc s; rd s; re s; rf s; rg s; rh s].

Definition compress (h : list Z) (block : pybytes) : list Z :=
  let w := schedule 48 (words block) in
  let s := fold_left round (zip K w) (regs_of h) in
  zip_with add32 h (list_of s).

(** [hashlib.sha256(msg).digest()] *)
Definition digest (msg : pybytes) : pybytes :=
  let p := pad msg in
  let h := fold_left compress (chunks (length p) 64 p) H0 in
  concat (map (be_bytes 4) h).

End SHA256.

(** ** core.py *)

Definition NAME_HASH_LENGTH : Z := 80.
Definition TRUNCATED_HASHLENGTH : Z := 128.
Definition KEYSIZE : Z := 512.

(** Value of a hexadecimal digit, [None] for any other code point. *)
Definition hexval (c : N) : option Z :=
  if ((48 <=? c) && (c <=? 57))%N then Some (Z.of_N c - 48)
  else if ((97 <=? c) && (c <=? 102))%N then Some (Z.of_N c - 87)
  else if ((65 <=? c) && (c <=? 70))%N then Some (Z.of_N c - 55)
  else None.

(** ASCII white space ([Py_ISSPACE]): tab to carriage return, and the
    space. *)
Definition ascii_space (c : N) : bool :=
  ((9 <=? c) && (c <=? 13) || (c =? 32))%N.

(** [bytes.fromhex(s)]: pairs of hexadecimal digits, with any ASCII white
    space before, between and after the pairs skipped ([None] stands for
    the [ValueError] Python raises on anything else). *)
Fixpoint bytes_fromhex (s : pystr) : option pybytes :=
  match s with
  | [] => Some []
  | hi :: s1 =>
      if ascii_space hi then bytes_fromhex s1
      else
        match s1 with
        | lo :: s' =>
            h ← hexval hi; l ← hexval lo; r ← bytes_fromhex s';
            Some (16 * h + l :: r)
        | [] => None
        end
  end.

Definition hexchar (d : Z) : N :=
  if d <? 10 then Z.to_N (d + 48) else Z.to_N (d + 87).

(** [b.hex()] *)
Definition bytes_hex (b : pybytes) : pystr :=
  flat_map (fun x => [hexchar (x / 16); hexchar (x mod 16)]) b.

(** [s.encode("utf-8")]: surrogate code points cannot be encoded. *)
Definition utf8_cp (c : N) : option pybytes :=
  let z := Z.of_N c in
  if z <? 128 then Some [z]
  else if z <? 2048 then Some [192 + z / 64; 128 + z mod 64]
  else if (55296 <=? z) && (z <=? 57343) then None
  else if z <? 65536 then
    Some [224 + z / 4096; 128 + (z / 64) mod 64; 128 + z mod 64]
  else
    Some [240 + z / 262144; 128 + (z / 4096) mod 64;
          128 + (z / 64) mod 64; 128 + z mod 64].

Fixpoint utf8_encode (s : pystr) : result pybytes :=
  match s with
  | [] => Ok []
  | c :: s' =>
      match utf8_cp c with
      | Some b => r ← utf8_encode s'; Ok (b ++ r)
      | None => Raise (ValueError UnicodeEncodeError)
      end
  end.

(** Module-level constants; [bytes.fromhex] succeeds on both literals
    (see [name_hash_constants]). *)
Definition LXMF_NAME_HASH : pybytes :=
  default [] (bytes_fromhex (lit "6ec60bc318e2c0f0d908")).
Definition NOMADNET_NAME_HASH : pybytes :=
  default [] (bytes_fromhex (lit "213e6311bcec54ab4fde")).

Definition DEST_NAME_HASHES : gmap pystr pybytes :=
  <[lit "lxmf.delivery" := LXMF_NAME_HASH]>
  (<[lit "nomadnetwork.node" := NOMADNET_NAME_HASH]> ∅).

(** [compute_name_hash] *)
Definition compute_name_hash (dest_name : pystr) : result pybytes :=
  b ← utf8_encode dest_name;
  Ok (take (Z.to_nat (NAME_HASH_LENGTH / 8)) (SHA256.digest b)).

(** [identity_hash_from_pub] *)
Definition identity_hash_from_pub (x25519_pub ed25519_pub : pybytes)
  : pybytes :=
  take (Z.to_nat (TRUNCATED_HASHLENGTH / 8))
       (SHA256.digest (x25519_pub ++ ed25519_pub)).

(** [dest_hash_from_identity_hash] *)
Definition dest_hash_from_identity_hash (name_hash identity_hash : pybytes)
  : pybytes :=
  take (Z.to_nat (TRUNCATED_HASHLENGTH / 8))
       (SHA256.digest (name_hash ++ identity_hash)).

(** Key generation is the [cryptography] package's: a freshly generated
    pair of private keys, given by its raw private and public octets. *)
Record KeyMaterial : Type := {
  x_prv : pybytes; e_prv : pybytes;
  x_pub : pybytes; e_pub : pybytes
}.

(** [generate_and_hash], for the key material the generator drew. *)
Definition generate_and_hash (name_hash : pybytes) (k : KeyMaterial)
  : pybytes * pybytes * pystr :=
  let identity_hash := take 16 (SHA256.digest (x_pub k ++ e_pub k)) in
  let dest_hash := take 16 (SHA256.digest (name_hash ++ identity_hash)) in
  (x_prv k ++ e_prv k, identity_hash, bytes_hex dest_hash).

(** ** Shared objects and processes

    The objects of [multiprocessing] the search shares between the
    orchestrator and its workers live in a store and are referred to by
    their index in it, so that aliasing is explicit.  A Python reference
    always points to an object; an index outside the store reads as a
    default and is not written. *)

(** What a worker puts on the result queue:
    [(prv_bytes, identity_hash, dest_hex)]. *)
Definition Item : Type := pybytes * pybytes * pystr.

(** A [multiprocessing.Queue]: everything that was put, in order, and how
    many of them have been taken out. *)
Record Queue : Type := {
  q_items : list Item;
  q_read : nat
}.

Definition queue_new : Queue := {| q_items := []; q_read := 0 |}.
Definition queue_put (x : Item) (q : Queue) : Queue :=
  {| q_items := q_items q ++ [x]; q_read := q_read q |}.
Definition queue_pending (q : Queue) : list Item :=
  drop (q_read q) (q_items q).
Definition queue_empty (q : Queue) : bool :=
  bool_decide (queue_pending q = []).
(** The queue after [n] more [get_nowait()]. *)
Definition queue_take (n : nat) (q : Queue) : Queue :=
  {| q_items := q_items q; q_read := q_read q + n |}.

(** The program points of [search_worker]. *)
Inductive pc : Set :=
| PCompile            (* compiled = pattern.compile(); local_count = 0 *)
| PWhile              (* while not stop_event.is_set() *)
| PFor (i : Z)        (* for _ in range(batch_size), i rounds done *)
| PPut                (* result_queue.put(...) *)
| PSet                (* stop_event.set() *)
| PAddFound           (* counter.value += local_count, after a match *)
| PReturnFound        (* return, after a match *)
| PFlush              (* counter.value += local_count; local_count = 0 *)
| PExitFlush          (* if local_count > 0: counter.value += local_count *)
| PEnd                (* the function ran to its end *)
| PCrashed (e : exn)  (* an exception ended the process *)
| PTerminated (at_ : pc). (* killed at this point by Process.terminate() *)

Section Model.
Context `{Unicode} `{RegexEngine}.

(** A worker process: the arguments of [search_worker], its locals and its
    program point. *)
Record Proc : Type := {
  p_name_hash : pybytes;
  p_pattern : MatchPattern;
  p_queue : nat;
  p_event : nat;
  p_counter : nat;
  p_batch_size : Z;
  p_compiled : option CompiledPattern;
  p_local_count : Z;
  p_item : option Item;
  p_pc : pc
}.

Definition set_pc (c : pc) (p : Proc) : Proc :=
  {| p_name_hash := p_name_hash p; p_pattern := p_pattern p;
     p_queue := p_queue p; p_event := p_event p; p_counter := p_counter p;
     p_batch_size := p_batch_size p; p_compiled := p_compiled p;
     p_local_count := p_local_count p; p_item := p_item p; p_pc := c |}.

Definition set_local_count (n : Z) (p : Proc) : Proc :=
  {| p_name_hash := p_name_hash p; p_pattern := p_pattern p;
     p_queue := p_queue p; p_event := p_event p; p_counter := p_counter p;
     p_batch_size := p_batch_size p; p_compiled := p_compiled p;
     p_local_count := n; p_item := p_item p; p_pc := p_pc p |}.

Definition set_compiled (c : CompiledPattern) (p : Proc) : Proc :=
  {| p_name_hash := p_name_hash p; p_pattern := p_pattern p;
     p_queue := p_queue p; p_event := p_event p; p_counter := p_counter p;
     p_batch_size := p_batch_size p; p_compiled := Some c;
     p_local_count := p_local_count p; p_item := p_item p; p_pc := p_pc p |}.

Definition set_item (x : Item) (p : Proc) : Proc :=
  {| p_name_hash := p_name_hash p; p_pattern := p_pattern p;
     p_queue := p_queue p; p_event := p_event p; p_counter := p_counter p;
     p_batch_size := p_batch_size p; p_compiled := p_compiled p;
     p_local_count := p_local_count p; p_item := Some x; p_pc := p_pc p |}.

(** [Process.is_alive()] *)
Definition is_alive (p : Proc) : bool :=
  match p_pc p with
  | PReturnFound | PEnd | PCrashed _ | PTerminated _ => false
  | _ => true
  end.

(** What a callback was called with. *)
Inductive Call : Type :=
| OnResult (dest_hex : pystr)
| OnProgress (total_checked : Z)
| OnComplete.

Record World : Type := {
  queues : list Queue;       (* multiprocessing.Queue() *)
  events : list bool;        (* multiprocessing.Event() *)
  counters : list Z;         (* multiprocessing.Value("Q", ...) *)
  procs : list Proc;         (* multiprocessing.Process(...) *)
  ticks : nat;               (* how often time.time() was read *)
  calls : list Call          (* calls of the callbacks, latest first *)
}.

Definition empty_world : World :=
  {| queues := []; events := []; counters := []; procs := [];
     ticks := 0; calls := [] |}.

Definition with_queues (f : list Queue -> list Queue) (w : World) : World :=
  {| queues := f (queues w); events := events w; counters := counters w;
     procs := procs w; ticks := ticks w; calls := calls w |}.
Definition with_events (f : list bool -> list bool) (w : World) : World :=
  {| queues := queues w; events := f (events w); counters := counters w;
     procs := procs w; ticks := ticks w; calls := calls w |}.
Definition with_counters (f : list Z -> list Z) (w : World) : World :=
  {| queues := queues w; events := events w; counters := f (counters w);
     procs := procs w; ticks := ticks w; calls := calls w |}.
Definition with_procs (f : list Proc -> list Proc) (w : World) : World :=
  {| queues := queues w; events := events w; counters := counters w;
     procs := f (procs w); ticks := ticks w; calls := calls w |}.
Definition with_ticks (n : nat) (w : World) : World :=
  {| queues := queues w; events := events w; counters := counters w;
     procs := procs w; ticks := n; calls := calls w |}.
Definition with_call (c : Call) (w : World) : World :=
  {| queues := queues w; events := events w; counters := counters w;
     procs := procs w; ticks := ticks w; calls := c :: calls w |}.

(** [ev.is_set()], [ev.set()] *)
Definition event_is_set (ev : nat) (w : World) : bool :=
  default false (events w !! ev).
Definition event_set (ev : nat) (w : World) : World :=
  with_events (fun l => <[ev := true]> l) w.

(** [q.put(x)] *)
Definition put (q : nat) (x : Item) (w : World) : World :=
  with_queues (alter (queue_put x) q) w.

(** [c.value] and, under the counter's lock, [c.value += n].  The value is
    an unsigned 64-bit C integer: a store keeps the low 64 bits. *)
Definition counter_value (c : nat) (w : World) : Z :=
  default 0 (counters w !! c).
Definition counter_add (c : nat) (n : Z) (w : World) : World :=
  with_counters (alter (fun v => (v + n) mod 2 ^ 64) c) w.

(** ** worker.py

    One step of [search_worker]: from a program point to the next one that
    reads or writes a shared object.  A round of the inner loop draws one
    key pair [k] and is a local step. *)
Definition worker_step (k : KeyMaterial) (p : Proc) (w : World)
  : Proc * World :=
  match p_pc p with
  | PCompile =>
      match compile (p_pattern p) with
      | Ok c => (set_pc PWhile (set_local_count 0 (set_compiled c p)), w)
      | Raise e => (set_pc (PCrashed e) p, w)
      end
  | PWhile =>
      if event_is_set (p_event p) w
      then (set_pc PExitFlush p, w)
      else (set_pc (PFor 0) p, w)
  | PFor i =>
      if i <? p_batch_size p then
        let x := generate_and_hash (p_name_hash p) k in
        let p1 := set_local_count (p_local_count p + 1) (set_item x p) in
        match p_compiled p with
        | None => (set_pc (PCrashed AttributeError) p1, w)
        | Some c =>
            match matches c (snd x) with
            | Ok true => (set_pc PPut p1, w)
            | Ok false => (set_pc (PFor (i + 1)) p1, w)
            | Raise e => (set_pc (PCrashed e) p1, w)
            end
        end
      else (set_pc PFlush p, w)
  | PPut =>
      match p_item p with
      | Some x => (set_pc PSet p, put (p_queue p) x w)
      | None => (set_pc (PCrashed AttributeError) p, w)
      end
  | PSet => (set_pc PAddFound p, event_set (p_event p) w)
  | PAddFound =>
      (set_pc PReturnFound p, counter_add (p_counter p) (p_local_count p) w)
  | PFlush =>
      (set_pc PWhile (set_local_count 0 p),
       counter_add (p_counter p) (p_local_count p) w)
  | PExitFlush =>
      if 0 <? p_local_count p
      then (set_pc PEnd p,
            counter_add (p_counter p) (p_local_count p) w)
      else (set_pc PEnd p, w)
  | PReturnFound | PEnd | PCrashed _ | PTerminated _ => (p, w)
  end.

(** Process [i] takes a step. *)
Definition step_proc (i : nat) (k : KeyMaterial) (w : World) : World :=
  match procs w !! i with
  | Some p =>
      let '(p', w') := worker_step k p w in
      with_procs (fun l => <[i := p']> l) w'
  | None => w
  end.

(** What the processes do while the orchestrator waits or is busy: which
    process steps, and the key pair it draws if it draws one. *)
Definition Schedule : Type := list (nat * KeyMaterial).

Definition run (s : Schedule) (w : World) : World :=
  fold_left (fun w ik => step_proc (fst ik) (snd ik) w) s w.

(** [Process.terminate()] *)
Definition terminate (i : nat) (w : World) : World :=
  with_procs
    (alter (fun p => if is_alive p then set_pc (PTerminated (p_pc p)) p else p)
           i) w.

End Model.

(** ** generator.py *)

(** [time.time()] and the float arithmetic done on its readings: the
    [n]-th reading of the clock, [t - start] and [total / elapsed]. *)
Class Clock := {
  time_time : nat -> float64;
  float_sub : float64 -> pynum -> float64;
  int_div_float : Z -> float64 -> float64
}.

(** [x > 0] for a float. *)
Definition float_pos (x : float64) : bool :=
  match x with
  | Fin m _ => 0 <? m
  | Inf => true
  end.

(** [s.split(sep)] for a one-character separator. *)
Fixpoint split (sep : N) (s : pystr) : list pystr :=
  match s with
  | [] => [[]]
  | c :: s' =>
      if (c =? sep)%N then [] :: split sep s'
      else
        match split sep s' with
        | part :: parts => (c :: part) :: parts
        | [] => [[c]]
        end
  end.

Record GeneratorResult : Type := {
  private_key : pybytes;
  identity_hash : pybytes;
  dest_hash_hex : pystr;
  r_dest_type : pystr;
  r_elapsed : float64;
  r_total_checked : Z;
  r_rate : pynum
}.

Record GeneratorStats : Type := {
  s_total_checked : Z;
  s_elapsed : float64;
  s_rate : pynum;
  s_is_running : bool;
  s_results_found : Z
}.

(** The attributes of a [VanityGenerator].  A callback attribute is modelled
    by whether it is set; a callback that is set is taken to return
    normally and to leave the generator alone, and its calls are logged in
    the world. *)
Record VanityGenerator : Type := {
  pattern_str : pystr;
  match_pattern : MatchPattern;
  name_hash : pybytes;
  dest_type : pystr;
  num_workers : Z;
  on_progress : bool;
  on_result : bool;
  on_complete : bool;
  _workers : list nat;
  _result_queue : option nat;
  _stop_event : option nat;
  _counter : option nat;
  _start_time : pynum;
  _results : list GeneratorResult;
  _is_running : bool
}.

Section Generator.
Context `{Unicode} `{RegexEngine} `{Clock}.

(** The name hash [__init__] takes for a destination type: the
    precomputed one if there is one, else the computed one of a name with
    at least two parts. *)
Definition resolve_name_hash (dest_type_ : pystr) : result pybytes :=
  match DEST_NAME_HASHES !! dest_type_ with
  | Some h => Ok h
  | None =>
      let parts := split 46%N dest_type_ in
      if Z.of_nat (length parts) <? 2
      then Raise (ValueError BadDestType)
      else compute_name_hash dest_type_
  end.

(** [VanityGenerator.__init__]; [cpu_count] is what [os.cpu_count()]
    returns. *)
Definition init (pattern_ : pystr) (mode_ : MatchMode) (dest_type_ : pystr)
    (num_workers_ : Z) (case_sensitive_ : bool) (cpu_count : option Z)
  : result VanityGenerator :=
  pattern_str_ ←
    match mode_ with
    | PREFIX | SUFFIX | CONTAINS => validate_hex_pattern pattern_
    | REGEX => Ok pattern_
    end;
  name_hash_ ← resolve_name_hash dest_type_;
  Ok {| pattern_str := pattern_str_;
        match_pattern := {| mode := mode_; pattern := pattern_str_;
                            case_sensitive := case_sensitive_ |};
        name_hash := name_hash_;
        dest_type := dest_type_;
        num_workers :=
          if 0 <? num_workers_ then num_workers_
          else Z.max 1 (match cpu_count with
                        | Some n => if n =? 0 then 2 else n
                        | None => 2
                        end - 1);
        on_progress := false; on_result := false; on_complete := false;
        _workers := [];
        _result_queue := None; _stop_event := None; _counter := None;
        _start_time := PyInt 0;
        _results := [];
        _is_running := false |}.

(** [get_difficulty] *)
Definition get_difficulty (self : VanityGenerator) : result Difficulty :=
  estimate_difficulty (match_pattern self).

Definition set_workers (l : list nat) (g : VanityGenerator) : VanityGenerator :=
  {| pattern_str := pattern_str g; match_pattern := match_pattern g;
     name_hash := name_hash g; dest_type := dest_type g;
     num_workers := num_workers g; on_progress := on_progress g;
     on_result := on_result g; on_complete := on_complete g;
     _workers := l;
     _result_queue := _result_queue g; _stop_event := _stop_event g;
     _counter := _counter g; _start_time := _start_time g;
     _results := _results g; _is_running := _is_running g |}.

Definition set_results (l : list GeneratorResult) (g : VanityGenerator)
  : VanityGenerator :=
  {| pattern_str := pattern_str g; match_pattern := match_pattern g;
     name_hash := name_hash g; dest_type := dest_type g;
     num_workers := num_workers g; on_progress := on_progress g;
     on_result := on_result g; on_complete := on_complete g;
     _workers := _workers g;
     _result_queue := _result_queue g; _stop_event := _stop_event g;
     _counter := _counter g; _start_time := _start_time g;
     _results := l; _is_running := _is_running g |}.

Definition set_is_running (b : bool) (g : VanityGenerator) : VanityGenerator :=
  {| pattern_str := pattern_str g; match_pattern := match_pattern g;
     name_hash := name_hash g; dest_type := dest_type g;
     num_workers := num_workers g; on_progress := on_progress g;
     on_result := on_result g; on_complete := on_complete g;
     _workers := _workers g;
     _result_queue := _result_queue g; _stop_event := _stop_event g;
     _counter := _counter g; _start_time := _start_time g;
     _results := _results g; _is_running := b |}.

(** The assignments at the head of [start]. *)
Definition set_run (q ev c : nat) (t : float64) (g : VanityGenerator)
  : VanityGenerator :=
  {| pattern_str := pattern_str g; match_pattern := match_pattern g;
     name_hash := name_hash g; dest_type := dest_type g;
     num_workers := num_workers g; on_progress := on_progress g;
     on_result := on_result g; on_complete := on_complete g;
     _workers := _workers g;
     _result_queue := Some q; _stop_event := Some ev;
     _counter := Some c; _start_time := PyFloat t;
     _results := []; _is_running := true |}.

(** The caller assigns the callback attributes. *)
Definition set_callbacks (p r c : bool) (g : VanityGenerator)
  : VanityGenerator :=
  {| pattern_str := pattern_str g; match_pattern := match_pattern g;
     name_hash := name_hash g; dest_type := dest_type g;
     num_workers := num_workers g; on_progress := p;
     on_result := r; on_complete := c;
     _workers := _workers g;
     _result_queue := _result_queue g; _stop_event := _stop_event g;
     _counter := _counter g; _start_time := _start_time g;
     _results := _results g; _is_running := _is_running g |}.

(** [Process(target=search_worker, args=(...)); p.start()] *)
Definition new_proc (g : VanityGenerator) (q ev c : nat) : Proc :=
  {| p_name_hash := name_hash g; p_pattern := match_pattern g;
     p_queue := q; p_event := ev; p_counter := c;
     p_batch_size := 500;
     p_compiled := None; p_local_count := 0; p_item := None;
     p_pc := PCompile |}.

(** The loop of [start]: [n] more processes are created, started and
    appended to [_workers]. *)
Fixpoint spawn (n : nat) (q ev c : nat) (g : VanityGenerator) (w : World)
  : VanityGenerator * World :=
  match n with
  | O => (g, w)
  | S n' =>
      let i := length (procs w) in
      spawn n' q ev c
        (set_workers (_workers g ++ [i]) g)
        (with_procs (fun l => l ++ [new_proc g q ev c]) w)
  end.

(** [VanityGenerator.start] *)
Definition start (self : VanityGenerator) (w : World)
  : result unit * VanityGenerator * World :=
  if _is_running self then (Raise RuntimeError, self, w)
  else
    let q := length (queues w) in
    let ev := length (events w) in
    let c := length (counters w) in
    let w1 := with_counters (fun l => l ++ [0])
                (with_events (fun l => l ++ [false])
                   (with_queues (fun l => l ++ [queue_new]) w)) in
    let t := time_time (ticks w1) in
    let w2 := with_ticks (S (ticks w1)) w1 in
    let g1 := set_run q ev c t self in
    let '(g2, w3) := spawn (Z.to_nat (num_workers g1)) q ev c g1 w2 in
    (Ok (), g2, w3).

(** The [GeneratorResult] built from a queue item read at clock reading
    [t] with the counter at [total]. *)
Definition make_result (self : VanityGenerator) (x : Item) (t : float64)
    (total : Z) : GeneratorResult :=
  let elapsed := float_sub t (_start_time self) in
  {| private_key := fst (fst x);
     identity_hash := snd (fst x);
     dest_hash_hex := snd x;
     r_dest_type := dest_type self;
     r_elapsed := elapsed;
     r_total_checked := total;
     r_rate := if float_pos elapsed
               then PyFloat (int_div_float total elapsed) else PyInt 0 |}.

(** The results for the items a drain loop takes out, one clock reading
    each, starting at reading [n]. *)
Fixpoint make_results (self : VanityGenerator) (xs : list Item) (n : nat)
    (total : Z) : list GeneratorResult :=
  match xs with
  | [] => []
  | x :: xs' =>
      make_result self x (time_time n) total
        :: make_results self xs' (S n) total
  end.

(** The drain loop of [stop], on queue [q]:
    [total = self._counter.value if self._counter else 0]. *)
Definition drain_stop (self : VanityGenerator) (q : nat) (w : World)
  : list GeneratorResult * World :=
  match queues w !! q with
  | None => ([], w)
  | Some qu =>
      let xs := queue_pending qu in
      let total := match _counter self with
                   | Some c => counter_value c w
                   | None => 0
                   end in
      (make_results self xs (ticks w) total,
       with_ticks (ticks w + length xs)
         (with_queues (alter (queue_take (length xs)) q) w))
  end.

(** The drain loop of [poll], on queue [q].  Without a counter the first
    round fails at [self._counter.value], after its item is taken, and
    the [except] clause leaves the loop. *)
Definition drain_poll (self : VanityGenerator) (q : nat) (w : World)
  : list GeneratorResult * World :=
  match queues w !! q with
  | None => ([], w)
  | Some qu =>
      let xs := queue_pending qu in
      match _counter self with
      | Some c =>
          let rs := make_results self xs (ticks w) (counter_value c w) in
          let w1 := with_ticks (ticks w + length xs)
                      (with_queues (alter (queue_take (length xs)) q) w) in
          (rs,
           if on_result self
           then fold_left (fun w r => with_call (OnResult (dest_hash_hex r)) w)
                          rs w1
           else w1)
      | None =>
          match xs with
          | [] => ([], w)
          | _ :: _ =>
              ([], with_ticks (S (ticks w))
                     (with_queues (alter (queue_take 1) q) w))
          end
      end
  end.

Definition stats_idle : GeneratorStats :=
  {| s_total_checked := 0; s_elapsed := Fin 0 0; s_rate := PyFloat (Fin 0 0);
     s_is_running := false; s_results_found := 0 |}.

(** [VanityGenerator.poll] *)
Definition poll (self : VanityGenerator) (w : World)
  : result GeneratorStats * VanityGenerator * World :=
  if negb (_is_running self) then (Ok stats_idle, self, w)
  else
    match _result_queue self with
    | None => (Raise AttributeError, self, w)
    | Some q =>
        let '(rs, w1) := drain_poll self q w in
        let g1 := set_results (_results self ++ rs) self in
        let elapsed := float_sub (time_time (ticks w1)) (_start_time self) in
        let w2 := with_ticks (S (ticks w1)) w1 in
        match _counter self with
        | None => (Raise AttributeError, g1, w2)
        | Some c =>
            let total := counter_value c w2 in
            let stats :=
              {| s_total_checked := total;
                 s_elapsed := elapsed;
                 s_rate := if float_pos elapsed
                           then PyFloat (int_div_float total elapsed)
                           else PyInt 0;
                 s_is_running := _is_running g1;
                 s_results_found := Z.of_nat (length (_results g1)) |} in
            let w3 := if on_progress self
                      then with_call (OnProgress total) w2 else w2 in
            match _stop_event self with
            | None => (Raise AttributeError, g1, w3)
            | Some ev =>
                if event_is_set ev w3 &&
                   forallb (fun i => match procs w3 !! i with
                                     | Some p => negb (is_alive p)
                                     | None => true
                                     end) (_workers self)
                then (Ok stats, set_is_running false g1,
                      if on_complete self
                      then with_call OnComplete w3 else w3)
                else (Ok stats, g1, w3)
            end
        end
    end.

(** The loop of [stop] over [_workers]: [w.join(timeout=2.0)], during which
    the processes run as the next schedule says, then [w.terminate()] if
    the process is still alive. *)
Fixpoint join_all (joins : list Schedule) (ws : list nat) (w : World)
  : World :=
  match ws with
  | [] => w
  | i :: ws' =>
      join_all (tail joins) ws' (terminate i (run (hd [] joins) w))
  end.

(** [VanityGenerator.stop]; [joins] says what the processes do during each
    [join]. *)
Definition stop (joins : list Schedule) (self : VanityGenerator) (w : World)
  : list GeneratorResult * VanityGenerator * World :=
  let w1 := match _stop_event self with
            | Some ev => event_set ev w
            | None => w
            end in
  let w2 := join_all joins (_workers self) w1 in
  let '(rs, w3) := match _result_queue self with
                   | Some q => drain_stop self q w2
                   | None => ([], w2)
                   end in
  let g1 := set_is_running false
              (set_workers [] (set_results (_results self ++ rs) self)) in
  (_results g1, g1, w3).

(** The [results] and [is_running] properties. *)
Definition results (self : VanityGenerator) : list GeneratorResult :=
  _results self.
Definition is_running (self : VanityGenerator) : bool := _is_running self.

(** ** The system: one orchestrator and its processes *)

Definition System : Type := VanityGenerator * World.

Inductive sys_step : System -> System -> Prop :=
| Step_worker g w i k :
    sys_step (g, w) (g, step_proc i k w)
| Step_callbacks g w p r c :
    sys_step (g, w) (set_callbacks p r c g, w)
| Step_start g w :
    sys_step (g, w) (snd (fst (start g w)), snd (start g w))
| Step_poll g w :
    sys_step (g, w) (snd (fst (poll g w)), snd (poll g w))
| Step_stop g w joins :
    sys_step (g, w) (snd (fst (stop joins g w)), snd (stop joins g w)).

(** The states the system gets into from a freshly constructed
    orchestrator. *)
Inductive reachable : System -> Prop :=
| Reach_init pat m dt n cs cpu g :
    init pat m dt n cs cpu = Ok g -> reachable (g, empty_world)
| Reach_step s s' :
    reachable s -> sys_step s s' -> reachable s'.

End Generator.

(** ** generator.py, continued: [run_blocking] *)

Section Blocking.
Context `{RegexEngine} `{Clock}.

(** The loop of [run_blocking]: while the orchestrator is running, sleep,
    during which the processes run as the next schedule says, then poll.
    The loop ends when the orchestrator is no longer running, when [poll]
    raises, or, when the schedules run out, by [KeyboardInterrupt]. *)
Fixpoint poll_loop (rounds : list Schedule) (self : VanityGenerator)
    (w : World) : VanityGenerator * World :=
  match rounds with
  | [] => (self, w)
  | s :: rounds' =>
      if _is_running self then
        let '(r, g1, w1) := poll self (run s w) in
        match r with
        | Ok _ => poll_loop rounds' g1 w1
        | Raise _ => (g1, w1)
        end
      else (self, w)
  end.

(** [VanityGenerator.run_blocking].  [self.start()] stands before the
    [try]: what it raises leaves [run_blocking], and [stop] is not called.
    The [finally] clause returns, so whatever was raised in the [try]
    block, by [poll] or as [KeyboardInterrupt], is dropped. *)
Definition run_blocking (rounds joins : list Schedule)
    (self : VanityGenerator) (w : World)
  : result (list GeneratorResult) * VanityGenerator * World :=
  let '(r, g1, w1) := start self w in
  match r with
  | Raise e => (Raise e, g1, w1)
  | Ok _ =>
      let '(g2, w2) := poll_loop rounds g1 w1 in
      let '(rs, g3, w3) := stop joins g2 w2 in
      (Ok rs, g3, w3)
  end.

End Blocking.

(** ** export.py *)

(** [base64.b32encode(b).decode("ascii")] and
    [base64.b64encode(b).decode("ascii")]. *)
Class Base64 := {
  b32encode : pybytes -> pystr;
  b64encode : pybytes -> pystr
}.

Record ExportedIdentity : Type := {
  private_key_raw : pybytes;
  identity_hash_hex : pystr;
  dest_hashes : gmap pystr pystr;
  private_key_hex : pystr;
  private_key_base32 : pystr;
  private_key_base64 : pystr
}.

(** [prepare_export].  The loop over [DEST_NAME_HASHES.items()] fills one
    entry per known destination type. *)
Definition prepare_export `{Base64} (private_key_ identity_hash_ : pybytes)
    (dest_type_ dest_hash_hex_ : pystr) : ExportedIdentity :=
  let dest_hashes0 : gmap pystr pystr :=
    (fun name_hash_ =>
       bytes_hex (dest_hash_from_identity_hash name_hash_ identity_hash_))
    <$> DEST_NAME_HASHES in
  let dest_hashes1 :=
    if bool_decide (dest_hashes0 !! dest_type_ = None) &&
       negb (bool_decide (dest_hash_hex_ = []))
    then <[dest_type_ := dest_hash_hex_]> dest_hashes0
    else dest_hashes0 in
  {| private_key_raw := private_key_;
     identity_hash_hex := bytes_hex identity_hash_;
     dest_hashes := dest_hashes1;
     private_key_hex := bytes_hex private_key_;
     private_key_base32 := b32encode private_key_;
     private_key_base64 := b64encode private_key_ |}.

(** ** Invariants of the system *)

(** The worker is past [result_queue.put], past [stop_event.set()]. *)
Fixpoint after_put (c : pc) : bool :=
  match c with
  | PSet | PAddFound | PReturnFound => true
  | PTerminated c' => after_put c'
  | _ => false
  end.

Fixpoint after_set (c : pc) : bool :=
  match c with
  | PAddFound | PReturnFound => true
  | PTerminated c' => after_set c'
  | _ => false
  end.

Fixpoint at_put (c : pc) : bool :=
  match c with
  | PPut => true
  | PTerminated c' => at_put c'
  | _ => false
  end.

Section Invariants.
Context `{RegexEngine}.

(** A process in a world: its count is not negative, the objects it was
    given exist, it holds an item when it is about to put one, the item is
    in its queue once it is put, and its event is set once it set it. *)
Definition proc_ok (w : World) (p : Proc) : Prop :=
  0 <= p_local_count p /\
  (p_queue p < length (queues w))%nat /\
  (p_event p < length (events w))%nat /\
  (p_counter p < length (counters w))%nat /\
  (at_put (p_pc p) = true -> is_Some (p_item p)) /\
  (after_put (p_pc p) = true ->
   exists x qu, p_item p = Some x /\ queues w !! p_queue p = Some qu /\
                x ∈ q_items qu) /\
  (after_set (p_pc p) = true -> events w !! p_event p = Some true).

Definition world_ok (w : World) : Prop :=
  Forall (proc_ok w) (procs w) /\
  Forall (fun v => 0 <= v < 2 ^ 64) (counters w).

(** Setting the event [ev] again changes nothing. *)
Definition event_stable (ev : nat) (w : World) : Prop :=
  <[ev := true]> (events w) = events w.

(** The shared objects only grow: objects are never removed, an item put
    stays in its queue, an event set stays set. *)
Definition world_le (w w' : World) : Prop :=
  (forall q qu, queues w !! q = Some qu ->
     exists qu', queues w' !! q = Some qu' /\
                 forall x, x ∈ q_items qu -> x ∈ q_items qu') /\
  (length (events w) <= length (events w'))%nat /\
  (forall e, events w !! e = Some true -> events w' !! e = Some true) /\
  (length (counters w) <= length (counters w'))%nat.

(** Between two worlds every counter that exists was added a count that
    is not negative, modulo 2^64. *)
Definition counters_advance (l l' : list Z) : Prop :=
  forall c v, l !! c = Some v ->
    exists d, 0 <= d /\ l' !! c = Some ((v + d) mod 2 ^ 64).

(** What one operation on the world must keep. *)
Definition good_step (w w' : World) : Prop :=
  world_ok w' /\ world_le w w' /\
  counters_advance (counters w) (counters w').

End Invariants.

(** ** Invariants of the processes and of what they find *)

Section ProcInvariants.
Context `{RegexEngine}.

(** A property [I] of processes and a property [Q] of queue items hold
    throughout a world. *)
Definition procs_inv (I : Proc -> Prop) (Q : Item -> Prop) (w : World)
  : Prop :=
  Forall I (procs w) /\
  Forall (fun qu => Forall Q (q_items qu)) (queues w).

(** [I] is kept by the steps of a worker and by [terminate], and makes
    what a worker puts satisfy [Q]. *)
Definition step_closed (I : Proc -> Prop) (Q : Item -> Prop) : Prop :=
  (forall k p w, I p -> I (fst (worker_step k p w))) /\
  (forall p, I p -> I (set_pc (PTerminated (p_pc p)) p)) /\
  (forall p x, I p -> p_pc p = PPut -> p_item p = Some x -> Q x).

(** The count a worker holds at each program point of its loop: nothing
    at the loop test and after the loop, [i] in round [i] of a batch, the
    whole batch at the flush, and between 1 and the batch once it found a
    match. *)
Fixpoint loop_count (batch : Z) (c : pc) (n : Z) : Prop :=
  match c with
  | PCompile | PWhile | PExitFlush | PEnd => n = 0
  | PFor i => 0 <= i <= batch /\ n = i
  | PFlush => n = batch
  | PPut | PSet | PAddFound | PReturnFound => 1 <= n <= batch
  | PCrashed _ => 0 <= n <= batch
  | PTerminated c' => loop_count batch c' n
  end.

Definition loop_inv (p : Proc) : Prop :=
  p_batch_size p = 500 /\ loop_count 500 (p_pc p) (p_local_count p).

(** An item the search for [mp] under [nh] may report: made by
    [generate_and_hash] from some key pair, with an address that the
    compiled pattern matches. *)
Definition found (mp : MatchPattern) (nh : pybytes) (x : Item) : Prop :=
  exists k c,
    x = generate_and_hash nh k /\ compile mp = Ok c /\
    matches c (snd x) = Ok true.

(** A worker of the search for [mp] under [nh]: it holds these, its
    compiled pattern is the one of [mp], and from [put] on its item is one
    the search may report. *)
Definition searcher (mp : MatchPattern) (nh : pybytes) (p : Proc) : Prop :=
  p_pattern p = mp /\ p_name_hash p = nh /\
  (forall c, p_compiled p = Some c -> compile mp = Ok c) /\
  (at_put (p_pc p) = true \/ after_put (p_pc p) = true ->
   exists x, p_item p = Some x /\ found mp nh x).

(** A result built from an item the search may report. *)
Definition result_ok (g : VanityGenerator) (r : GeneratorResult) : Prop :=
  found (match_pattern g) (name_hash g)
        (private_key r, identity_hash r, dest_hash_hex r) /\
  r_dest_type r = dest_type g.

(** Process [i] is dead, if it exists. *)
Definition dead_at (i : nat) (w : World) : Prop :=
  forall p, procs w !! i = Some p -> is_alive p = false.

End ProcInvariants.

(** ** Invariants of the orchestrator and its workers *)

Section OrchestratorInvariants.
Context `{RegexEngine}.

(** The worker was given the queue, the event and the counter the
    orchestrator holds now. *)
Definition linked (g : VanityGenerator) (p : Proc) : Prop :=
  _result_queue g = Some (p_queue p) /\
  _stop_event g = Some (p_event p) /\
  _counter g = Some (p_counter p).

(** The read cursor of a queue is within what was put. *)
Definition queue_ok (qu : Queue) : Prop :=
  (q_read qu <= length (q_items qu))%nat.

(** The orchestrator in a world: a running orchestrator holds a queue, an
    event and a counter; a worker it lists that is alive was given these;
    and an orchestrator that is not running lists no live worker. *)
Definition system_ok (g : VanityGenerator) (w : World) : Prop :=
  Forall queue_ok (queues w) /\
  (_is_running g = true ->
   is_Some (_result_queue g) /\ is_Some (_stop_event g) /\
   is_Some (_counter g)) /\
  (forall i p, i ∈ _workers g -> procs w !! i = Some p ->
               is_alive p = true -> linked g p) /\
  (_is_running g = false -> forall i, i ∈ _workers g -> dead_at i w).

(** The program points past [pattern.compile()]. *)
Fixpoint past_compile (c : pc) : bool :=
  match c with
  | PCompile | PCrashed _ => false
  | PTerminated c' => past_compile c'
  | _ => true
  end.

(** Past [pattern.compile()] the worker holds a compiled pattern. *)
Definition compiled_inv (p : Proc) : Prop :=
  past_compile (p_pc p) = true -> is_Some (p_compiled p).

(** Every worker the orchestrator lists is dead, as [poll] tests it. *)
Definition all_dead (g : VanityGenerator) (w : World) : Prop :=
  forall i, i ∈ _workers g -> dead_at i w.

End OrchestratorInvariants.

(** ** What is added to a counter, and what is taken from a queue *)

Section Counting.
Context `{RegexEngine}.

(** The next step of the process writes to its counter: it is at one of
    the three [counter.value += local_count] of [search_worker]. *)
Definition writes_counter (p : Proc) : bool :=
  match p_pc p with
  | PAddFound | PFlush => true
  | PExitFlush => 0 <? p_local_count p
  | _ => false
  end.

(** The count the next step of process [i] adds to counter [c]: its local
    count, if it writes and [c] is its counter. *)
Definition count_added (w : World) (i c : nat) : Z :=
  match procs w !! i with
  | Some p =>
      if writes_counter p && bool_decide (p_counter p = c)
      then p_local_count p else 0
  | None => 0
  end.

(** The counts added to counter [c] along a schedule, and along the joins
    of [stop]. *)
Fixpoint run_added (s : Schedule) (w : World) (c : nat) : Z :=
  match s with
  | [] => 0
  | ik :: s' =>
      count_added w (fst ik) c
      + run_added s' (step_proc (fst ik) (snd ik) w) c
  end.

Fixpoint join_added (joins : list Schedule) (ws : list nat) (w : World)
    (c : nat) : Z :=
  match ws with
  | [] => 0
  | i :: ws' =>
      run_added (hd [] joins) w c
      + join_added (tail joins) ws' (terminate i (run (hd [] joins) w)) c
  end.

Definition stop_added (joins : list Schedule) (g : VanityGenerator)
    (w : World) (c : nat) : Z :=
  join_added joins (_workers g)
    (match _stop_event g with
     | Some ev => event_set ev w
     | None => w
     end) c.

(** The queue item a result was built from. *)
Definition item_of (r : GeneratorResult) : Item :=
  (private_key r, identity_hash r, dest_hash_hex r).

(** A process that has the event [oev] puts into the queue [oq]. *)
Definition routed (oev oq : option nat) (p : Proc) : Prop :=
  oev = Some (p_event p) -> oq = Some (p_queue p).

(** The results the orchestrator holds are the items taken out of its
    queue, in order. *)
Definition taken_ok (g : VanityGenerator) (w : World) : Prop :=
  forall q qu, _result_queue g = Some q -> queues w !! q = Some qu ->
    map item_of (_results g) = take (q_read qu) (q_items qu).

(** While the orchestrator is running, its stop event is set only if a
    worker given that event is past [stop_event.set()]. *)
Definition signal_ok (g : VanityGenerator) (w : World) : Prop :=
  forall ev, _is_running g = true -> _stop_event g = Some ev ->
    events w !! ev = Some true ->
    exists i p, procs w !! i = Some p /\ p_event p = ev /\
                after_set (p_pc p) = true.

Definition delivery_ok (g : VanityGenerator) (w : World) : Prop :=
  Forall (routed (_stop_event g) (_result_queue g)) (procs w) /\
  taken_ok g w /\ signal_ok g w.

End Counting.

(** ** What the specification says, in its own words *)

(** The predicate a match specification stands for: the address starts
    with, ends with or contains the pattern, or an unanchored search of the
    regular expression succeeds on it, ignoring case unless case
    sensitivity was asked for. *)
Definition semantic_predicate `{RegexEngine} (spec : MatchPattern)
    (x : pystr) : Prop :=
  match mode spec with
  | PREFIX => exists t, x = pattern spec ++ t
  | SUFFIX => exists t, x = t ++ pattern spec
  | CONTAINS => exists a b, x = a ++ pattern spec ++ b
  | REGEX =>
      exists r,
        re_compile (pattern spec)
          (if case_sensitive spec then 0 else re_IGNORECASE) = Some r /\
        is_Some (re_search r x)
  end.

(** A hexadecimal digit of either case. *)
Definition is_hex_ci (c : N) : bool :=
  char_in c (lit "0123456789abcdefABCDEF").

(** The lower-case form of a string of ASCII characters. *)
Definition lowercase (s : pystr) : pystr := map ascii_lower s.

(** White space has no case: the Unicode lower-case mapping leaves every
    white-space code point as it is. *)
Definition lower_fixes_space `{Unicode} : Prop :=
  forall whole i c, isspace c = true -> lower_full whole i c = [c].

(** A code point the lower-case mapping treats as ASCII does. *)
Definition simple_cp `{Unicode} (c : N) : Prop :=
  forall whole i, lower_cp whole i c = [ascii_lower c].

(** The closed form of the difficulty model for a pattern of length [n]. *)
Definition positions (n : Z) : Z := Z.max 1 (32 - n + 1).

(** The pattern lengths at which the binary64 quotient of the contains
    model, truncated, is not the truncated exact quotient. *)
Definition inexact_lengths : list Z :=
  [15; 16; 18; 19; 20; 21; 22; 23; 24; 26; 27; 28; 30].

(** What [estimate_difficulty] reports as expected attempts for a pattern
    of [n] characters in mode [m]; [None] if it raises. *)
Definition expected_for (m : MatchMode) (n : nat) : option (option Z) :=
  match estimate_difficulty {| mode := m; pattern := repeat 0%N n;
                               case_sensitive := false |} with
  | Ok d => Some (expected_attempts d)
  | Raise _ => None
  end.

(** The truncated binary64 quotient [int(16**n / positions)]. *)
Definition truncated_quotient (n : Z) : option Z :=
  match int_truediv (16 ^ n) (positions n) with
  | Ok x => match num_int (PyFloat x) with Ok v => Some v | Raise _ => None end
  | Raise _ => None
  end.

(** ** Further notions used in the properties *)

(** An octet. *)
Definition is_byte (b : Z) : Prop := 0 <= b < 256.

(** A lower-case hexadecimal digit, as [validate_hex_pattern] checks it. *)
Definition is_hexdigit (c : N) : Prop := char_in c hexdigits = true.

(** A surrogate code point, which UTF-8 cannot encode. *)
Definition is_surrogate (c : N) : bool :=
  ((55296 <=? c) && (c <=? 57343))%N.

(** The tier [estimate_difficulty] names for a prefix or suffix pattern of
    [n] characters, and for a contains pattern. *)
Definition tier_prefix (n : Z) : pystr :=
  if n <=? 1 then lit "Instant"
  else if n <=? 4 then lit "Seconds"
  else if n <=? 5 then lit "Minutes"
  else if n <=? 7 then lit "Hours"
  else if n <=? 9 then lit "Days"
  else lit "Weeks+ (consider a shorter pattern)".

Definition tier_contains (n : Z) : pystr :=
  if n <=? 2 then lit "Instant"
  else if n <=? 5 then lit "Seconds"
  else if n <=? 6 then lit "Minutes"
  else if n <=? 8 then lit "Hours"
  else if n <=? 10 then lit "Days"
  else lit "Weeks+ (consider a shorter pattern)".

(** The description [estimate_difficulty] gives for a pattern of [n]
    characters in mode [m]; [None] if it raises. *)
Definition description_for (m : MatchMode) (n : nat) : option pystr :=
  match estimate_difficulty {| mode := m; pattern := repeat 0%N n;
                               case_sensitive := false |} with
  | Ok d => Some (difficulty_description d)
  | Raise _ => None
  end.

(** ** The interfaces, filled in for worked examples *)

(** A lower-case table for text without cased letters beyond ASCII. *)
Definition caseless_unicode : Unicode :=
  {| lower_full := fun _ _ c => [c] |}.

(** A regular-expression engine for patterns without metacharacters: a
    search is a substring test, on the lower-case forms when case is
    ignored. *)
Definition literal_regex : RegexEngine :=
  {| re_Pattern := pystr * Z;
     re_Match := unit;
     re_compile := fun p flags => Some (p, flags);
     re_search := fun r x =>
       let fold s := if snd r =? re_IGNORECASE then map ascii_lower s else s in
       if str_contains (fold (fst r)) (fold x) then Some () else None |}.

(** The same engine, but one that refuses a pattern with a parenthesis, as
    [re.compile] refuses ["("]. *)
Definition checking_regex : RegexEngine :=
  {| re_Pattern := pystr * Z;
     re_Match := unit;
     re_compile := fun p flags =>
       if char_in 40%N p || char_in 41%N p then None else Some (p, flags);
     re_search := fun r x =>
       let fold s := if snd r =? re_IGNORECASE then map ascii_lower s else s in
       if str_contains (fold (fst r)) (fold x) then Some () else None |}.

(** A clock that reads whole seconds. *)
Definition integer_clock : Clock :=
  {| time_time := fun n => Fin (Z.of_nat n) 0;
     float_sub := fun t s =>
       match t, s with
       | Fin m 0, PyFloat (Fin m' 0) => Fin (m - m') 0
       | Fin m 0, PyInt z => Fin (m - z) 0
       | _, _ => t
       end;
     int_div_float := fun total elapsed =>
       match elapsed with
       | Fin m 0 => round_ratio total m
       | _ => Inf
       end |}.

(** Key material whose address under ["lxmf.delivery"] is
    [913710bee0bb47b18c09ddb3656b7a51]. *)
Definition k0 : KeyMaterial :=
  {| x_prv := repeat 0 32; e_prv := repeat 0 32;
     x_pub := repeat 1 32; e_pub := repeat 2 32 |}.

(** The orchestrator [VanityGenerator(pat, PREFIX, "lxmf.delivery", 1)]. *)
Definition prefix_generator (pat : pystr) : VanityGenerator :=
  {| pattern_str := pat;
     match_pattern := {| mode := PREFIX; pattern := pat;
                         case_sensitive := false |};
     name_hash := LXMF_NAME_HASH;
     dest_type := lit "lxmf.delivery";
     num_workers := 1;
     on_progress := false; on_result := false; on_complete := false;
     _workers := [];
     _result_queue := None; _stop_event := None; _counter := None;
     _start_time := PyInt 0;
     _results := [];
     _is_running := false |}.

(** The orchestrator [VanityGenerator("(", REGEX, "lxmf.delivery", 1)]. *)
Definition regex_generator : VanityGenerator :=
  {| pattern_str := lit "(";
     match_pattern := {| mode := REGEX; pattern := lit "(";
                         case_sensitive := false |};
     name_hash := LXMF_NAME_HASH;
     dest_type := lit "lxmf.delivery";
     num_workers := 1;
     on_progress := false; on_result := false; on_complete := false;
     _workers := [];
     _result_queue := None; _stop_event := None; _counter := None;
     _start_time := PyInt 0;
     _results := [];
     _is_running := false |}.

(** The worker of [prefix_generator pat] in the loop of [search_worker],
    at program point [c] with [n] keys counted, after it drew [k0]. *)
Definition looping_proc (pat : pystr) (c : pc) (n : Z) : @Proc literal_regex :=
  {| p_name_hash := LXMF_NAME_HASH;
     p_pattern := {| mode := PREFIX; pattern := pat; case_sensitive := false |};
     p_queue := 0; p_event := 0; p_counter := 0;
     p_batch_size := 500;
     p_compiled := Some {| cp_mode := PREFIX; cp_pattern := pat;
                           cp_regex := None |};
     p_local_count := n;
     p_item := Some (generate_and_hash LXMF_NAME_HASH k0);
     p_pc := c |}.

(** The world of that worker when the counter stands at [v]. *)
Definition looping_world (pat : pystr) (c : pc) (n v : Z) : @World literal_regex :=
  {| queues := [queue_new]; events := [false]; counters := [v];
     procs := [looping_proc pat c n]; ticks := 1; calls := [] |}.

(** The system of [prefix_generator pat] after [start]. *)
Definition started (pat : pystr) : @System literal_regex :=
  (snd (fst (@start literal_regex integer_clock
               (prefix_generator pat) empty_world)),
   snd (@start literal_regex integer_clock (prefix_generator pat) empty_world)).

(** The worker of ["0"] about to flush 500 keys into a counter that stands
    116 below 2^64. *)
Definition wrap_state : @System literal_regex :=
  (fst (started (lit "0")),
   looping_world (lit "0") PFlush 500 (2 ^ 64 - 116)).

(** The worker of ["9"] after it drew [k0], put its item and set the
    event. *)
Definition matched_state : @System literal_regex :=
  (fst (started (lit "9")),
   run (repeat (0%nat, k0) 5) (snd (started (lit "9")))).

(** The two base encodings left out of a worked example. *)
Definition no_base64 : Base64 :=
  {| b32encode := fun _ => []; b64encode := fun _ => [] |}.

(* ===================================================================== *)
(** * Part II: properties                                                 *)
(* ===================================================================== *)

(** ** Strings *)

Lemma startswith_spec (s p : pystr) :
  startswith s p = true <-> exists t, s = p ++ t.
Proof.
  revert s. induction p as [|c p IH]; intros s.
  - split; [intros _; exists s; reflexivity | destruct s; reflexivity].
  - destruct s as [|d s]; simpl.
    + split; [discriminate | intros [t Ht]; discriminate].
    + rewrite andb_true_iff, N.eqb_eq, IH. split.
      * intros [-> [t ->]]. exists t. reflexivity.
      * intros [t Ht]. injection Ht as -> ->. split; [reflexivity | eauto].
Qed.

Lemma endswith_spec (s p : pystr) :
  endswith s p = true <-> exists t, s = t ++ p.
Proof.
  unfold endswith, N_list_eqb.
  rewrite andb_true_iff, Nat.leb_le, bool_decide_eq_true. split.
  - intros [Hlen Hdrop].
    exists (take (length s - length p) s).
    rewrite <- (take_drop (length s - length p) s) at 1.
    f_equal. exact Hdrop.
  - intros [t ->]. rewrite length_app. split; [lia|].
    replace (length t + length p - length p)%nat with (length t) by lia.
    apply drop_app_length.
Qed.

Lemma str_contains_spec (p s : pystr) :
  str_contains p s = true <-> exists a b, s = a ++ p ++ b.
Proof.
  induction s as [|d s IH]; simpl.
  - rewrite orb_false_r, startswith_spec. split.
    + intros [t Ht]. exists [], t. exact Ht.
    + intros [a [b Hab]]. destruct a; [exists b; exact Hab | discriminate].
  - rewrite orb_true_iff, IH.
    change (match p with
            | [] => true
            | c :: p' => (d =? c)%N && startswith s p'
            end) with (startswith (d :: s) p).
    rewrite startswith_spec. split.
    + intros [[t Ht] | [a [b Hab]]].
      * exists [], t. exact Ht.
      * exists (d :: a), b. simpl. rewrite Hab. reflexivity.
    + intros [a [b Hab]]. destruct a as [|d' a].
      * left. exists b. exact Hab.
      * right. injection Hab as _ Hab. exists a, b. exact Hab.
Qed.

Section MatcherProperties.
Context `{RegexEngine}.

Lemma compile_raises (spec : MatchPattern) (e : exn) :
  compile spec = Raise e -> e = ReError /\ mode spec = REGEX.
Proof.
  unfold compile. destruct (mode spec); try discriminate.
  destruct (re_compile _ _); [discriminate|].
  intros [= <-]. split; reflexivity.
Qed.

Lemma matches_raises (c : CompiledPattern) (x : pystr) (e : exn) :
  matches c x = Raise e -> e = AttributeError.
Proof.
  unfold matches. destruct (cp_mode c); try discriminate.
  destruct (cp_regex c); [discriminate|]. intros [= <-]. reflexivity.
Qed.

(** C1. For every match specification and every string [x] (so for every
    32-character hexadecimal address), compiling the specification either
    fails, which happens only in regex mode when [re.compile] rejects the
    pattern, or gives a matcher that returns a boolean on [x], and that
    boolean is true exactly when the predicate of the mode holds: [x]
    starts with the pattern (prefix), ends with it (suffix), contains it
    (contains), or an unanchored search of the regular expression succeeds
    on [x], ignoring case unless case sensitivity was requested (regex). *)
Theorem compile_matches_semantic (spec : MatchPattern) (x : pystr) :
  match compile spec with
  | Ok c =>
      exists b, matches c x = Ok b /\ (b = true <-> semantic_predicate spec x)
  | Raise e =>
      e = ReError /\ mode spec = REGEX /\
      re_compile (pattern spec)
        (if case_sensitive spec then 0 else re_IGNORECASE) = None
  end.
Proof.
  unfold compile, semantic_predicate.
  destruct (mode spec) eqn:Hm.
  - exists (startswith x (pattern spec)). unfold matches; simpl.
    split; [reflexivity | apply startswith_spec].
  - exists (endswith x (pattern spec)). unfold matches; simpl.
    split; [reflexivity | apply endswith_spec].
  - exists (str_contains (pattern spec) x). unfold matches; simpl.
    split; [reflexivity | apply str_contains_spec].
  - destruct (re_compile (pattern spec) _) as [r|] eqn:Hr.
    + exists (bool_decide (is_Some (re_search r x))). unfold matches; simpl.
      split; [reflexivity|]. rewrite bool_decide_eq_true. split.
      * intros Hs. exists r. split; [reflexivity | exact Hs].
      * intros [r' [[= <-] Hs]]. exact Hs.
    + repeat split.
Qed.

End MatcherProperties.

(** ** Pattern validation *)

Lemma isspace_ascii_lower (c : N) : isspace c = true -> ascii_lower c = c.
Proof.
  unfold isspace, ascii_lower. intros Hs.
  destruct ((65 <=? c) && (c <=? 90))%N eqn:Hu; [|reflexivity].
  apply andb_true_iff in Hu. destruct Hu as [H1 H2].
  apply N.leb_le in H1, H2.
  repeat (apply orb_true_iff in Hs; destruct Hs as [Hs|Hs]);
    repeat (apply andb_true_iff in Hs; destruct Hs as [Hs Hs']);
    try apply N.leb_le in Hs; try apply N.leb_le in Hs';
    try apply N.eqb_eq in Hs; lia.
Qed.

(** The facts about one hexadecimal digit the proofs below use. *)
Lemma hex_ci_facts (c : N) :
  is_hex_ci c = true ->
  (c <? 128)%N = true /\ isspace c = false /\
  char_in (ascii_lower c) hexdigits = true.
Proof.
  unfold is_hex_ci, char_in. rewrite existsb_exists.
  intros [x [Hin Heq]]. apply N.eqb_eq in Heq. subst x.
  vm_compute in Hin.
  repeat (destruct Hin as [<-|Hin]; [vm_compute; auto|]).
  destruct Hin.
Qed.

Lemma hexdigit_facts (c : N) :
  char_in c hexdigits = true -> is_hex_ci c = true /\ ascii_lower c = c.
Proof.
  unfold char_in at 1. rewrite existsb_exists.
  intros [x [Hin Heq]]. apply N.eqb_eq in Heq. subst x.
  vm_compute in Hin.
  repeat (destruct Hin as [<-|Hin]; [vm_compute; auto|]).
  destruct Hin.
Qed.

Lemma lstrip_spaces_app (a t : pystr) :
  Forall (fun c => isspace c = true) a -> lstrip (a ++ t) = lstrip t.
Proof.
  induction 1 as [|c a Hc _ IH]; simpl; [reflexivity|].
  rewrite Hc. exact IH.
Qed.

Lemma lstrip_nonspace (t : pystr) :
  Forall (fun c => isspace c = false) t -> lstrip t = t.
Proof. destruct 1 as [|c t Hc _]; simpl; [|rewrite Hc]; reflexivity. Qed.

Lemma lstrip_decomp (s : pystr) :
  exists a, s = a ++ lstrip s /\ Forall (fun c => isspace c = true) a.
Proof.
  induction s as [|c s [a [Ha Hsp]]]; simpl.
  - exists []. split; [reflexivity | constructor].
  - destruct (isspace c) eqn:Hc.
    + exists (c :: a). split; [simpl; congruence | constructor; assumption].
    + exists []. split; [reflexivity | constructor].
Qed.

Lemma rstrip_spaces_app (t b : pystr) :
  Forall (fun c => isspace c = true) b -> rstrip (t ++ b) = rstrip t.
Proof.
  intros Hb. unfold rstrip. rewrite rev_app_distr.
  rewrite lstrip_spaces_app; [reflexivity | apply Forall_rev, Hb].
Qed.

Lemma rstrip_nonspace (t : pystr) :
  Forall (fun c => isspace c = false) t -> rstrip t = t.
Proof.
  intros Ht. unfold rstrip. rewrite lstrip_nonspace.
  - apply rev_involutive.
  - apply Forall_rev, Ht.
Qed.

Lemma rstrip_decomp (t : pystr) :
  exists b, t = rstrip t ++ b /\ Forall (fun c => isspace c = true) b.
Proof.
  destruct (lstrip_decomp (rev t)) as [a [Ha Hsp]].
  exists (rev a). split.
  - unfold rstrip. rewrite <- rev_app_distr, <- Ha.
    symmetry. apply rev_involutive.
  - apply Forall_rev, Hsp.
Qed.

Lemma strip_decomp (s : pystr) :
  exists a b, s = a ++ strip s ++ b /\
    Forall (fun c => isspace c = true) a /\
    Forall (fun c => isspace c = true) b.
Proof.
  destruct (lstrip_decomp s) as [a [Ha Hsa]].
  destruct (rstrip_decomp (lstrip s)) as [b [Hb Hsb]].
  exists a, b. unfold strip. rewrite <- Hb. auto.
Qed.

Lemma strip_padded (a h b : pystr) :
  Forall (fun c => isspace c = true) a ->
  Forall (fun c => isspace c = true) b ->
  Forall (fun c => isspace c = false) h ->
  strip (a ++ h ++ b) = h.
Proof.
  intros Ha Hb Hh. unfold strip. rewrite lstrip_spaces_app by assumption.
  destruct h as [|c h].
  - simpl. replace (lstrip b) with (lstrip (b ++ [])) by (rewrite app_nil_r; reflexivity).
    rewrite lstrip_spaces_app by assumption. reflexivity.
  - assert (Hl : lstrip ((c :: h) ++ b) = (c :: h) ++ b).
    { simpl. inversion Hh as [|? ? Hc _]; subst. rewrite Hc. reflexivity. }
    rewrite Hl, rstrip_spaces_app by assumption.
    apply rstrip_nonspace, Hh.
Qed.

Section ValidateProperties.
Context `{Unicode}.

Lemma simple_cp_ascii (c : N) : (c <? 128)%N = true -> simple_cp c.
Proof. intros Hc whole i. unfold lower_cp. rewrite Hc. reflexivity. Qed.

Lemma simple_cp_space (c : N) :
  lower_fixes_space -> isspace c = true -> simple_cp c.
Proof.
  intros Hlaw Hc whole i. unfold lower_cp.
  destruct (c <? 128)%N; [reflexivity|].
  rewrite (Hlaw whole i c Hc), isspace_ascii_lower by assumption.
  reflexivity.
Qed.

Lemma lower_from_simple (whole : pystr) (i : nat) (rest : pystr) :
  Forall simple_cp rest -> lower_from whole i rest = lowercase rest.
Proof.
  intros Hr. revert i.
  induction Hr as [|c rest Hc _ IH]; intros i; simpl; [reflexivity|].
  rewrite (Hc whole i), IH. reflexivity.
Qed.

Lemma lower_simple (s : pystr) : Forall simple_cp s -> lower s = lowercase s.
Proof. apply lower_from_simple. Qed.

Lemma lower_hex (s : pystr) :
  Forall (fun c => is_hex_ci c = true) s -> lower s = lowercase s.
Proof.
  intros Hs. apply lower_simple.
  eapply Forall_impl; [exact Hs|].
  intros c Hc. apply simple_cp_ascii, hex_ci_facts, Hc.
Qed.

(** Validation of a string of hexadecimal digits between white space,
    once its lower-case form is known to be the simple one. *)
Lemma validate_padded (a h b : pystr) :
  Forall (fun c => isspace c = true) a ->
  Forall (fun c => isspace c = true) b ->
  Forall (fun c => is_hex_ci c = true) h ->
  h <> [] -> (length h <= 32)%nat ->
  lower (a ++ h ++ b) = lowercase (a ++ h ++ b) ->
  validate_hex_pattern (a ++ h ++ b) = Ok (lowercase h).
Proof.
  intros Ha Hb Hh Hne Hlen Hlow. unfold validate_hex_pattern.
  rewrite Hlow. unfold lowercase. rewrite !map_app.
  assert (Hfix : forall l, Forall (fun c => isspace c = true) l ->
                           map ascii_lower l = l).
  { induction 1 as [|c l Hc _ IH]; simpl; [reflexivity|].
    rewrite isspace_ascii_lower, IH by assumption. reflexivity. }
  rewrite (Hfix a Ha), (Hfix b Hb).
  assert (Hh' : Forall (fun c => char_in c hexdigits = true)
                       (map ascii_lower h)).
  { apply Forall_map. eapply Forall_impl; [exact Hh|].
    intros c Hc. apply hex_ci_facts, Hc. }
  rewrite strip_padded; try assumption.
  - rewrite bool_decide_eq_false_2 by (destruct h; [congruence|discriminate]).
    replace (forallb (fun c => char_in c hexdigits) (map ascii_lower h))
      with true.
    + simpl. rewrite length_map.
      destruct (32 <? Z.of_nat (length h)) eqn:Hl; [|reflexivity].
      apply Z.ltb_lt in Hl. lia.
    + symmetry. apply forallb_forall. intros c Hc.
      rewrite Forall_forall in Hh'. apply Hh', list_elem_of_In, Hc.
  - eapply Forall_impl; [exact Hh'|].
    intros c Hc. apply hexdigit_facts in Hc. destruct Hc as [Hc _].
    apply hex_ci_facts, Hc.
Qed.

(** C2, as the code has it.  For every non-empty string [s] of at most 32
    hexadecimal digits of either case, [validate_hex_pattern s] returns the
    lower-case form of [s]; and for every input whose lower-cased form with
    the surrounding white space stripped is empty, has a character outside
    [0-9a-f] or is longer than 32, it raises [ValueError]. *)
Theorem validate_hex_pattern_spec :
  (forall s : pystr,
      s <> [] -> Forall (fun c => is_hex_ci c = true) s ->
      (length s <= 32)%nat ->
      validate_hex_pattern s = Ok (lowercase s) /\ lower s = lowercase s) /\
  (forall s : pystr,
      strip (lower s) = [] \/
      Exists (fun c => char_in c hexdigits = false) (strip (lower s)) \/
      (32 < length (strip (lower s)))%nat ->
      exists why, validate_hex_pattern s = Raise (ValueError why)).
Proof.
  split.
  - intros s Hne Hhex Hlen. split; [|apply lower_hex, Hhex].
    pose proof (validate_padded [] s [] (Forall_nil_2 _) (Forall_nil_2 _)
                  Hhex Hne Hlen) as Hv.
    simpl in Hv. rewrite app_nil_r in Hv. apply Hv, lower_hex, Hhex.
  - intros s Hbad. unfold validate_hex_pattern.
    destruct (bool_decide (strip (lower s) = [])) eqn:He; [eauto|].
    apply bool_decide_eq_false in He.
    destruct (forallb _ (strip (lower s))) eqn:Hf; simpl; [|eauto].
    destruct (32 <? Z.of_nat (length (strip (lower s)))) eqn:Hl; [eauto|].
    exfalso. destruct Hbad as [Hbad|[Hbad|Hbad]].
    + contradiction.
    + apply Exists_exists in Hbad. destruct Hbad as [c [Hin Hc]].
      rewrite forallb_forall in Hf.
      rewrite (Hf c) in Hc; [discriminate | apply list_elem_of_In, Hin].
    + apply Z.ltb_ge in Hl. lia.
Qed.

(** C9. When the Unicode lower-case mapping leaves white space alone (as it
    does), every input whose stripped form is a non-empty string of at most
    32 hexadecimal digits of either case is accepted, and the value
    returned is the lower-case form of the stripped input; an input that
    is white space only is rejected as empty. *)
Theorem validate_strips_whitespace :
  lower_fixes_space ->
  (forall s : pystr,
      strip s <> [] -> Forall (fun c => is_hex_ci c = true) (strip s) ->
      (length (strip s) <= 32)%nat ->
      validate_hex_pattern s = Ok (lowercase (strip s)) /\
      lower (strip s) = lowercase (strip s)) /\
  (forall s : pystr,
      Forall (fun c => isspace c = true) s ->
      validate_hex_pattern s = Raise (ValueError EmptyPattern)).
Proof.
  intros Hlaw. split.
  - intros s Hne Hhex Hlen. split; [|apply lower_hex, Hhex].
    destruct (strip_decomp s) as [a [b [Hs [Ha Hb]]]].
    rewrite Hs at 1. apply validate_padded; try assumption.
    apply lower_simple. rewrite !Forall_app. repeat split.
    + eapply Forall_impl; [exact Ha|]. intros c. apply simple_cp_space, Hlaw.
    + eapply Forall_impl; [exact Hhex|].
      intros c Hc. apply simple_cp_ascii, hex_ci_facts, Hc.
    + eapply Forall_impl; [exact Hb|]. intros c. apply simple_cp_space, Hlaw.
  - intros s Hs. unfold validate_hex_pattern.
    rewrite lower_simple.
    + assert (Hl : lowercase s = s).
      { unfold lowercase. induction Hs as [|c l Hc _ IH]; simpl; [reflexivity|].
        rewrite isspace_ascii_lower, IH by assumption. reflexivity. }
      rewrite Hl.
      pose proof (strip_padded s [] [] Hs (Forall_nil_2 _) (Forall_nil_2 _)) as Hst.
      simpl in Hst. rewrite app_nil_r in Hst. rewrite Hst. reflexivity.
    + eapply Forall_impl; [exact Hs|]. intros c. apply simple_cp_space, Hlaw.
Qed.

End ValidateProperties.

(** ** Name hashes *)

Lemma name_hash_constants :
  bytes_fromhex (lit "6ec60bc318e2c0f0d908") = Some LXMF_NAME_HASH /\
  bytes_fromhex (lit "213e6311bcec54ab4fde") = Some NOMADNET_NAME_HASH.
Proof. split; vm_compute; reflexivity. Qed.

Example sha256_abc :
  bytes_hex (SHA256.digest [97; 98; 99]) =
  lit "ba7816bf8f01cfea414140de5dae2223b00361a396177a9cb410ff61f20015ad".
Proof. vm_compute. reflexivity. Qed.

Example sha256_empty :
  bytes_hex (SHA256.digest []) =
  lit "e3b0c44298fc1c149afbf4c8996fb92427ae41e4649b934ca495991b7852b855".
Proof. vm_compute. reflexivity. Qed.

Example sha256_two_blocks :
  bytes_hex (SHA256.digest (map Z.of_N
    (lit "abcdbcdecdefdefgefghfghighijhijkijkljklmklmnlmnomnopnopq"))) =
  lit "248d6a61d20638b8e5c026930c3e6039a33ce45964ff2167f6ecedd419db06c1".
Proof. vm_compute. reflexivity. Qed.

(** C3. Resolving the destination type ["lxmf.delivery"] gives the name
    hash whose hexadecimal form is [6ec60bc318e2c0f0d908], resolving
    ["nomadnetwork.node"] gives the one whose form is
    [213e6311bcec54ab4fde], and [compute_name_hash], the first 10 octets of
    the SHA-256 digest of the UTF-8 encoded name, returns exactly these two
    constants for the two names. *)
Theorem well_known_name_hashes :
  resolve_name_hash (lit "lxmf.delivery") = Ok LXMF_NAME_HASH /\
  bytes_hex LXMF_NAME_HASH = lit "6ec60bc318e2c0f0d908" /\
  resolve_name_hash (lit "nomadnetwork.node") = Ok NOMADNET_NAME_HASH /\
  bytes_hex NOMADNET_NAME_HASH = lit "213e6311bcec54ab4fde" /\
  compute_name_hash (lit "lxmf.delivery") = Ok LXMF_NAME_HASH /\
  compute_name_hash (lit "nomadnetwork.node") = Ok NOMADNET_NAME_HASH.
Proof.
  split; [|split; [|split; [|split; [|split]]]];
    vm_compute; reflexivity.
Qed.

(** ** The difficulty estimate *)

Example truediv_256_31 : int_truediv 256 31 = Ok (Fin 4648877034705028 (-49)).
Proof. vm_compute. reflexivity. Qed.

Example truediv_tie_to_even :
  int_truediv (2 ^ 53 + 1) 1 = Ok (Fin (2 ^ 52) 1) /\
  int_truediv (2 ^ 53 + 3) 1 = Ok (Fin (2 ^ 52 + 2) 1).
Proof. split; vm_compute; reflexivity. Qed.

Example truediv_overflow :
  int_truediv (2 ^ 1024 - 2 ^ 970 - 1) 1 = Ok (Fin (2 ^ 53 - 1) 971) /\
  int_truediv (2 ^ 1024 - 2 ^ 970) 1 = Raise OverflowError.
Proof. split; vm_compute; reflexivity. Qed.

Lemma estimate_by_length (p : MatchPattern) :
  match estimate_difficulty p with
  | Ok d => Some (expected_attempts d)
  | Raise _ => None
  end = expected_for (mode p) (length (pattern p)).
Proof.
  unfold expected_for, estimate_difficulty. simpl.
  rewrite repeat_length. reflexivity.
Qed.

Lemma prefix_table :
  forallb (fun n => match expected_for PREFIX n, expected_for SUFFIX n with
                    | Some (Some v), Some (Some v') =>
                        (v =? 16 ^ Z.of_nat n) && (v' =? 16 ^ Z.of_nat n)
                    | _, _ => false
                    end) (seq 0 260) = true.
Proof. vm_cast_no_check (eq_refl true). Qed.

Lemma contains_table :
  forallb (fun n =>
             let z := Z.of_nat n in
             match expected_for CONTAINS n, truncated_quotient z with
             | Some (Some v), Some v' =>
                 (v =? v') &&
                 eqb (v =? 16 ^ z / positions z)
                     (negb (existsb (Z.eqb z) inexact_lengths))
             | _, _ => false
             end) (seq 0 256) = true.
Proof. vm_cast_no_check (eq_refl true). Qed.

Lemma in_seq_of_Z (n : nat) (b : nat) :
  Z.of_nat n <= Z.of_nat b -> In n (seq 0 (S b)).
Proof. intros Hn. apply in_seq. lia. Qed.

(** C4, as the code has it.  With [n] the length of the pattern: in prefix
    and in suffix mode, for [n <= 259], the estimator reports [16^n]
    expected attempts; in contains mode, for [n <= 255], it reports the
    truncation of the binary64 float nearest to [16^n / max(1, 32-n+1)],
    and that is the truncated exact quotient unless [n] is one of
    [inexact_lengths]; in regex mode it reports no expected attempts.  For
    the prefix ["dead"] the report is 65536, for the contains pattern
    ["be"] it is 8. *)
Theorem estimate_difficulty_model (p : MatchPattern) :
  let n := Z.of_nat (length (pattern p)) in
  (mode p = PREFIX \/ mode p = SUFFIX -> n <= 259 ->
   exists d, estimate_difficulty p = Ok d /\
             expected_attempts d = Some (16 ^ n)) /\
  (mode p = CONTAINS -> n <= 255 ->
   exists d v, estimate_difficulty p = Ok d /\
               expected_attempts d = Some v /\
               truncated_quotient n = Some v /\
               (v = 16 ^ n / positions n <-> ~ In n inexact_lengths)) /\
  (mode p = REGEX ->
   exists d, estimate_difficulty p = Ok d /\ expected_attempts d = None) /\
  expected_for PREFIX (length (lit "dead")) = Some (Some 65536) /\
  expected_for CONTAINS (length (lit "be")) = Some (Some 8).
Proof.
  intros n. split; [|split; [|split; [|split]]].
  - intros Hm Hn.
    pose proof prefix_table as Ht. rewrite forallb_forall in Ht.
    specialize (Ht (length (pattern p)) (in_seq_of_Z _ 259 Hn)).
    pose proof (estimate_by_length p) as He.
    destruct (estimate_difficulty p) as [d|e].
    + exists d. split; [reflexivity|].
      destruct Hm as [Hm|Hm]; rewrite Hm in He; rewrite <- He in Ht.
      * destruct (expected_attempts d) as [v|]; [|discriminate].
        destruct (expected_for SUFFIX _) as [[v'|]|]; try discriminate.
        apply andb_true_iff in Ht. destruct Ht as [Ht _].
        apply Z.eqb_eq in Ht. subst v. reflexivity.
      * destruct (expected_for PREFIX _) as [[v'|]|]; try discriminate.
        destruct (expected_attempts d) as [v|]; [|discriminate].
        apply andb_true_iff in Ht. destruct Ht as [_ Ht].
        apply Z.eqb_eq in Ht. subst v. reflexivity.
    + destruct Hm as [Hm|Hm]; rewrite Hm in He; rewrite <- He in Ht.
      * discriminate.
      * destruct (expected_for PREFIX _) as [[v'|]|]; discriminate.
  - intros Hm Hn.
    pose proof contains_table as Ht. rewrite forallb_forall in Ht.
    specialize (Ht (length (pattern p)) (in_seq_of_Z _ 255 Hn)).
    pose proof (estimate_by_length p) as He.
    rewrite Hm in He. cbv zeta in Ht. rewrite <- He in Ht.
    destruct (estimate_difficulty p) as [d|e]; [|discriminate].
    exists d. destruct (expected_attempts d) as [v|]; [|discriminate].
    exists v. fold n in Ht.
    destruct (truncated_quotient n) as [v'|]; [|discriminate].
    apply andb_true_iff in Ht. destruct Ht as [Hv Hex].
    apply Z.eqb_eq in Hv. subst v'.
    repeat split; try reflexivity.
    + intros Heq Hin. apply Z.eqb_eq in Heq. rewrite Heq in Hex.
      apply eqb_prop in Hex. symmetry in Hex. apply negb_true_iff in Hex.
      assert (Hx : existsb (Z.eqb n) inexact_lengths = true).
      { apply existsb_exists. exists n. split; [exact Hin | apply Z.eqb_refl]. }
      congruence.
    + intros Hnin. apply Z.eqb_eq.
      apply eqb_prop in Hex. rewrite Hex. apply negb_true_iff.
      destruct (existsb (Z.eqb n) inexact_lengths) eqn:Hx; [|reflexivity].
      apply existsb_exists in Hx. destruct Hx as [x [Hin Hx]].
      apply Z.eqb_eq in Hx. subst x. contradiction.
  - intros Hm. unfold estimate_difficulty. rewrite Hm.
    eexists. split; reflexivity.
  - vm_compute. reflexivity.
  - vm_compute. reflexivity.
Qed.

(** ** The orchestrator *)

Section GeneratorProperties.
Context `{Unicode} `{RegexEngine} `{Clock}.

Lemma spawn_fields (n q ev c : nat) (g : VanityGenerator) (w : World) :
  let g' := fst (spawn n q ev c g w) in
  _is_running g' = _is_running g /\
  _result_queue g' = _result_queue g /\
  _stop_event g' = _stop_event g /\
  _counter g' = _counter g /\
  _results g' = _results g.
Proof.
  revert g w. induction n as [|n IH]; intros g w; simpl; [auto|].
  destruct (IH (set_workers (_workers g ++ [length (procs w)]) g)
               (with_procs (fun l => l ++ [new_proc g q ev c]) w))
    as (Ha & Hb & Hc & Hd & He).
  simpl in *. auto.
Qed.

Lemma start_idle (g : VanityGenerator) (w : World) :
  _is_running g = false ->
  fst (fst (start g w)) = Ok () /\
  _is_running (snd (fst (start g w))) = true.
Proof.
  intros Hr. unfold start. rewrite Hr.
  match goal with
  | |- context [spawn ?n ?q ?ev ?c ?g1 ?w1] =>
      pose proof (spawn_fields n q ev c g1 w1) as Hs;
      destruct (spawn n q ev c g1 w1) as [g2 w3]
  end.
  simpl in *. destruct Hs as [Hs _]. auto.
Qed.

(** C5. A call of [start] on an orchestrator that is running raises
    [RuntimeError] (the code's AlreadyRunningError) and leaves the
    orchestrator and the world, so the set of processes, as they were.  In
    particular, after a [start] that succeeded, a second [start] raises,
    whatever the workers did in between. *)
Theorem start_already_running (g : VanityGenerator) (w : World) :
  (_is_running g = true -> start g w = (Raise RuntimeError, g, w)) /\
  (_is_running g = false ->
   forall sched : Schedule,
     let g1 := snd (fst (start g w)) in
     let w1 := run sched (snd (start g w)) in
     fst (fst (start g w)) = Ok () /\
     start g1 w1 = (Raise RuntimeError, g1, w1)).
Proof.
  split.
  - intros Hr. unfold start. rewrite Hr. reflexivity.
  - intros Hr sched g1 w1.
    destruct (start_idle g w Hr) as [Hok Hrun].
    split; [exact Hok|].
    unfold start at 1. fold g1 in Hrun. rewrite Hrun. reflexivity.
Qed.

(** *** What a step of a worker does to the world *)

Lemma worker_step_effect (k : KeyMaterial) (p : Proc) (w : World) :
  let w' := snd (worker_step k p w) in
  w' = w \/
  (exists x, p_pc p = PPut /\ p_item p = Some x /\
             w' = put (p_queue p) x w) \/
  (p_pc p = PSet /\ w' = event_set (p_event p) w) \/
  ((p_pc p = PAddFound \/ p_pc p = PFlush \/
    (p_pc p = PExitFlush /\ 0 < p_local_count p)) /\
   w' = counter_add (p_counter p) (p_local_count p) w).
Proof.
  unfold worker_step. destruct (p_pc p) eqn:Hpc; simpl; auto.
  - destruct (compile (p_pattern p)); simpl; auto.
  - destruct (event_is_set (p_event p) w); simpl; auto.
  - destruct (i <? p_batch_size p); simpl; auto.
    destruct (p_compiled p); simpl; auto.
    destruct (matches _ _) as [[|]|]; simpl; auto.
  - destruct (p_item p) eqn:Hi; simpl; eauto 10.
  - right. right. right. auto.
  - right. right. right. auto.
  - destruct (0 <? p_local_count p) eqn:Hl; simpl; auto.
    apply Z.ltb_lt in Hl. right. right. right. auto.
Qed.

Lemma step_proc_events (i : nat) (k : KeyMaterial) (w : World) :
  events (step_proc i k w) = events w \/
  exists ev, events (step_proc i k w) = <[ev := true]> (events w).
Proof.
  unfold step_proc. destruct (procs w !! i) as [p|]; [|auto].
  pose proof (worker_step_effect k p w) as He.
  destruct (worker_step k p w) as [p' w']. simpl in *.
  destruct He as [->|[(x & _ & _ & ->)|[[_ ->]|[_ ->]]]]; simpl; eauto.
Qed.

Lemma step_proc_queues_length (i : nat) (k : KeyMaterial) (w : World) :
  length (queues (step_proc i k w)) = length (queues w).
Proof.
  unfold step_proc. destruct (procs w !! i) as [p|]; [|auto].
  pose proof (worker_step_effect k p w) as He.
  destruct (worker_step k p w) as [p' w']. simpl in *.
  destruct He as [->|[(x & _ & _ & ->)|[[_ ->]|[_ ->]]]]; simpl; auto.
  apply length_alter.
Qed.

Lemma event_stable_insert (ev e : nat) (l : list bool) :
  <[ev := true]> l = l -> <[ev := true]> (<[e := true]> l) = <[e := true]> l.
Proof.
  intros Hl. destruct (decide (ev = e)) as [->|Hne].
  - apply list_insert_insert_eq.
  - rewrite list_insert_insert_ne by assumption. rewrite Hl. reflexivity.
Qed.

Lemma event_stable_run (ev : nat) (s : Schedule) (w : World) :
  event_stable ev w -> event_stable ev (run s w).
Proof.
  revert w. induction s as [|[i k] s IH]; intros w Hw; simpl; [exact Hw|].
  apply IH. unfold event_stable in *.
  destruct (step_proc_events i k w) as [->|[e ->]]; [exact Hw|].
  apply event_stable_insert, Hw.
Qed.

Lemma event_stable_join_all (ev : nat) (joins : list Schedule)
    (ws : list nat) (w : World) :
  event_stable ev w -> event_stable ev (join_all joins ws w).
Proof.
  revert joins w. induction ws as [|i ws IH]; intros joins w Hw; simpl.
  - exact Hw.
  - apply IH. unfold event_stable, terminate. simpl.
    apply (event_stable_run ev (hd [] joins) w Hw).
Qed.

Lemma drain_stop_events (g : VanityGenerator) (q : nat) (w : World) :
  events (snd (drain_stop g q w)) = events w.
Proof. unfold drain_stop. destruct (queues w !! q); reflexivity. Qed.

Lemma queue_take_pending (qu : Queue) :
  queue_pending (queue_take (length (queue_pending qu)) qu) = [].
Proof.
  unfold queue_pending, queue_take. simpl.
  apply drop_ge. rewrite length_drop. lia.
Qed.

(** After the drain loop of [stop] the queue is empty. *)
Lemma drain_stop_empties (g : VanityGenerator) (q : nat) (w : World) :
  match queues (snd (drain_stop g q w)) !! q with
  | Some qu => queue_pending qu = []
  | None => queues w !! q = None
  end.
Proof.
  unfold drain_stop. destruct (queues w !! q) as [qu|] eqn:Hq; simpl.
  - rewrite list_lookup_alter_eq, Hq. simpl. apply queue_take_pending.
  - rewrite Hq. reflexivity.
Qed.

(** The drain loop of [stop] on an empty queue does nothing. *)
Lemma drain_stop_empty (g : VanityGenerator) (q : nat) (w : World) :
  match queues w !! q with
  | Some qu => queue_pending qu = []
  | None => True
  end ->
  drain_stop g q w = ([], w).
Proof.
  unfold drain_stop. destruct (queues w !! q) as [qu|] eqn:Hq; [|reflexivity].
  intros ->. simpl. f_equal.
  destruct w as [qs es cs ps t cl]. unfold with_ticks, with_queues. simpl in *.
  f_equal; [|lia].
  apply list_eq. intros j. destruct (decide (j = q)) as [->|Hne].
  - rewrite list_lookup_alter_eq, Hq. simpl. f_equal.
    destruct qu as [items rd]. unfold queue_take. simpl. f_equal. lia.
  - rewrite list_lookup_alter_ne by congruence. reflexivity.
Qed.

(** C6. [stop] is idempotent: from any state of the orchestrator and the
    world, and whatever the workers do while it waits for them, a second
    [stop] right after the first returns the list the first one returned
    and leaves the orchestrator and the world as the first one left them.
    [stop] always returns: its result is the list of results collected
    before it, followed by one result for each item still in the queue;
    when nothing was collected and the queue is empty after the workers
    were joined (no match was found), the list is empty. *)
Theorem stop_idempotent (joins joins' : list Schedule)
    (g : VanityGenerator) (w : World) :
  let r1 := stop joins g w in
  stop joins' (snd (fst r1)) (snd r1) = r1 /\
  (exists rs, fst (fst r1) = _results g ++ rs) /\
  (_results g = [] ->
   (forall q qu,
       _result_queue g = Some q ->
       queues (join_all joins (_workers g)
                 (match _stop_event g with
                  | Some ev => event_set ev w
                  | None => w
                  end)) !! q = Some qu ->
       queue_pending qu = []) ->
   fst (fst r1) = []).
Proof.
  unfold stop.
  set (w1 := match _stop_event g with
             | Some ev => event_set ev w
             | None => w
             end).
  set (w2 := join_all joins (_workers g) w1).
  destruct (match _result_queue g with
            | Some q => drain_stop g q w2
            | None => ([], w2)
            end) as [rs w3] eqn:Hd.
  simpl. split; [|split].
  - (* the second call *)
    assert (Hev : forall ev, _stop_event g = Some ev -> event_set ev w3 = w3).
    { intros ev Hev.
      assert (Hst : event_stable ev w2).
      { apply event_stable_join_all. subst w1. rewrite Hev.
        unfold event_stable, event_set. simpl. apply list_insert_insert_eq. }
      assert (He3 : events w3 = events w2).
      { destruct (_result_queue g) as [q|].
        - rewrite <- (drain_stop_events g q w2), Hd. reflexivity.
        - injection Hd as _ <-. reflexivity. }
      unfold event_stable in Hst. rewrite <- He3 in Hst.
      destruct w3. unfold event_set, with_events. simpl in *.
      rewrite Hst. reflexivity. }
    assert (Hw : match _stop_event g with
                 | Some ev => event_set ev w3
                 | None => w3
                 end = w3).
    { destruct (_stop_event g) as [ev|]; [apply Hev|]; reflexivity. }
    rewrite Hw.
    destruct (_result_queue g) as [q|] eqn:Hq.
    + pose proof (drain_stop_empties g q w2) as He. rewrite Hd in He.
      simpl in He.
      rewrite (drain_stop_empty _ q w3).
      * simpl. rewrite app_nil_r. reflexivity.
      * destruct (queues w3 !! q); [exact He | exact I].
    + injection Hd as <- <-. simpl. rewrite app_nil_r. reflexivity.
  - exists rs. reflexivity.
  - intros Hres Hempty. rewrite Hres. simpl.
    destruct (_result_queue g) as [q|] eqn:Hq.
    + rewrite drain_stop_empty in Hd.
      * injection Hd as <- _. reflexivity.
      * destruct (queues w2 !! q) as [qu|] eqn:Hqu; [|exact I].
        apply (Hempty q qu eq_refl Hqu).
    + injection Hd as <- _. reflexivity.
Qed.

(** *** Construction *)

Lemma split_no_sep (sep : N) (s : pystr) :
  char_in sep s = false -> split sep s = [s].
Proof.
  induction s as [|c s IH]; simpl; [reflexivity|].
  intros Hc. apply orb_false_iff in Hc. destruct Hc as [Hc Hs].
  rewrite N.eqb_sym, Hc, (IH Hs). reflexivity.
Qed.

Lemma validate_raises (s : pystr) (e : exn) :
  validate_hex_pattern s = Raise e -> exists why, e = ValueError why.
Proof.
  unfold validate_hex_pattern.
  repeat match goal with
         | |- context [if ?b then _ else _] => destruct b
         end; intros [= <-]; eauto.
Qed.

Lemma utf8_encode_raises (s : pystr) (e : exn) :
  utf8_encode s = Raise e -> exists why, e = ValueError why.
Proof.
  induction s as [|c s IH]; simpl; [discriminate|].
  destruct (utf8_cp c); [|intros [= <-]; eauto].
  destruct (utf8_encode s); simpl; [discriminate|].
  intros [= <-]. apply IH. reflexivity.
Qed.

Lemma resolve_name_hash_raises (dt : pystr) (e : exn) :
  resolve_name_hash dt = Raise e -> exists why, e = ValueError why.
Proof.
  unfold resolve_name_hash, compute_name_hash.
  destruct (DEST_NAME_HASHES !! dt); [discriminate|].
  destruct (_ <? 2); [intros [= <-]; eauto|].
  destruct (utf8_encode dt) eqn:He; simpl; [discriminate|].
  intros [= <-]. eapply utf8_encode_raises, He.
Qed.

Lemma resolve_name_hash_no_dot (dt : pystr) :
  char_in 46%N dt = false ->
  resolve_name_hash dt = Raise (ValueError BadDestType).
Proof.
  intros Hd. unfold resolve_name_hash, DEST_NAME_HASHES.
  rewrite lookup_insert_ne by (intros <-; vm_compute in Hd; discriminate).
  rewrite lookup_insert_ne by (intros <-; vm_compute in Hd; discriminate).
  rewrite lookup_empty, split_no_sep by assumption. reflexivity.
Qed.


End GeneratorProperties.

(** ** Invariants *)

Section InvariantProperties.
Context `{RegexEngine}.

Lemma world_le_refl (w : World) : world_le w w.
Proof. unfold world_le. repeat split; eauto. Qed.

Lemma world_le_trans (w1 w2 w3 : World) :
  world_le w1 w2 -> world_le w2 w3 -> world_le w1 w3.
Proof.
  intros (Hq1 & He1 & Hs1 & Hc1) (Hq2 & He2 & Hs2 & Hc2).
  unfold world_le. repeat split; [|lia|auto|lia].
  intros q qu Hqu. destruct (Hq1 q qu Hqu) as (qu' & Hqu' & Hin).
  destruct (Hq2 q qu' Hqu') as (qu'' & Hqu'' & Hin').
  exists qu''. auto.
Qed.

Lemma world_le_same (w w' : World) :
  queues w' = queues w -> events w' = events w ->
  counters w' = counters w -> world_le w w'.
Proof.
  intros Hq He Hc. unfold world_le. rewrite Hq, He, Hc.
  repeat split; eauto.
Qed.

Lemma world_le_put (q : nat) (x : Item) (w : World) : world_le w (put q x w).
Proof.
  unfold world_le, put. simpl. repeat split; auto.
  intros q' qu Hqu. destruct (decide (q = q')) as [->|Hne].
  - exists (queue_put x qu). rewrite list_lookup_alter_eq, Hqu. split; [reflexivity|].
    intros y Hy. simpl. apply elem_of_app. auto.
  - exists qu. rewrite list_lookup_alter_ne by assumption. auto.
Qed.

Lemma world_le_event_set (e : nat) (w : World) : world_le w (event_set e w).
Proof.
  unfold world_le, event_set. simpl. repeat split; eauto.
  - rewrite length_insert. lia.
  - intros e' He'. destruct (decide (e = e')) as [->|Hne].
    + apply list_lookup_insert_eq. eapply lookup_lt_Some, He'.
    + rewrite list_lookup_insert_ne by assumption. exact He'.
Qed.

Lemma world_le_counter_add (c : nat) (n : Z) (w : World) :
  world_le w (counter_add c n w).
Proof.
  unfold world_le, counter_add. simpl. repeat split; eauto.
  rewrite length_alter. lia.
Qed.

Lemma proc_ok_mono (w w' : World) (p : Proc) :
  world_le w w' -> proc_ok w p -> proc_ok w' p.
Proof.
  intros (Hq & He & Hs & Hc) (Hl & Hpq & Hpe & Hpc & Hat & Hput & Hset).
  unfold proc_ok. repeat split; try lia; auto.
  - destruct (lookup_lt_is_Some_2 _ _ Hpq) as [qu Hqu].
    destruct (Hq _ _ Hqu) as (qu' & Hqu' & _).
    eapply lookup_lt_Some, Hqu'.
  - intros Hp. destruct (Hput Hp) as (x & qu & Hx & Hqu & Hin).
    destruct (Hq _ _ Hqu) as (qu' & Hqu' & Hin').
    exists x, qu'. auto.
Qed.

Lemma counters_advance_refl (l : list Z) :
  Forall (fun v => 0 <= v < 2 ^ 64) l -> counters_advance l l.
Proof.
  intros Hl c v Hv. exists 0. split; [lia|].
  rewrite Z.add_0_r, Z.mod_small; [exact Hv|].
  rewrite Forall_forall in Hl. apply Hl. eapply list_elem_of_lookup_2, Hv.
Qed.

Lemma counters_advance_trans (l1 l2 l3 : list Z) :
  counters_advance l1 l2 -> counters_advance l2 l3 -> counters_advance l1 l3.
Proof.
  intros H12 H23 c v Hv.
  destruct (H12 c v Hv) as (d1 & Hd1 & Hv2).
  destruct (H23 c _ Hv2) as (d2 & Hd2 & Hv3).
  exists (d1 + d2). split; [lia|].
  rewrite Hv3. f_equal.
  rewrite Zplus_mod_idemp_l. f_equal. lia.
Qed.

Lemma counters_advance_add (c : nat) (n : Z) (l : list Z) :
  0 <= n -> Forall (fun v => 0 <= v < 2 ^ 64) l ->
  counters_advance l (alter (fun v => (v + n) mod 2 ^ 64) c l).
Proof.
  intros Hn Hl c' v Hv. destruct (decide (c = c')) as [->|Hne].
  - exists n. rewrite list_lookup_alter_eq, Hv. auto.
  - rewrite list_lookup_alter_ne by assumption.
    apply (counters_advance_refl l Hl c' v Hv).
Qed.

Lemma counters_range_add (c : nat) (n : Z) (l : list Z) :
  Forall (fun v => 0 <= v < 2 ^ 64) l ->
  Forall (fun v => 0 <= v < 2 ^ 64) (alter (fun v => (v + n) mod 2 ^ 64) c l).
Proof.
  intros Hl. apply Forall_forall. intros v Hv.
  apply list_elem_of_lookup in Hv. destruct Hv as [c' Hv].
  destruct (decide (c = c')) as [->|Hne].
  - rewrite list_lookup_alter_eq in Hv.
    destruct (l !! c'); [|discriminate]. injection Hv as <-.
    apply Z.mod_pos_bound. lia.
  - rewrite list_lookup_alter_ne in Hv by assumption.
    rewrite Forall_forall in Hl. eapply Hl, list_elem_of_lookup_2, Hv.
Qed.

End InvariantProperties.

Section StepProperties.
Context `{RegexEngine}.

(** One step of a worker keeps the worker and the counters in order and
    only lets the shared objects grow. *)
Lemma worker_step_ok (k : KeyMaterial) (p : Proc) (w : World) :
  proc_ok w p ->
  Forall (fun v => 0 <= v < 2 ^ 64) (counters w) ->
  let p' := fst (worker_step k p w) in
  let w' := snd (worker_step k p w) in
  proc_ok w' p' /\ world_le w w' /\
  counters_advance (counters w) (counters w') /\
  Forall (fun v => 0 <= v < 2 ^ 64) (counters w') /\
  procs w' = procs w.
Proof.
  intros Hp Hc. pose proof Hp as Hp0.
  destruct Hp as (Hl & Hpq & Hpe & Hpc & Hat & Hput & Hset).
  pose proof (world_le_refl w) as Hrefl.
  pose proof (counters_advance_refl _ Hc) as Hadv.
  unfold worker_step. destruct (p_pc p) eqn:Hpc0.
  - (* PCompile *)
    destruct (compile (p_pattern p)); simpl;
      (split; [|auto]); unfold proc_ok; simpl;
      repeat split; auto; try lia; discriminate.
  - (* PWhile *)
    destruct (event_is_set (p_event p) w); simpl;
      (split; [|auto]); unfold proc_ok; simpl;
      repeat split; auto; discriminate.
  - (* PFor *)
    destruct (i <? p_batch_size p); simpl.
    + destruct (p_compiled p); simpl.
      * destruct (matches _ _) as [[|]|]; simpl;
          (split; [|auto]); unfold proc_ok; simpl;
          repeat split; eauto; try lia; discriminate.
      * (split; [|auto]); unfold proc_ok; simpl;
          repeat split; eauto; try lia; discriminate.
    + (split; [|auto]); unfold proc_ok; simpl;
        repeat split; auto; discriminate.
  - (* PPut *)
    destruct (Hat eq_refl) as [x Hx]. rewrite Hx. simpl.
    split; [|split; [apply world_le_put | auto]].
    destruct (lookup_lt_is_Some_2 _ _ Hpq) as [qu Hqu].
    unfold proc_ok; simpl. rewrite length_alter.
    repeat split; auto; try discriminate.
    intros _. exists x, (queue_put x qu).
    rewrite list_lookup_alter_eq, Hqu. repeat split; auto.
    simpl. apply elem_of_app. right. apply list_elem_of_singleton. reflexivity.
  - (* PSet *)
    simpl. split; [|split; [apply world_le_event_set | auto]].
    assert (Hok : proc_ok (event_set (p_event p) w) p)
      by (apply (proc_ok_mono w); auto using world_le_event_set).
    destruct Hok as (Hl' & Hpq' & Hpe' & Hpc' & Hat' & Hput' & Hset').
    rewrite Hpc0 in Hput'.
    unfold proc_ok; simpl. repeat split; auto; try discriminate.
    intros _. apply list_lookup_insert_eq. exact Hpe.
  - (* PAddFound *)
    simpl. split; [|split; [apply world_le_counter_add|];
                     auto using counters_advance_add, counters_range_add].
    assert (Hok : proc_ok (counter_add (p_counter p) (p_local_count p) w) p)
      by (apply (proc_ok_mono w); auto using world_le_counter_add).
    destruct Hok as (Hl' & Hpq' & Hpe' & Hpc' & Hat' & Hput' & Hset').
    rewrite Hpc0 in Hput', Hset'.
    unfold proc_ok; simpl. repeat split; auto; discriminate.
  - (* PReturnFound *)
    simpl. auto 10.
  - (* PFlush *)
    simpl. split; [|split; [apply world_le_counter_add|];
                     auto using counters_advance_add, counters_range_add].
    assert (Hok : proc_ok (counter_add (p_counter p) (p_local_count p) w) p)
      by (apply (proc_ok_mono w); auto using world_le_counter_add).
    destruct Hok as (Hl' & Hpq' & Hpe' & Hpc' & Hat' & Hput' & Hset').
    unfold proc_ok; simpl. repeat split; auto; try lia; discriminate.
  - (* PExitFlush *)
    destruct (0 <? p_local_count p); simpl.
    + assert (Hpos : 0 <= p_local_count p) by exact Hl.
      split; [|split; [apply world_le_counter_add|];
               auto using counters_advance_add, counters_range_add].
      assert (Hok : proc_ok (counter_add (p_counter p) (p_local_count p) w) p)
        by (apply (proc_ok_mono w); auto using world_le_counter_add).
      destruct Hok as (Hl' & Hpq' & Hpe' & Hpc' & Hat' & Hput' & Hset').
      unfold proc_ok; simpl. repeat split; auto; discriminate.
    + (split; [|auto]); unfold proc_ok; simpl;
        repeat split; auto; discriminate.
  - simpl. auto 10.
  - simpl. auto 10.
  - simpl. auto 10.
Qed.

Lemma good_step_refl (w : World) : world_ok w -> good_step w w.
Proof.
  intros Hw. split; [exact Hw|]. split; [apply world_le_refl|].
  apply counters_advance_refl, Hw.
Qed.

Lemma good_step_trans (w1 w2 w3 : World) :
  good_step w1 w2 -> good_step w2 w3 -> good_step w1 w3.
Proof.
  intros (_ & Hle1 & Ha1) (Hok & Hle2 & Ha2). split; [exact Hok|].
  split; [eapply world_le_trans | eapply counters_advance_trans]; eauto.
Qed.

Lemma step_proc_ok (i : nat) (k : KeyMaterial) (w : World) :
  world_ok w -> good_step w (step_proc i k w).
Proof.
  intros [Hps Hcs]. unfold step_proc.
  destruct (procs w !! i) as [p|] eqn:Hp;
    [|apply good_step_refl; split; assumption].
  assert (Hpok : proc_ok w p).
  { rewrite Forall_forall in Hps. eapply Hps, list_elem_of_lookup_2, Hp. }
  pose proof (worker_step_ok k p w Hpok Hcs) as Hs.
  destruct (worker_step k p w) as [p' w']. simpl in Hs.
  destruct Hs as (Hp' & Hle & Hadv & Hrng & Hprocs).
  assert (Hle' : world_le w' (with_procs (fun l => <[i:=p']> l) w'))
    by (apply world_le_same; reflexivity).
  split; [|split].
  - split; [|exact Hrng]. simpl. rewrite Hprocs.
    apply Forall_insert.
    + eapply Forall_impl; [exact Hps|]. intros p0 Hp0.
      apply (proc_ok_mono w'); [exact Hle'|].
      apply (proc_ok_mono w); assumption.
    + apply (proc_ok_mono w'); assumption.
  - eapply world_le_trans; eassumption.
  - exact Hadv.
Qed.

Lemma run_ok (s : Schedule) (w : World) :
  world_ok w -> good_step w (run s w).
Proof.
  revert w. induction s as [|[i k] s IH]; intros w Hw; simpl.
  - apply good_step_refl, Hw.
  - pose proof (step_proc_ok i k w Hw) as Hs.
    eapply good_step_trans; [exact Hs|]. apply IH, Hs.
Qed.

Lemma terminate_ok (i : nat) (w : World) :
  world_ok w -> good_step w (terminate i w).
Proof.
  intros [Hps Hcs].
  assert (Hle : world_le w (terminate i w))
    by (apply world_le_same; reflexivity).
  split; [|split; [exact Hle | apply counters_advance_refl, Hcs]].
  split; [|exact Hcs]. unfold terminate. simpl.
  apply Forall_forall. intros p Hp.
  apply list_elem_of_lookup in Hp. destruct Hp as [j Hp].
  assert (Hmono : forall p0, proc_ok w p0 ->
            proc_ok (with_procs
              (alter (fun p => if is_alive p
                               then set_pc (PTerminated (p_pc p)) p else p) i)
              w) p0).
  { intros p0. apply proc_ok_mono, Hle. }
  destruct (decide (i = j)) as [->|Hne].
  - rewrite list_lookup_alter_eq in Hp.
    destruct (procs w !! j) as [p0|] eqn:Hp0; [|discriminate].
    injection Hp as <-.
    assert (Hok : proc_ok w p0).
    { rewrite Forall_forall in Hps. eapply Hps, list_elem_of_lookup_2, Hp0. }
    apply Hmono in Hok.
    destruct (is_alive p0); [|exact Hok].
    destruct Hok as (Hl' & Hpq' & Hpe' & Hpc' & Hat' & Hput' & Hset').
    unfold proc_ok. simpl. repeat split; auto.
  - rewrite list_lookup_alter_ne in Hp by assumption.
    apply Hmono. rewrite Forall_forall in Hps.
    eapply Hps, list_elem_of_lookup_2, Hp.
Qed.

Lemma join_all_ok (joins : list Schedule) (ws : list nat) (w : World) :
  world_ok w -> good_step w (join_all joins ws w).
Proof.
  revert joins w. induction ws as [|i ws IH]; intros joins w Hw; simpl.
  - apply good_step_refl, Hw.
  - pose proof (run_ok (hd [] joins) w Hw) as Hr.
    pose proof (terminate_ok i _ (proj1 Hr)) as Ht.
    eapply good_step_trans; [exact Hr|].
    eapply good_step_trans; [exact Ht|]. apply IH, Ht.
Qed.

End StepProperties.

Section SystemProperties.
Context `{Unicode} `{RegexEngine} `{Clock}.

(** An operation that leaves the processes, the counters, the events and
    the items of the queues alone. *)
Lemma good_step_shared (w w' : World) :
  world_ok w ->
  procs w' = procs w -> counters w' = counters w -> events w' = events w ->
  (forall q qu, queues w !! q = Some qu ->
     exists qu', queues w' !! q = Some qu' /\ q_items qu' = q_items qu) ->
  good_step w w'.
Proof.
  intros [Hps Hcs] Hp Hc He Hq.
  assert (Hle : world_le w w').
  { unfold world_le. rewrite Hc, He. repeat split; auto.
    intros q qu Hqu. destruct (Hq q qu Hqu) as (qu' & Hqu' & Hi).
    exists qu'. rewrite Hi. auto. }
  split; [|split; [exact Hle|]].
  - split.
    + rewrite Hp. eapply Forall_impl; [exact Hps|].
      intros p. apply proc_ok_mono, Hle.
    + rewrite Hc. exact Hcs.
  - rewrite Hc. apply counters_advance_refl, Hcs.
Qed.

Lemma alter_take_items (n q : nat) (l : list Queue) (j : nat) (qu : Queue) :
  l !! j = Some qu ->
  exists qu', alter (queue_take n) q l !! j = Some qu' /\
              q_items qu' = q_items qu.
Proof.
  intros Hj. destruct (decide (q = j)) as [->|Hne].
  - exists (queue_take n qu). rewrite list_lookup_alter_eq, Hj. auto.
  - exists qu. rewrite list_lookup_alter_ne by assumption. auto.
Qed.

Lemma drain_stop_ok (g : VanityGenerator) (q : nat) (w : World) :
  world_ok w -> good_step w (snd (drain_stop g q w)).
Proof.
  intros Hw. unfold drain_stop.
  destruct (queues w !! q) as [qu|]; simpl; [|apply good_step_refl, Hw].
  apply good_step_shared; auto. simpl. intros j qj. apply alter_take_items.
Qed.

Lemma fold_calls_shared (rs : list GeneratorResult) (w : World) :
  let w' := fold_left (fun w r => with_call (OnResult (dest_hash_hex r)) w)
                      rs w in
  procs w' = procs w /\ counters w' = counters w /\
  events w' = events w /\ queues w' = queues w /\ ticks w' = ticks w.
Proof.
  revert w. induction rs as [|r rs IH]; intros w; simpl; [auto|].
  destruct (IH (with_call (OnResult (dest_hash_hex r)) w))
    as (Ha & Hb & Hc & Hd & He).
  simpl in *. auto.
Qed.

Lemma drain_poll_ok (g : VanityGenerator) (q : nat) (w : World) :
  world_ok w -> good_step w (snd (drain_poll g q w)).
Proof.
  intros Hw. unfold drain_poll.
  destruct (queues w !! q) as [qu|]; simpl; [|apply good_step_refl, Hw].
  destruct (_counter g) as [c|]; simpl.
  - destruct (on_result g).
    + match goal with
      | |- context [fold_left ?f ?rs ?w0] =>
          destruct (fold_calls_shared rs w0) as (Ha & Hb & Hc & Hd & He)
      end.
      apply good_step_shared; auto.
      rewrite Hd. simpl. intros j qj. apply alter_take_items.
    + apply good_step_shared; auto. simpl. intros j qj. apply alter_take_items.
  - destruct (queue_pending qu); simpl; [apply good_step_refl, Hw|].
    apply good_step_shared; auto. simpl. intros j qj. apply alter_take_items.
Qed.

Lemma add_proc_ok (p : Proc) (w : World) :
  world_ok w -> proc_ok w p ->
  good_step w (with_procs (fun l => l ++ [p]) w).
Proof.
  intros [Hps Hcs] Hp.
  assert (Hle : world_le w (with_procs (fun l => l ++ [p]) w))
    by (apply world_le_same; reflexivity).
  split; [|split; [exact Hle | apply counters_advance_refl, Hcs]].
  split; [|exact Hcs]. simpl. apply Forall_app. split.
  - eapply Forall_impl; [exact Hps|]. intros p0. apply proc_ok_mono, Hle.
  - apply Forall_singleton. revert Hp. apply proc_ok_mono, Hle.
Qed.

Lemma new_proc_ok (g : VanityGenerator) (q ev c : nat) (w : World) :
  (q < length (queues w))%nat -> (ev < length (events w))%nat ->
  (c < length (counters w))%nat -> proc_ok w (new_proc g q ev c).
Proof.
  intros Hq He Hc. unfold proc_ok. simpl.
  repeat split; auto; try lia; discriminate.
Qed.

Lemma spawn_ok (n q ev c : nat) (g : VanityGenerator) (w : World) :
  world_ok w ->
  (q < length (queues w))%nat -> (ev < length (events w))%nat ->
  (c < length (counters w))%nat ->
  good_step w (snd (spawn n q ev c g w)).
Proof.
  revert g w. induction n as [|n IH]; intros g w Hw Hq He Hc; simpl.
  - apply good_step_refl, Hw.
  - pose proof (add_proc_ok _ w Hw (new_proc_ok g q ev c w Hq He Hc)) as Ha.
    eapply good_step_trans; [exact Ha|].
    apply IH; [apply Ha | exact Hq | exact He | exact Hc].
Qed.

(** The allocation of the queue, the event and the counter in [start]. *)
Lemma alloc_ok (w : World) :
  world_ok w ->
  good_step w
    (with_counters (fun l => l ++ [0])
       (with_events (fun l => l ++ [false])
          (with_queues (fun l => l ++ [queue_new]) w))).
Proof.
  intros [Hps Hcs].
  set (w1 := with_counters _ _).
  assert (Hle : world_le w w1).
  { unfold world_le. subst w1. simpl. rewrite !length_app. simpl.
    repeat split; try lia.
    - intros q qu Hqu. exists qu. split; [|auto].
      apply lookup_app_l_Some, Hqu.
    - intros e He. apply lookup_app_l_Some, He. }
  split; [|split; [exact Hle|]].
  - split.
    + subst w1. simpl. eapply Forall_impl; [exact Hps|].
      intros p. apply proc_ok_mono, Hle.
    + subst w1. simpl. apply Forall_app. split; [exact Hcs|].
      apply Forall_singleton. lia.
  - intros c v Hv. exists 0. split; [lia|]. subst w1. simpl.
    rewrite Z.add_0_r, Z.mod_small.
    + apply lookup_app_l_Some, Hv.
    + rewrite Forall_forall in Hcs. eapply Hcs, list_elem_of_lookup_2, Hv.
Qed.

Lemma start_ok (g : VanityGenerator) (w : World) :
  world_ok w -> good_step w (snd (start g w)).
Proof.
  intros Hw. unfold start.
  destruct (_is_running g); simpl; [apply good_step_refl, Hw|].
  pose proof (alloc_ok w Hw) as Ha.
  set (w1 := with_counters _ _) in *.
  assert (Ht : good_step w1 (with_ticks (S (ticks w1)) w1)).
  { apply good_step_shared; auto; [apply Ha|]. simpl. eauto. }
  match goal with
  | |- context [spawn ?n ?q ?ev ?c ?g1 ?w2] =>
      assert (Hs : good_step w2 (snd (spawn n q ev c g1 w2)));
      [|destruct (spawn n q ev c g1 w2) as [g2 w3]]
  end.
  { apply spawn_ok; [apply Ht| | |]; subst w1; simpl;
      rewrite length_app; simpl; lia. }
  simpl in *.
  eapply good_step_trans; [exact Ha|].
  eapply good_step_trans; [exact Ht | exact Hs].
Qed.

Lemma poll_ok (g : VanityGenerator) (w : World) :
  world_ok w -> good_step w (snd (poll g w)).
Proof.
  intros Hw. unfold poll.
  destruct (negb (_is_running g)); simpl; [apply good_step_refl, Hw|].
  destruct (_result_queue g) as [q|]; simpl; [|apply good_step_refl, Hw].
  pose proof (drain_poll_ok g q w Hw) as Hd.
  destruct (drain_poll g q w) as [rs w1]. simpl in Hd.
  assert (Ht : good_step w1 (with_ticks (S (ticks w1)) w1)).
  { apply good_step_shared; auto; [apply Hd|]. simpl. eauto. }
  pose proof (good_step_trans _ _ _ Hd Ht) as Hdt.
  destruct (_counter g) as [c|]; simpl; [|exact Hdt].
  set (w2 := with_ticks (S (ticks w1)) w1) in *.
  set (w3 := if on_progress g then _ else w2).
  assert (Hp : good_step w2 w3).
  { subst w3. destruct (on_progress g); [|apply good_step_refl, Ht].
    apply good_step_shared; auto; [apply Ht|]. simpl. eauto. }
  pose proof (good_step_trans _ _ _ Hdt Hp) as Hdp.
  destruct (_stop_event g) as [ev|]; simpl; [|exact Hdp].
  destruct (_ && _); simpl; [|exact Hdp].
  destruct (on_complete g); [|exact Hdp].
  eapply good_step_trans; [exact Hdp|].
  apply good_step_shared; auto; [apply Hdp|]. simpl. eauto.
Qed.

Lemma event_set_ok (ev : nat) (w : World) :
  world_ok w -> good_step w (event_set ev w).
Proof.
  intros [Hps Hcs].
  pose proof (world_le_event_set ev w) as Hle.
  split; [|split; [exact Hle | apply counters_advance_refl, Hcs]].
  split; [|exact Hcs]. simpl.
  eapply Forall_impl; [exact Hps|]. intros p. apply proc_ok_mono, Hle.
Qed.

Lemma stop_ok (joins : list Schedule) (g : VanityGenerator) (w : World) :
  world_ok w -> good_step w (snd (stop joins g w)).
Proof.
  intros Hw. unfold stop.
  set (w1 := match _stop_event g with
             | Some ev => event_set ev w
             | None => w
             end).
  assert (Hs1 : good_step w w1).
  { subst w1. destruct (_stop_event g);
      [apply event_set_ok | apply good_step_refl]; exact Hw. }
  pose proof (join_all_ok joins (_workers g) w1 (proj1 Hs1)) as Hs2.
  set (w2 := join_all joins (_workers g) w1) in *.
  pose proof (good_step_trans _ _ _ Hs1 Hs2) as Hs12.
  destruct (_result_queue g) as [q|]; simpl; [|exact Hs12].
  pose proof (drain_stop_ok g q w2 (proj1 Hs2)) as Hs3.
  destruct (drain_stop g q w2) as [rs w3]. simpl in *.
  eapply good_step_trans; eassumption.
Qed.

(** Every step of the system keeps the world in order, lets the shared
    objects only grow and only adds to the counters. *)
Lemma sys_step_ok (s s' : System) :
  world_ok (snd s) -> sys_step s s' -> good_step (snd s) (snd s').
Proof.
  intros Hw Hs. destruct Hs; simpl in *.
  - apply step_proc_ok, Hw.
  - apply good_step_refl, Hw.
  - apply start_ok, Hw.
  - apply poll_ok, Hw.
  - apply stop_ok, Hw.
Qed.

Lemma reachable_ok (s : System) : reachable s -> world_ok (snd s).
Proof.
  induction 1 as [pat m dt n cs cpu g Hg | s s' _ IH Hs].
  - split; constructor.
  - apply (sys_step_ok s s' IH Hs).
Qed.

End SystemProperties.

(** ** Worked examples *)

Section Examples.
#[local] Existing Instance caseless_unicode.
#[local] Existing Instance literal_regex.
#[local] Existing Instance integer_clock.

Lemma init_prefix_generator (c : N) :
  char_in c hexdigits = true ->
  init [c] PREFIX (lit "lxmf.delivery") 1 false None
  = Ok (prefix_generator [c]).
Proof.
  unfold char_in. rewrite existsb_exists.
  intros [x [Hin Heq]]. apply N.eqb_eq in Heq. subst x.
  vm_compute in Hin.
  repeat (destruct Hin as [<-|Hin]; [vm_compute; reflexivity|]).
  destruct Hin.
Defined.

Lemma reachable_run (g : VanityGenerator) (w : World) (s : Schedule) :
  reachable (g, w) -> reachable (g, run s w).
Proof.
  revert w. induction s as [|[i k] s IH]; intros w Hw; simpl; [exact Hw|].
  apply IH. eapply Reach_step; [exact Hw | apply Step_worker].
Defined.

Lemma reachable_started (c : N) :
  char_in c hexdigits = true -> reachable (started [c]).
Proof.
  intros Hc. unfold started.
  eapply Reach_step; [|apply Step_start].
  eapply Reach_init, init_prefix_generator, Hc.
Defined.

(** *** The loop of a worker that finds no match *)

Lemma item0_no_match :
  startswith (snd (generate_and_hash LXMF_NAME_HASH k0)) (lit "0") = false.
Proof. vm_compute. reflexivity. Qed.

Lemma first_steps :
  run (repeat (0%nat, k0) 3) (snd (started (lit "0")))
  = looping_world (lit "0") (PFor 1) 1 0.
Proof. vm_compute. reflexivity. Qed.

Lemma while_step (n v : Z) :
  step_proc 0 k0 (looping_world (lit "0") PWhile n v)
  = looping_world (lit "0") (PFor 0) n v.
Proof. reflexivity. Qed.

Lemma for_step (i n v : Z) :
  i < 500 ->
  step_proc 0 k0 (looping_world (lit "0") (PFor i) n v)
  = looping_world (lit "0") (PFor (i + 1)) (n + 1) v.
Proof.
  intros Hi. unfold step_proc, looping_world, worker_step, looping_proc.
  cbn [procs lookup list_lookup p_pc p_batch_size p_name_hash p_compiled].
  rewrite (proj2 (Z.ltb_lt i 500) Hi).
  unfold matches. cbn [cp_mode cp_pattern].
  rewrite item0_no_match. reflexivity.
Qed.

Lemma for_steps (m : nat) (i n v : Z) :
  i + Z.of_nat m <= 500 ->
  run (repeat (0%nat, k0) m) (looping_world (lit "0") (PFor i) n v)
  = looping_world (lit "0") (PFor (i + Z.of_nat m)) (n + Z.of_nat m) v.
Proof.
  revert i n. induction m as [|m IH]; intros i n Hm.
  - simpl. rewrite !Z.add_0_r. reflexivity.
  - cbn [repeat run fold_left fst snd]. rewrite for_step by lia.
    change (fold_left _ (repeat (0%nat, k0) m) ?w)
      with (run (repeat (0%nat, k0) m) w).
    rewrite IH by lia.
    replace (i + 1 + Z.of_nat m) with (i + Z.of_nat (S m)) by lia.
    replace (n + 1 + Z.of_nat m) with (n + Z.of_nat (S m)) by lia.
    reflexivity.
Qed.

Lemma for_exit (n v : Z) :
  step_proc 0 k0 (looping_world (lit "0") (PFor 500) n v)
  = looping_world (lit "0") PFlush n v.
Proof. reflexivity. Qed.

Lemma flush_step (n v : Z) :
  step_proc 0 k0 (looping_world (lit "0") PFlush n v)
  = looping_world (lit "0") PWhile 0 ((v + n) mod 2 ^ 64).
Proof. reflexivity. Qed.

Lemma reachable_step_to (g : VanityGenerator) (w w' : World) :
  reachable (g, w) -> step_proc 0 k0 w = w' -> reachable (g, w').
Proof.
  intros Hw <-. eapply Reach_step; [exact Hw | apply Step_worker].
Qed.

Lemma reachable_run_to (g : VanityGenerator) (w w' : World) (s : Schedule) :
  reachable (g, w) -> run s w = w' -> reachable (g, w').
Proof. intros Hw <-. apply reachable_run, Hw. Qed.

(** The worker gets to the flush of every batch, with the counter at 500
    times the number of batches before, modulo 2^64. *)
Lemma reachable_flush (n : Z) :
  0 <= n ->
  reachable (fst (started (lit "0")),
             looping_world (lit "0") PFlush 500 ((500 * n) mod 2 ^ 64)).
Proof.
  revert n. apply natlike_ind.
  - eapply reachable_step_to; [|apply for_exit].
    eapply reachable_run_to; [|apply (for_steps 499 1 1 0); lia].
    eapply reachable_run_to; [|apply first_steps].
    apply (reachable_started 48). reflexivity.
  - intros n Hn IH.
    eapply reachable_step_to; [|apply for_exit].
    eapply reachable_run_to; [|apply (for_steps 500 0 0); lia].
    eapply reachable_step_to; [|apply while_step].
    eapply reachable_step_to; [exact IH|].
    rewrite flush_step. f_equal.
    rewrite Zplus_mod_idemp_l. f_equal. lia.
Qed.

(** C8 as stated does not hold: the system gets into [wrap_state], and the
    flush the worker does there takes the counter from 2^64 - 116 down to
    384. *)
Lemma counter_wraps_around :
  reachable wrap_state /\
  sys_step wrap_state (fst wrap_state, step_proc 0 k0 (snd wrap_state)) /\
  counters (snd wrap_state) !! 0%nat = Some (2 ^ 64 - 116) /\
  counters (step_proc 0 k0 (snd wrap_state)) !! 0%nat = Some 384 /\
  384 < 2 ^ 64 - 116.
Proof.
  split; [|split; [|split; [|split]]].
  - unfold wrap_state.
    replace (2 ^ 64 - 116) with ((500 * 36893488147419103) mod 2 ^ 64)
      by (vm_compute; reflexivity).
    apply reachable_flush. lia.
  - unfold wrap_state. apply Step_worker.
  - reflexivity.
  - vm_compute. reflexivity.
  - vm_compute. reflexivity.
Qed.

(** *** The claims at concrete inputs *)

(** C2 as stated does not hold: [" a"] has a character outside the
    hexadecimal digits, the space, and is accepted, whatever the Unicode
    table is. *)
Lemma validate_accepts_padded :
  Exists (fun c => is_hex_ci c = false) (lit " a") /\
  forall U : Unicode, @validate_hex_pattern U (lit " a") = Ok (lit "a").
Proof.
  split; [apply Exists_cons_hd; reflexivity|].
  intros U. reflexivity.
Qed.

Lemma validate_hex_pattern_spec_witness :
  validate_hex_pattern (lit "DEad") = Ok (lit "dead") /\
  exists why, validate_hex_pattern (lit "xyz") = Raise (ValueError why).
Proof.
  destruct validate_hex_pattern_spec as [Hok Hbad]. split.
  - destruct (Hok (lit "DEad")) as [Hv _];
      [discriminate | repeat constructor | vm_compute; lia | exact Hv].
  - apply Hbad. right. left. apply Exists_cons_hd. reflexivity.
Defined.

Lemma validate_strips_whitespace_witness :
  validate_hex_pattern (lit "  Be ") = Ok (lit "be") /\
  validate_hex_pattern (lit "   ") = Raise (ValueError EmptyPattern).
Proof.
  assert (Hlaw : lower_fixes_space) by (intros whole i c _; reflexivity).
  destruct (validate_strips_whitespace Hlaw) as [Hok Hempty]. split.
  - destruct (Hok (lit "  Be ")) as [Hv _];
      [discriminate | repeat constructor | vm_compute; lia | exact Hv].
  - apply Hempty. repeat constructor.
Defined.

(** C4 as stated does not hold: for the contains pattern
    ["0123456789abcde"], of length 15, the estimator reports
    64051194700380384, and the truncated quotient [16^15 / 18] is
    64051194700380387; and for a prefix pattern of length 260 it raises
    instead of reporting [16^260]. *)
Lemma estimate_contains_15_inexact :
  (expected_attempts <$>
     (match estimate_difficulty
              {| mode := CONTAINS; pattern := lit "0123456789abcde";
                 case_sensitive := false |} with
      | Ok d => Some d
      | Raise _ => None
      end)) = Some (Some 64051194700380384) /\
  16 ^ 15 / Z.max 1 (32 - 15 + 1) = 64051194700380387 /\
  estimate_difficulty {| mode := PREFIX; pattern := repeat 48%N 260;
                         case_sensitive := false |} = Raise OverflowError.
Proof. split; [|split]; vm_compute; reflexivity. Qed.

Lemma estimate_difficulty_model_witness :
  (exists d, estimate_difficulty {| mode := PREFIX; pattern := lit "dead";
                                    case_sensitive := false |} = Ok d /\
             expected_attempts d = Some 65536) /\
  (exists d v, estimate_difficulty {| mode := CONTAINS; pattern := lit "be";
                                      case_sensitive := false |} = Ok d /\
               expected_attempts d = Some v /\ v = 8).
Proof.
  split.
  - destruct (estimate_difficulty_model
                {| mode := PREFIX; pattern := lit "dead";
                   case_sensitive := false |}) as [Hp _].
    apply Hp; [left; reflexivity | vm_compute; discriminate].
  - destruct (estimate_difficulty_model
                {| mode := CONTAINS; pattern := lit "be";
                   case_sensitive := false |}) as (_ & Hc & _).
    destruct Hc as (d & v & Hd & Hv & _ & Hex);
      [reflexivity | vm_compute; discriminate |].
    exists d, v. split; [exact Hd|]. split; [exact Hv|].
    apply (proj2 Hex). intros Hin. vm_compute in Hin.
    repeat (destruct Hin as [Hin|Hin]; [discriminate|]). exact Hin.
Defined.

Lemma start_already_running_witness :
  start (fst (started (lit "0"))) (snd (started (lit "0")))
  = (Raise RuntimeError, fst (started (lit "0")), snd (started (lit "0"))).
Proof.
  destruct (start_already_running (prefix_generator (lit "0")) empty_world)
    as [_ Hidle].
  destruct (Hidle eq_refl []) as [_ Hsecond]. exact Hsecond.
Defined.

Lemma stop_idempotent_witness :
  fst (fst (stop [] (fst (started (lit "0"))) (snd (started (lit "0"))))) = [].
Proof.
  destruct (stop_idempotent [] []
              (fst (started (lit "0"))) (snd (started (lit "0"))))
    as (_ & _ & Hnone).
  apply Hnone; [reflexivity|].
  intros q qu Hq Hqu. vm_compute in Hq. injection Hq as <-.
  vm_compute in Hqu. injection Hqu as <-. reflexivity.
Defined.


Lemma matched_proc :
  procs (snd matched_state) !! 0%nat
  = Some (looping_proc (lit "9") PAddFound 1).
Proof. vm_compute. reflexivity. Defined.

End Examples.

(** ** Hashes and addresses *)

Lemma be_bytes_length (n : nat) (x : Z) : length (SHA256.be_bytes n x) = n.
Proof. induction n as [|n IH]; simpl; [reflexivity | rewrite IH; reflexivity]. Qed.

Lemma be_bytes_range (n : nat) (x : Z) : Forall is_byte (SHA256.be_bytes n x).
Proof.
  induction n as [|n IH]; simpl; constructor; [|exact IH].
  unfold is_byte. apply Z.mod_pos_bound. lia.
Qed.

Lemma compress_length (h : list Z) (block : pybytes) :
  length h = 8%nat -> length (SHA256.compress h block) = 8%nat.
Proof.
  intros Hh. unfold SHA256.compress. rewrite length_zip_with, Hh. reflexivity.
Qed.

Lemma digest_state_length (blocks : list pybytes) (h : list Z) :
  length h = 8%nat -> length (fold_left SHA256.compress blocks h) = 8%nat.
Proof.
  revert h. induction blocks as [|b blocks IH]; intros h Hh; simpl.
  - exact Hh.
  - apply IH, compress_length, Hh.
Qed.

Lemma words_bytes_length (h : list Z) :
  length (concat (map (SHA256.be_bytes 4) h)) = (4 * length h)%nat.
Proof.
  induction h as [|x h IH]; [reflexivity|].
  cbn [map concat length]. rewrite length_app, be_bytes_length, IH. lia.
Qed.

Lemma words_bytes_range (h : list Z) :
  Forall is_byte (concat (map (SHA256.be_bytes 4) h)).
Proof.
  induction h as [|x h IH]; [constructor|].
  cbn [map concat]. apply Forall_app. split; [apply be_bytes_range | exact IH].
Qed.

(** A SHA-256 digest has 32 octets. *)
Lemma digest_length (msg : pybytes) : length (SHA256.digest msg) = 32%nat.
Proof.
  unfold SHA256.digest. rewrite words_bytes_length, digest_state_length;
    reflexivity.
Qed.

Lemma digest_range (msg : pybytes) : Forall is_byte (SHA256.digest msg).
Proof. apply words_bytes_range. Qed.

Lemma hexchar_digit (d : Z) : 0 <= d < 16 -> is_hexdigit (hexchar d).
Proof.
  intros Hd. unfold is_hexdigit.
  assert (Hn : d = Z.of_nat (Z.to_nat d)) by lia.
  assert (Hlt : (Z.to_nat d < 16)%nat) by lia.
  rewrite Hn. generalize dependent (Z.to_nat d). clear Hd. intros n _ Hlt.
  do 16 (destruct n as [|n]; [reflexivity|]). lia.
Qed.

Lemma bytes_hex_length (b : pybytes) :
  length (bytes_hex b) = (2 * length b)%nat.
Proof.
  induction b as [|x b IH]; [reflexivity|].
  cbn [bytes_hex flat_map length app] in *. unfold bytes_hex in IH.
  rewrite IH. lia.
Qed.

Lemma bytes_hex_digits (b : pybytes) :
  Forall is_byte b -> Forall is_hexdigit (bytes_hex b).
Proof.
  induction 1 as [|x b Hx _ IH]; [constructor|].
  unfold is_byte in Hx. cbn [bytes_hex flat_map app].
  constructor; [apply hexchar_digit; split;
                  [apply Z.div_pos | apply Z.div_lt_upper_bound]; lia|].
  constructor; [apply hexchar_digit, Z.mod_pos_bound; lia | exact IH].
Qed.

Lemma generate_and_hash_address (name_hash_ : pybytes) (k : KeyMaterial) :
  length (snd (generate_and_hash name_hash_ k)) = 32%nat /\
  Forall is_hexdigit (snd (generate_and_hash name_hash_ k)).
Proof.
  unfold generate_and_hash, dest_hash_from_identity_hash. cbn [fst snd].
  change (Z.to_nat (TRUNCATED_HASHLENGTH / 8)) with 16%nat.
  split.
  - rewrite bytes_hex_length, length_take, digest_length. reflexivity.
  - apply bytes_hex_digits, Forall_take, digest_range.
Qed.

(** X1. What [generate_and_hash] returns for a key pair: the two private
    keys joined, the identity hash [identity_hash_from_pub] computes from
    the public keys, and the hexadecimal form of the destination hash
    [dest_hash_from_identity_hash] computes from it.  The identity hash has
    16 octets and the address is 32 lower-case hexadecimal digits. *)
Theorem generate_and_hash_shape (name_hash_ : pybytes) (k : KeyMaterial) :
  let r := generate_and_hash name_hash_ k in
  fst (fst r) = x_prv k ++ e_prv k /\
  snd (fst r) = identity_hash_from_pub (x_pub k) (e_pub k) /\
  snd r = bytes_hex (dest_hash_from_identity_hash name_hash_ (snd (fst r))) /\
  length (snd (fst r)) = 16%nat /\
  length (snd r) = 32%nat /\
  Forall is_hexdigit (snd r).
Proof.
  unfold generate_and_hash, identity_hash_from_pub,
    dest_hash_from_identity_hash. cbn [fst snd].
  change (Z.to_nat (TRUNCATED_HASHLENGTH / 8)) with 16%nat.
  repeat split.
  - rewrite length_take, digest_length. reflexivity.
  - rewrite bytes_hex_length, length_take, digest_length. reflexivity.
  - apply bytes_hex_digits, Forall_take, digest_range.
Qed.

(** ** Name hashes of any destination type *)

Lemma utf8_encode_ok (s : pystr) :
  Forall (fun c => is_surrogate c = false) s <->
  exists b, utf8_encode s = Ok b.
Proof.
  induction s as [|c s IH]; simpl.
  - split; [eauto | constructor].
  - split.
    + intros Hs. inversion Hs as [|? ? Hc Hs']; subst.
      apply IH in Hs'. destruct Hs' as [b Hb]. rewrite Hb.
      unfold utf8_cp, is_surrogate in *.
      destruct (Z.of_N c <? 128); [simpl; eauto|].
      destruct (Z.of_N c <? 2048); [simpl; eauto|].
      replace ((55296 <=? Z.of_N c) && (Z.of_N c <=? 57343)) with false.
      * destruct (Z.of_N c <? 65536); simpl; eauto.
      * symmetry. apply andb_false_iff. apply andb_false_iff in Hc.
        destruct Hc as [Hc|Hc]; [left|right];
          [apply N.leb_gt in Hc | apply N.leb_gt in Hc];
          apply Z.leb_gt; lia.
    + intros [b Hb].
      destruct (utf8_cp c) as [bc|] eqn:Hc; [|discriminate].
      destruct (utf8_encode s) as [bs|] eqn:Hs; [|discriminate].
      constructor; [|apply IH; eauto].
      unfold utf8_cp, is_surrogate in *.
      destruct (Z.of_N c <? 128) eqn:H1.
      { apply Z.ltb_lt in H1. apply andb_false_iff. left.
        apply N.leb_gt. lia. }
      destruct (Z.of_N c <? 2048) eqn:H2.
      { apply Z.ltb_lt in H2. apply andb_false_iff. left.
        apply N.leb_gt. lia. }
      destruct ((55296 <=? Z.of_N c) && (Z.of_N c <=? 57343)) eqn:H3;
        [discriminate|].
      apply andb_false_iff. apply andb_false_iff in H3.
      destruct H3 as [H3|H3]; [left|right];
        apply Z.leb_gt in H3; apply N.leb_gt; lia.
Qed.

Lemma compute_name_hash_ok (dest_name : pystr) :
  Forall (fun c => is_surrogate c = false) dest_name ->
  exists h, compute_name_hash dest_name = Ok h /\ length h = 10%nat /\
            Forall is_byte h.
Proof.
  unfold compute_name_hash.
  intros Hs. apply utf8_encode_ok in Hs. destruct Hs as [b Hb].
  rewrite Hb. simpl. eexists. split; [reflexivity|].
  change (Z.to_nat (NAME_HASH_LENGTH / 8)) with 10%nat.
  split; [rewrite length_take, digest_length; reflexivity|].
  apply Forall_take, digest_range.
Qed.

(** X2. [compute_name_hash] returns a hash exactly for the names without
    a surrogate code point, and raises [UnicodeEncodeError] for the others;
    a hash it returns has 10 octets. *)
Theorem compute_name_hash_total (dest_name : pystr) :
  (Forall (fun c => is_surrogate c = false) dest_name ->
   exists h, compute_name_hash dest_name = Ok h /\ length h = 10%nat /\
             Forall is_byte h) /\
  (Exists (fun c => is_surrogate c = true) dest_name ->
   compute_name_hash dest_name = Raise (ValueError UnicodeEncodeError)).
Proof.
  split; [apply compute_name_hash_ok|].
  unfold compute_name_hash.
  - intros Hs. destruct (utf8_encode dest_name) as [b|e] eqn:Hb.
    + exfalso. assert (Hok : exists b, utf8_encode dest_name = Ok b) by eauto.
      apply utf8_encode_ok in Hok.
      apply Exists_exists in Hs. destruct Hs as [c [Hin Hc]].
      rewrite Forall_forall in Hok. rewrite (Hok c Hin) in Hc. discriminate.
    + simpl. f_equal. clear Hs. revert e Hb.
      induction dest_name as [|c s IH]; simpl; [discriminate|].
      intros e. destruct (utf8_cp c); [|intros [= <-]; reflexivity].
      destruct (utf8_encode s); simpl; [discriminate|].
      intros [= <-]. apply IH. reflexivity.
Qed.

(** ** More on patterns *)

Section MorePatternProperties.
Context `{Unicode} `{RegexEngine}.

Lemma forallb_hexdigits (s : pystr) :
  forallb (fun c => char_in c hexdigits) s = true <-> Forall is_hexdigit s.
Proof.
  rewrite forallb_forall, Forall_forall. unfold is_hexdigit.
  split; intros Hs c Hc; apply Hs; apply list_elem_of_In; exact Hc.
Qed.

Lemma lowercase_hexdigits (s : pystr) :
  Forall is_hexdigit s -> lowercase s = s.
Proof.
  induction 1 as [|c s Hc _ IH]; simpl; [reflexivity|].
  destruct (hexdigit_facts c Hc) as [_ ->]. rewrite IH. reflexivity.
Qed.

(** X3. A pattern [validate_hex_pattern] returns is the lower-cased,
    stripped input; it is not empty, consists of lower-case hexadecimal
    digits and has at most 32 of them; and validating it again returns it
    unchanged. *)
Theorem validate_hex_pattern_normal (s cleaned : pystr) :
  validate_hex_pattern s = Ok cleaned ->
  cleaned = strip (lower s) /\
  cleaned <> [] /\ Forall is_hexdigit cleaned /\
  (length cleaned <= 32)%nat /\
  validate_hex_pattern cleaned = Ok cleaned.
Proof.
  unfold validate_hex_pattern at 1.
  destruct (bool_decide (strip (lower s) = [])) eqn:He; [discriminate|].
  apply bool_decide_eq_false in He.
  destruct (forallb _ (strip (lower s))) eqn:Hf; simpl; [|discriminate].
  apply forallb_hexdigits in Hf.
  destruct (32 <? Z.of_nat (length (strip (lower s)))) eqn:Hl; [discriminate|].
  apply Z.ltb_ge in Hl. intros [= <-].
  assert (Hci : Forall (fun c => is_hex_ci c = true) (strip (lower s))).
  { eapply Forall_impl; [exact Hf|]. intros c Hc. apply hexdigit_facts, Hc. }
  repeat split; auto; try lia.
  pose proof (validate_padded [] (strip (lower s)) []
                (Forall_nil_2 _) (Forall_nil_2 _) Hci He ltac:(lia)) as Hv.
  simpl in Hv. rewrite app_nil_r in Hv.
  rewrite Hv by (apply lower_hex, Hci).
  rewrite lowercase_hexdigits by exact Hf. reflexivity.
Qed.

Lemma elem_of_hexdigits (x : pystr) (c : N) :
  Forall is_hexdigit x -> c ∈ x -> is_hexdigit c.
Proof. intros Hx Hc. rewrite Forall_forall in Hx. apply Hx, Hc. Qed.

(** X4. In prefix, suffix and contains mode a pattern can match an
    address [generate_and_hash] produces only if it consists of lower-case
    hexadecimal digits and has at most 32 of them: a pattern with an
    upper-case letter or any other character, or a longer one, never
    matches. *)
Theorem matches_only_hex_patterns
    (m : MatchMode) (pat : pystr) (cs : bool) (c : CompiledPattern)
    (name_hash_ : pybytes) (k : KeyMaterial) :
  m <> REGEX ->
  compile {| mode := m; pattern := pat; case_sensitive := cs |} = Ok c ->
  matches c (snd (generate_and_hash name_hash_ k)) = Ok true ->
  Forall is_hexdigit pat /\ (length pat <= 32)%nat.
Proof.
  intros Hm Hc Hx.
  destruct (generate_and_hash_address name_hash_ k) as (Hlen & Hhex).
  set (x := snd (generate_and_hash name_hash_ k)) in *.
  assert (Hsub : exists a b, x = a ++ pat ++ b).
  { unfold compile in Hc. simpl in Hc.
    destruct m; try contradiction; injection Hc as <-;
      unfold matches in Hx; simpl in Hx; injection Hx as Hx.
    - apply startswith_spec in Hx. destruct Hx as [t ->]. exists [], t.
      reflexivity.
    - apply endswith_spec in Hx. destruct Hx as [t ->]. exists t, [].
      rewrite app_nil_r. reflexivity.
    - apply str_contains_spec in Hx. exact Hx. }
  destruct Hsub as (a & b & Hab). rewrite Hab in Hlen, Hhex. split.
  - apply Forall_app in Hhex. destruct Hhex as [_ Hhex].
    apply Forall_app in Hhex. apply Hhex.
  - rewrite !length_app in Hlen. lia.
Qed.

(** X5. An address that matches a pattern in prefix mode or in suffix mode
    matches it in contains mode. *)
Theorem prefix_suffix_imply_contains
    (pat x : pystr) (cs : bool) (m : MatchMode) (c c' : CompiledPattern) :
  m = PREFIX \/ m = SUFFIX ->
  compile {| mode := m; pattern := pat; case_sensitive := cs |} = Ok c ->
  compile {| mode := CONTAINS; pattern := pat; case_sensitive := cs |}
    = Ok c' ->
  matches c x = Ok true -> matches c' x = Ok true.
Proof.
  intros Hm Hc Hc' Hx. injection Hc' as <-.
  unfold matches. simpl. f_equal. apply str_contains_spec.
  destruct Hm as [-> | ->]; injection Hc as <-;
    unfold matches in Hx; simpl in Hx; injection Hx as Hx.
  - apply startswith_spec in Hx. destruct Hx as [t ->]. exists [], t.
    reflexivity.
  - apply endswith_spec in Hx. destruct Hx as [t ->]. exists t, [].
    rewrite app_nil_r. reflexivity.
Qed.

End MorePatternProperties.

(** ** More on the difficulty estimate *)

Lemma description_by_length (p : MatchPattern) :
  match estimate_difficulty p with
  | Ok d => Some (difficulty_description d)
  | Raise _ => None
  end = description_for (mode p) (length (pattern p)).
Proof.
  unfold description_for, estimate_difficulty. simpl.
  rewrite repeat_length. reflexivity.
Qed.

Lemma tier_table :
  forallb (fun n =>
             let z := Z.of_nat n in
             bool_decide (description_for PREFIX n = Some (tier_prefix z)) &&
             bool_decide (description_for SUFFIX n = Some (tier_prefix z)) &&
             (bool_decide (description_for CONTAINS n
                           = Some (tier_contains z))
              || (255 <? z)))
          (seq 0 260) = true.
Proof. vm_cast_no_check (eq_refl true). Qed.

(** X6. The tier the estimate names depends on the length [n] of the
    pattern alone.  For a prefix or suffix pattern (of at most 259
    characters): Instant up to 1, Seconds up to 4, Minutes for 5, Hours up
    to 7, Days up to 9, Weeks+ beyond.  For a contains pattern (of at most
    255): Instant up to 2, Seconds up to 5, Minutes for 6, Hours up to 8,
    Days up to 10, Weeks+ beyond. *)
Theorem difficulty_tiers (p : MatchPattern) :
  let n := Z.of_nat (length (pattern p)) in
  (mode p = PREFIX \/ mode p = SUFFIX -> n <= 259 ->
   exists d, estimate_difficulty p = Ok d /\
             difficulty_description d = tier_prefix n) /\
  (mode p = CONTAINS -> n <= 255 ->
   exists d, estimate_difficulty p = Ok d /\
             difficulty_description d = tier_contains n).
Proof.
  intros n.
  pose proof tier_table as Ht. rewrite forallb_forall in Ht.
  pose proof (description_by_length p) as Hd.
  split.
  - intros Hm Hn.
    specialize (Ht (length (pattern p)) (in_seq_of_Z _ 259 Hn)).
    cbv zeta in Ht. fold n in Ht.
    apply andb_true_iff in Ht. destruct Ht as [Ht _].
    apply andb_true_iff in Ht. destruct Ht as [Hp Hs].
    apply bool_decide_eq_true in Hp, Hs.
    assert (Hx : description_for (mode p) (length (pattern p))
                 = Some (tier_prefix n))
      by (destruct Hm as [-> | ->]; assumption).
    rewrite Hx in Hd.
    destruct (estimate_difficulty p) as [d|]; [|discriminate].
    injection Hd as Hd. eauto.
  - intros Hm Hn.
    assert (Hn' : n <= 259) by lia.
    specialize (Ht (length (pattern p)) (in_seq_of_Z _ 259 Hn')).
    cbv zeta in Ht. fold n in Ht.
    apply andb_true_iff in Ht. destruct Ht as [_ Ht].
    apply orb_true_iff in Ht. destruct Ht as [Ht|Ht];
      [|apply Z.ltb_lt in Ht; lia].
    apply bool_decide_eq_true in Ht. rewrite Hm, Ht in Hd.
    destruct (estimate_difficulty p) as [d|]; [|discriminate].
    injection Hd as Hd. eauto.
Qed.

(** The quotient does not fit a float when its exponent is too large. *)
Lemma round_ratio_inf (a b : Z) :
  0 < a -> 971 < Z.log2 a - Z.log2 b - 53 -> round_ratio a b = Inf.
Proof.
  intros Ha He. unfold round_ratio.
  rewrite (proj2 (Z.eqb_neq a 0)) by lia.
  cbv zeta.
  set (e0 := Z.log2 a - Z.log2 b - 53) in *.
  match goal with
  | |- context [Z.max ?x (-1074)] => set (e1 := x)
  end.
  assert (H1 : e0 <= e1) by (subst e1; destruct (_ <=? _); lia).
  set (e := Z.max e1 (-1074)).
  assert (H2 : (971 <? e) = true) by (apply Z.ltb_lt; lia).
  destruct (if (0 <=? e) then (a, b * 2 ^ e) else (a * 2 ^ (- e), b))
    as [num den].
  rewrite H2. reflexivity.
Qed.

Lemma log2_pow16 (n : Z) : 0 <= n -> Z.log2 (16 ^ n) = 4 * n.
Proof.
  intros Hn. change 16 with (2 ^ 4).
  rewrite <- Z.pow_mul_r by lia. apply Z.log2_pow2. lia.
Qed.

Lemma int_truediv_raises (a b : Z) (e : exn) :
  b <> 0 -> int_truediv a b = Raise e -> e = OverflowError.
Proof.
  intros Hb. unfold int_truediv.
  rewrite (proj2 (Z.eqb_neq b 0)) by exact Hb.
  destruct (round_ratio _ _); [discriminate|]. intros [= <-]. reflexivity.
Qed.

Lemma float_truediv_int_ok (x : float64) (b : Z) :
  b <> 0 -> exists y, float_truediv_int x b = Ok y.
Proof.
  intros Hb. unfold float_truediv_int.
  rewrite (proj2 (Z.eqb_neq b 0)) by exact Hb.
  destruct x as [m e|]; [|eauto].
  destruct (if (0 <=? e) then _ else _) as [num den].
  destruct (round_ratio num den); eauto.
Qed.

(** The only exception [estimate_difficulty] raises is [OverflowError]. *)
Lemma estimate_difficulty_raises (p : MatchPattern) (e : exn) :
  estimate_difficulty p = Raise e -> e = OverflowError.
Proof.
  unfold estimate_difficulty.
  generalize (16 ^ Z.of_nat (length (pattern p))). intros X.
  destruct (mode p); cbv beta iota zeta delta [mbind result_bind];
    try discriminate.
  - destruct (num_gtb (PyInt X) 0); [|discriminate].
    unfold num_truediv.
    destruct (int_truediv X 5000) eqn:Hd; [discriminate|].
    intros [= <-]. eapply int_truediv_raises, Hd. discriminate.
  - destruct (num_gtb (PyInt X) 0); [|discriminate].
    unfold num_truediv.
    destruct (int_truediv X 5000) eqn:Hd; [discriminate|].
    intros [= <-]. eapply int_truediv_raises, Hd. discriminate.
  - destruct (int_truediv X _) as [x|e'] eqn:Hd.
    + destruct (num_gtb (PyFloat x) 0).
      * unfold num_truediv.
        destruct (float_truediv_int_ok x 5000 ltac:(discriminate)) as [y ->].
        destruct x; [discriminate|]. intros [= <-]. reflexivity.
      * destruct x; [discriminate|]. intros [= <-]. reflexivity.
    + intros [= <-]. eapply int_truediv_raises, Hd. lia.
Qed.

Lemma expected_for_256 : expected_for CONTAINS 256 = None.
Proof. vm_compute. reflexivity. Qed.

(** X7. [estimate_difficulty] returns an estimate for a prefix or suffix
    pattern of up to 259 characters and for a contains pattern of up to
    255, and for every regex pattern; for every longer prefix, suffix or
    contains pattern it raises [OverflowError]. *)
Theorem estimate_difficulty_overflow (p : MatchPattern) :
  let n := Z.of_nat (length (pattern p)) in
  (mode p = PREFIX \/ mode p = SUFFIX ->
   (n <= 259 -> exists d, estimate_difficulty p = Ok d) /\
   (260 <= n -> estimate_difficulty p = Raise OverflowError)) /\
  (mode p = CONTAINS ->
   (n <= 255 -> exists d, estimate_difficulty p = Ok d) /\
   (256 <= n -> estimate_difficulty p = Raise OverflowError)) /\
  (mode p = REGEX -> exists d, estimate_difficulty p = Ok d).
Proof.
  intros n.
  pose proof (estimate_by_length p) as He.
  assert (Hpos : 0 < 16 ^ n) by (apply Z.pow_pos_nonneg; lia).
  split; [|split].
  - intros Hm. split.
    + intros Hn.
      pose proof prefix_table as Ht. rewrite forallb_forall in Ht.
      specialize (Ht (length (pattern p)) (in_seq_of_Z _ 259 Hn)).
      destruct (estimate_difficulty p) as [d|]; [eauto|]. exfalso.
      destruct Hm as [Hm|Hm]; rewrite Hm in He; rewrite <- He in Ht.
      * discriminate.
      * destruct (expected_for PREFIX _) as [[v|]|]; discriminate.
    + intros Hn. unfold estimate_difficulty. fold n.
      assert (Hdiv : int_truediv (16 ^ n) 5000 = Raise OverflowError).
      { unfold int_truediv. simpl (5000 =? 0).
        rewrite Z.abs_eq by lia. simpl (Z.abs 5000).
        rewrite round_ratio_inf; [reflexivity | exact Hpos |].
        rewrite log2_pow16 by lia. change (Z.log2 (Z.abs 5000)) with 12. lia. }
      assert (Hgt : num_gtb (PyInt (16 ^ n)) 0 = true)
        by (apply Z.ltb_lt, Hpos).
      destruct Hm as [-> | ->];
        cbv beta iota zeta delta [mbind result_bind];
        rewrite Hgt; unfold num_truediv; rewrite Hdiv; reflexivity.
  - intros Hm. split.
    + intros Hn.
      pose proof contains_table as Ht. rewrite forallb_forall in Ht.
      specialize (Ht (length (pattern p)) (in_seq_of_Z _ 255 Hn)).
      cbv zeta in Ht. rewrite Hm in He. rewrite <- He in Ht.
      destruct (estimate_difficulty p) as [d|]; [eauto | discriminate].
    + intros Hn.
      destruct (Z.eq_dec n 256) as [H256|H256].
      * assert (Hl : length (pattern p) = 256%nat) by lia.
        rewrite Hm, Hl, expected_for_256 in He.
        destruct (estimate_difficulty p) as [d|e] eqn:Hd; [discriminate|].
        f_equal. eapply estimate_difficulty_raises, Hd.
      * unfold estimate_difficulty. rewrite Hm. fold n.
        replace (Z.max 1 (32 - n + 1)) with 1 by lia.
        assert (Hdiv : int_truediv (16 ^ n) 1 = Raise OverflowError).
        { unfold int_truediv. simpl (1 =? 0).
          rewrite Z.abs_eq by lia. simpl (Z.abs 1).
          rewrite round_ratio_inf; [reflexivity | exact Hpos |].
          rewrite log2_pow16 by lia. change (Z.log2 (Z.abs 1)) with 0. lia. }
        cbv beta iota zeta delta [mbind result_bind].
        rewrite Hdiv. reflexivity.
  - intros Hm. unfold estimate_difficulty. rewrite Hm. eauto.
Qed.

(** ** Invariants kept by every operation *)

Section ProcInvariantProperties.
Context `{RegexEngine} `{Clock}.
Variable I : Proc -> Prop.
Variable Q : Item -> Prop.
Hypothesis Hclosed : step_closed I Q.

Lemma step_proc_inv (i : nat) (k : KeyMaterial) (w : World) :
  procs_inv I Q w -> procs_inv I Q (step_proc i k w).
Proof.
  intros [Hps Hqs]. destruct Hclosed as (Hstep & _ & Hput).
  unfold step_proc. destruct (procs w !! i) as [p|] eqn:Hp; [|split; auto].
  assert (Hip : I p).
  { rewrite Forall_forall in Hps. eapply Hps, list_elem_of_lookup_2, Hp. }
  pose proof (Hstep k p w Hip) as Hip'.
  pose proof (worker_step_effect k p w) as He.
  destruct (worker_step k p w) as [p' w']. simpl in *.
  assert (Hprocs : procs w' = procs w).
  { destruct He as [->|[(x & _ & _ & ->)|[[_ ->]|[_ ->]]]]; reflexivity. }
  split; simpl.
  - rewrite Hprocs. apply Forall_insert; assumption.
  - destruct He as [->|[(x & Hpc & Hx & ->)|[[_ ->]|[_ ->]]]]; simpl; auto.
    apply Forall_forall. intros qu Hqu.
    apply list_elem_of_lookup in Hqu. destruct Hqu as [j Hj].
    rewrite Forall_forall in Hqs.
    destruct (decide (p_queue p = j)) as [<-|Hne].
    + rewrite list_lookup_alter_eq in Hj.
      destruct (queues w !! p_queue p) as [qu0|] eqn:Hq0; [|discriminate].
      injection Hj as <-. simpl. apply Forall_app. split.
      * eapply Hqs, list_elem_of_lookup_2, Hq0.
      * apply Forall_singleton. exact (Hput p x Hip Hpc Hx).
    + rewrite list_lookup_alter_ne in Hj by assumption.
      eapply Hqs, list_elem_of_lookup_2, Hj.
Qed.

Lemma run_inv (s : Schedule) (w : World) :
  procs_inv I Q w -> procs_inv I Q (run s w).
Proof.
  revert w. induction s as [|[i k] s IH]; intros w Hw; simpl; [exact Hw|].
  apply IH, step_proc_inv, Hw.
Qed.

Lemma terminate_inv (i : nat) (w : World) :
  procs_inv I Q w -> procs_inv I Q (terminate i w).
Proof.
  intros [Hps Hqs]. destruct Hclosed as (_ & Hterm & _).
  split; [|exact Hqs]. unfold terminate. simpl.
  apply Forall_forall. intros p Hp.
  apply list_elem_of_lookup in Hp. destruct Hp as [j Hj].
  rewrite Forall_forall in Hps.
  destruct (decide (i = j)) as [->|Hne].
  - rewrite list_lookup_alter_eq in Hj.
    destruct (procs w !! j) as [p0|] eqn:Hp0; [|discriminate].
    injection Hj as <-.
    assert (Hip : I p0) by (eapply Hps, list_elem_of_lookup_2, Hp0).
    destruct (is_alive p0); [apply Hterm|]; exact Hip.
  - rewrite list_lookup_alter_ne in Hj by assumption.
    eapply Hps, list_elem_of_lookup_2, Hj.
Qed.

Lemma join_all_inv (joins : list Schedule) (ws : list nat) (w : World) :
  procs_inv I Q w -> procs_inv I Q (join_all joins ws w).
Proof.
  revert joins w. induction ws as [|i ws IH]; intros joins w Hw; simpl.
  - exact Hw.
  - apply IH, terminate_inv, run_inv, Hw.
Qed.

(** An operation that leaves the processes and the items of the queues
    alone. *)
Lemma procs_inv_shared (w w' : World) :
  procs_inv I Q w -> procs w' = procs w ->
  (forall q qu', queues w' !! q = Some qu' ->
     exists qu, queues w !! q = Some qu /\ q_items qu' = q_items qu) ->
  procs_inv I Q w'.
Proof.
  intros [Hps Hqs] Hp Hq. split; [rewrite Hp; exact Hps|].
  apply Forall_forall. intros qu' Hqu'.
  apply list_elem_of_lookup in Hqu'. destruct Hqu' as [j Hj].
  destruct (Hq j qu' Hj) as (qu & Hqu & ->).
  rewrite Forall_forall in Hqs. eapply Hqs, list_elem_of_lookup_2, Hqu.
Qed.

Lemma alter_take_source (n q : nat) (l : list Queue) (j : nat) (qu' : Queue) :
  alter (queue_take n) q l !! j = Some qu' ->
  exists qu, l !! j = Some qu /\ q_items qu' = q_items qu.
Proof.
  intros Hj. destruct (decide (q = j)) as [->|Hne].
  - rewrite list_lookup_alter_eq in Hj.
    destruct (l !! j) as [qu|]; [|discriminate]. injection Hj as <-. eauto.
  - rewrite list_lookup_alter_ne in Hj by assumption. eauto.
Qed.

Lemma drain_stop_inv (g : VanityGenerator) (q : nat) (w : World) :
  procs_inv I Q w -> procs_inv I Q (snd (drain_stop g q w)).
Proof.
  intros Hw. unfold drain_stop.
  destruct (queues w !! q) as [qu|]; simpl; [|exact Hw].
  apply (procs_inv_shared w); auto. simpl. intros j qj.
  apply alter_take_source.
Qed.

Lemma drain_poll_inv (g : VanityGenerator) (q : nat) (w : World) :
  procs_inv I Q w -> procs_inv I Q (snd (drain_poll g q w)).
Proof.
  intros Hw. unfold drain_poll.
  destruct (queues w !! q) as [qu|]; simpl; [|exact Hw].
  destruct (_counter g) as [c|]; simpl.
  - destruct (on_result g).
    + match goal with
      | |- context [fold_left ?f ?rs ?w0] =>
          destruct (fold_calls_shared rs w0) as (Ha & Hb & Hc & Hd & He)
      end.
      apply (procs_inv_shared w); auto.
      rewrite Hd. simpl. intros j qj. apply alter_take_source.
    + apply (procs_inv_shared w); auto. simpl. intros j qj.
      apply alter_take_source.
  - destruct (queue_pending qu); simpl; [exact Hw|].
    apply (procs_inv_shared w); auto. simpl. intros j qj.
    apply alter_take_source.
Qed.

Lemma spawn_inv (n q ev c : nat) (g : VanityGenerator) (w : World) :
  I (new_proc g q ev c) ->
  procs_inv I Q w -> procs_inv I Q (snd (spawn n q ev c g w)).
Proof.
  intros Hnew. revert g w Hnew.
  induction n as [|n IH]; intros g w Hnew Hw; simpl; [exact Hw|].
  apply IH; [exact Hnew|]. destruct Hw as [Hps Hqs]. split; [|exact Hqs].
  simpl. apply Forall_app. split; [exact Hps | apply Forall_singleton, Hnew].
Qed.

Lemma start_inv (g : VanityGenerator) (w : World) :
  (forall q ev c, I (new_proc g q ev c)) ->
  procs_inv I Q w -> procs_inv I Q (snd (start g w)).
Proof.
  intros Hnew Hw. unfold start.
  destruct (_is_running g); simpl; [exact Hw|].
  match goal with
  | |- context [spawn ?n ?q ?ev ?c ?g1 ?w2] =>
      pose proof (spawn_inv n q ev c g1 w2 (Hnew q ev c)) as Hs;
      destruct (spawn n q ev c g1 w2) as [g2 w3]
  end.
  simpl in *. apply Hs. destruct Hw as [Hps Hqs]. split; simpl; [exact Hps|].
  apply Forall_app. split; [exact Hqs|].
  apply Forall_singleton. constructor.
Qed.

Lemma poll_inv (g : VanityGenerator) (w : World) :
  procs_inv I Q w -> procs_inv I Q (snd (poll g w)).
Proof.
  intros Hw. unfold poll.
  destruct (negb (_is_running g)); simpl; [exact Hw|].
  destruct (_result_queue g) as [q|]; simpl; [|exact Hw].
  pose proof (drain_poll_inv g q w Hw) as Hd.
  destruct (drain_poll g q w) as [rs w1]. simpl in Hd.
  assert (Ht : procs_inv I Q (with_ticks (S (ticks w1)) w1))
    by (apply (procs_inv_shared w1); simpl; eauto).
  destruct (_counter g) as [c|]; simpl; [|exact Ht].
  set (w2 := with_ticks (S (ticks w1)) w1) in *.
  set (w3 := if on_progress g then _ else w2).
  assert (Hp : procs_inv I Q w3).
  { subst w3. destruct (on_progress g); [|exact Ht].
    apply (procs_inv_shared w2); simpl; eauto. }
  destruct (_stop_event g) as [ev|]; simpl; [|exact Hp].
  destruct (_ && _); simpl; [|exact Hp].
  destruct (on_complete g); [|exact Hp].
  apply (procs_inv_shared w3); simpl; eauto.
Qed.

Lemma stop_inv (joins : list Schedule) (g : VanityGenerator) (w : World) :
  procs_inv I Q w -> procs_inv I Q (snd (stop joins g w)).
Proof.
  intros Hw. unfold stop.
  set (w1 := match _stop_event g with
             | Some ev => event_set ev w
             | None => w
             end).
  assert (Hw1 : procs_inv I Q w1).
  { subst w1. destruct (_stop_event g); [|exact Hw].
    apply (procs_inv_shared w); simpl; eauto. }
  pose proof (join_all_inv joins (_workers g) w1 Hw1) as Hw2.
  set (w2 := join_all joins (_workers g) w1) in *.
  destruct (_result_queue g) as [q|]; simpl; [|exact Hw2].
  pose proof (drain_stop_inv g q w2 Hw2) as Hw3.
  destruct (drain_stop g q w2) as [rs w3]. exact Hw3.
Qed.

End ProcInvariantProperties.

(** ** The loop of a worker *)

Section LoopProperties.
Context `{Unicode} `{RegexEngine} `{Clock}.

Lemma loop_inv_closed : step_closed loop_inv (fun _ => True).
Proof.
  split; [|split]; [| |auto].
  - intros k p w [Hb Hc]. unfold loop_inv, worker_step.
    destruct (p_pc p) eqn:Hpc; simpl in Hc.
    + destruct (compile (p_pattern p)); simpl; rewrite ?Hpc; simpl;
        split; auto; lia.
    + destruct (event_is_set _ _); simpl; split; auto; lia.
    + destruct (i <? p_batch_size p) eqn:Hi; simpl.
      * rewrite Hb in Hi. apply Z.ltb_lt in Hi.
        destruct (p_compiled p); simpl;
          [destruct (matches _ _) as [[|]|]|]; simpl; split; auto; lia.
      * rewrite Hb in Hi. apply Z.ltb_ge in Hi. split; [auto|]. simpl. lia.
    + destruct (p_item p); simpl; split; auto; lia.
    + simpl. split; auto.
    + simpl. split; auto.
    + simpl. rewrite Hpc. simpl. split; auto.
    + simpl. split; auto.
    + destruct (0 <? p_local_count p); simpl; split; auto.
    + simpl. rewrite Hpc. simpl. split; auto.
    + simpl. rewrite Hpc. simpl. split; auto.
    + simpl. rewrite Hpc. simpl. split; auto.
  - intros p [Hb Hc]. split; [exact Hb|]. simpl. exact Hc.
Qed.

Ltac searcher_rest :=
  repeat split; auto;
  try (intros ? ?; discriminate); try (intros [|]; discriminate);
  try (intros ? ?;
       match goal with
       | Hcomp : forall c, _ = Some c -> _ |- _ =>
           apply Hcomp; congruence
       end).

Lemma searcher_closed (mp : MatchPattern) (nh : pybytes) :
  step_closed (searcher mp nh) (found mp nh).
Proof.
  split; [|split].
  - intros k p w (Hmp & Hnh & Hcomp & Hitem).
    unfold searcher, worker_step.
    destruct (p_pc p) eqn:Hpc; simpl in Hitem.
    + destruct (compile (p_pattern p)) as [c|e] eqn:Hc; simpl;
        searcher_rest.
      intros c' [= <-]. rewrite <- Hmp. exact Hc.
    + destruct (event_is_set _ _); simpl; searcher_rest.
    + destruct (i <? p_batch_size p); simpl; [|searcher_rest].
      destruct (p_compiled p) as [c|] eqn:Hc; simpl; [|searcher_rest].
      destruct (matches c _) as [[|]|] eqn:Hm; simpl; searcher_rest.
      intros _. eexists. split; [reflexivity|].
      exists k, c. rewrite Hnh. repeat split; auto.
      rewrite <- Hnh. exact Hm.
    + destruct (p_item p) as [x|] eqn:Hx; simpl; searcher_rest.
      intros _. rewrite Hx. apply Hitem. auto.
    + simpl. searcher_rest; intros _; apply Hitem; auto.
    + simpl. searcher_rest; intros _; apply Hitem; auto.
    + simpl. rewrite Hpc. searcher_rest.
    + simpl. searcher_rest.
    + destruct (0 <? p_local_count p); simpl; searcher_rest.
    + simpl. rewrite Hpc. searcher_rest.
    + simpl. rewrite Hpc. searcher_rest.
    + simpl. rewrite Hpc. searcher_rest.
  - intros p (Hmp & Hnh & Hcomp & Hitem). searcher_rest.
  - intros p x (Hmp & Hnh & Hcomp & Hitem) Hpc Hx.
    rewrite Hpc in Hitem. destruct Hitem as (x' & Hx' & Hf); [auto|].
    congruence.
Qed.

(** The pattern, the name hash, the destination type and the worker count
    of an orchestrator never change. *)
Lemma spawn_constants (n q ev c : nat) (g : VanityGenerator) (w : World) :
  let g' := fst (spawn n q ev c g w) in
  match_pattern g' = match_pattern g /\ name_hash g' = name_hash g /\
  dest_type g' = dest_type g /\ num_workers g' = num_workers g.
Proof.
  revert g w. induction n as [|n IH]; intros g w; simpl; [auto|].
  destruct (IH (set_workers (_workers g ++ [length (procs w)]) g)
               (with_procs (fun l => l ++ [new_proc g q ev c]) w))
    as (Ha & Hb & Hc & Hd).
  simpl in *. auto.
Qed.

Lemma sys_step_constants (g g' : VanityGenerator) (w w' : World) :
  sys_step (g, w) (g', w') ->
  match_pattern g' = match_pattern g /\ name_hash g' = name_hash g /\
  dest_type g' = dest_type g /\ num_workers g' = num_workers g.
Proof.
  intros Hs. inversion Hs; subst; clear Hs; auto.
  - unfold start. destruct (_is_running g); simpl; [auto|].
    match goal with
    | |- context [spawn ?n ?q ?ev ?c ?g1 ?w2] =>
        pose proof (spawn_constants n q ev c g1 w2) as Hc;
        destruct (spawn n q ev c g1 w2) as [g2 w3]
    end.
    simpl in *. exact Hc.
  - unfold poll. destruct (negb (_is_running g)); simpl; [auto|].
    destruct (_result_queue g) as [q|]; simpl; [|auto].
    destruct (drain_poll g q w) as [rs w1].
    destruct (_counter g); simpl; [|auto].
    destruct (_stop_event g); simpl; [|auto].
    destruct (_ && _); simpl; auto.
  - unfold stop.
    destruct (match _result_queue g with
              | Some q => drain_stop g q _
              | None => _
              end) as [rs w3].
    simpl. auto.
Qed.

End LoopProperties.

Section SearchProperties.
Context `{Unicode} `{RegexEngine} `{Clock}.

Lemma new_proc_loop_inv (g : VanityGenerator) (q ev c : nat) :
  loop_inv (new_proc g q ev c).
Proof. split; reflexivity. Qed.

Lemma new_proc_searcher (g : VanityGenerator) (q ev c : nat) :
  searcher (match_pattern g) (name_hash g) (new_proc g q ev c).
Proof.
  unfold searcher. simpl. repeat split; auto; try discriminate.
  intros [|]; discriminate.
Qed.

Lemma sys_step_inv (I : Proc -> Prop) (Q : Item -> Prop)
    (g g' : VanityGenerator) (w w' : World) :
  step_closed I Q ->
  (forall q ev c, I (new_proc g q ev c)) ->
  sys_step (g, w) (g', w') -> procs_inv I Q w -> procs_inv I Q w'.
Proof.
  intros Hc Hnew Hs Hw. inversion Hs; subst; clear Hs.
  - apply (step_proc_inv I Q Hc), Hw.
  - exact Hw.
  - apply (start_inv I Q), Hw. exact Hnew.
  - apply (poll_inv I Q), Hw.
  - apply (stop_inv I Q Hc), Hw.
Qed.

Lemma reachable_loop_inv (s : System) :
  reachable s -> procs_inv loop_inv (fun _ => True) (snd s).
Proof.
  induction 1 as [pat m dt n cs cpu g Hg | [g w] [g' w'] _ IH Hs].
  - split; constructor.
  - eapply sys_step_inv; [apply loop_inv_closed | | exact Hs | exact IH].
    intros. apply new_proc_loop_inv.
Qed.

(** X11. In every state the system gets into, every worker has the batch
    size 500 and holds the count its program point implies: nothing at the
    loop test and after the loop, [i] in round [i] of a batch, 500 at the
    flush, between 1 and 500 after a match.  So the flush after the loop
    never adds anything to the counter, and a worker that is killed loses
    at most one batch of counted keys. *)
Theorem worker_loop_count (g : VanityGenerator) (w : World) (i : nat)
    (p : Proc) :
  reachable (g, w) -> procs w !! i = Some p ->
  p_batch_size p = 500 /\
  loop_count 500 (p_pc p) (p_local_count p) /\
  0 <= p_local_count p <= 500 /\
  (p_pc p = PExitFlush -> forall k, snd (worker_step k p w) = w).
Proof.
  intros Hr Hp.
  destruct (reachable_loop_inv _ Hr) as [Hps _]. simpl in Hps.
  rewrite Forall_forall in Hps.
  destruct (Hps p (list_elem_of_lookup_2 _ _ _ Hp)) as [Hb Hc].
  split; [exact Hb|]. split; [exact Hc|]. split.
  - clear -Hc. induction (p_pc p); simpl in Hc; try lia. auto.
  - intros Hpc k. unfold worker_step. rewrite Hpc.
    rewrite Hpc in Hc. simpl in Hc. rewrite Hc. reflexivity.
Qed.

Lemma make_results_ok (g : VanityGenerator) (xs : list Item) (n : nat)
    (total : Z) :
  Forall (found (match_pattern g) (name_hash g)) xs ->
  Forall (result_ok g) (make_results g xs n total).
Proof.
  intros Hxs. revert n. induction Hxs as [|x xs Hx _ IH]; intros n; simpl.
  - constructor.
  - constructor; [|apply IH].
    unfold result_ok, make_result. simpl. destruct x as [[a b] c].
    split; [exact Hx | reflexivity].
Qed.

Lemma pending_found (Q : Item -> Prop) (w : World) (q : nat) (qu : Queue) :
  Forall (fun qu => Forall Q (q_items qu)) (queues w) ->
  queues w !! q = Some qu -> Forall Q (queue_pending qu).
Proof.
  intros Hqs Hq. unfold queue_pending. apply Forall_drop.
  rewrite Forall_forall in Hqs. eapply Hqs, list_elem_of_lookup_2, Hq.
Qed.

Lemma drain_stop_results (g : VanityGenerator) (q : nat) (w : World) :
  Forall (fun qu => Forall (found (match_pattern g) (name_hash g))
                           (q_items qu)) (queues w) ->
  Forall (result_ok g) (fst (drain_stop g q w)).
Proof.
  intros Hqs. unfold drain_stop.
  destruct (queues w !! q) as [qu|] eqn:Hq; simpl; [|constructor].
  apply make_results_ok. eapply pending_found; eassumption.
Qed.

Lemma drain_poll_results (g : VanityGenerator) (q : nat) (w : World) :
  Forall (fun qu => Forall (found (match_pattern g) (name_hash g))
                           (q_items qu)) (queues w) ->
  Forall (result_ok g) (fst (drain_poll g q w)).
Proof.
  intros Hqs. unfold drain_poll.
  destruct (queues w !! q) as [qu|] eqn:Hq; simpl; [|constructor].
  destruct (_counter g); simpl.
  - apply make_results_ok. eapply pending_found; eassumption.
  - destruct (queue_pending qu); constructor.
Qed.

Lemma result_ok_ext (g g' : VanityGenerator) (r : GeneratorResult) :
  match_pattern g' = match_pattern g -> name_hash g' = name_hash g ->
  dest_type g' = dest_type g -> result_ok g r -> result_ok g' r.
Proof. unfold result_ok. intros -> -> ->. auto. Qed.

(** The results an operation leaves in the orchestrator. *)
Lemma sys_step_results (g g' : VanityGenerator) (w w' : World) :
  sys_step (g, w) (g', w') ->
  procs_inv (searcher (match_pattern g) (name_hash g))
            (found (match_pattern g) (name_hash g)) w ->
  Forall (result_ok g) (_results g) -> Forall (result_ok g) (_results g').
Proof.
  intros Hs Hw Hrs. pose proof Hw as [_ Hqs].
  inversion Hs; subst; clear Hs; auto.
  - unfold start. destruct (_is_running g); simpl; [auto|].
    match goal with
    | |- context [spawn ?n ?q ?ev ?c ?g1 ?w2] =>
        pose proof (spawn_fields n q ev c g1 w2) as Hf;
        destruct (spawn n q ev c g1 w2) as [g2 w3]
    end.
    simpl in *. destruct Hf as (_ & _ & _ & _ & ->). constructor.
  - unfold poll. destruct (negb (_is_running g)); simpl; [auto|].
    destruct (_result_queue g) as [q|]; simpl; [|auto].
    pose proof (drain_poll_results g q w Hqs) as Hd.
    destruct (drain_poll g q w) as [rs w1]. simpl in Hd.
    assert (Hall : Forall (result_ok g) (_results g ++ rs))
      by (apply Forall_app; auto).
    destruct (_counter g); simpl; [|auto].
    destruct (_stop_event g); simpl; [|auto].
    destruct (_ && _); simpl; auto.
  - unfold stop.
    set (w1 := match _stop_event g with
               | Some ev => event_set ev w
               | None => w
               end).
    assert (Hw1 : procs_inv (searcher (match_pattern g) (name_hash g))
                    (found (match_pattern g) (name_hash g)) w1).
    { subst w1. destruct (_stop_event g); [|exact Hw].
      apply (procs_inv_shared _ _ w); simpl; eauto. }
    pose proof (join_all_inv _ _ (searcher_closed _ _)
                  joins (_workers g) w1 Hw1) as [_ Hq2].
    set (w2 := join_all joins (_workers g) w1) in *.
    destruct (_result_queue g) as [q|]; simpl.
    + pose proof (drain_stop_results g q w2 Hq2) as Hd.
      destruct (drain_stop g q w2) as [rs w3]. simpl in *.
      apply Forall_app; auto.
    + rewrite app_nil_r. exact Hrs.
Qed.

Lemma reachable_search (s : System) :
  reachable s ->
  procs_inv (searcher (match_pattern (fst s)) (name_hash (fst s)))
            (found (match_pattern (fst s)) (name_hash (fst s))) (snd s) /\
  Forall (result_ok (fst s)) (_results (fst s)).
Proof.
  induction 1 as [pat m dt n cs cpu g Hg | [g w] [g' w'] _ [IHw IHr] Hs].
  - simpl. split; [split; constructor|].
    unfold init in Hg.
    destruct (match m with
              | REGEX => Ok pat
              | _ => validate_hex_pattern pat
              end); simpl in Hg; [|discriminate].
    destruct (resolve_name_hash dt); simpl in Hg; [|discriminate].
    injection Hg as <-. constructor.
  - simpl in *.
    destruct (sys_step_constants g g' w w' Hs) as (Hmp & Hnh & Hdt & _).
    rewrite Hmp, Hnh. split.
    + eapply sys_step_inv; [apply searcher_closed | | exact Hs | exact IHw].
      intros. apply new_proc_searcher.
    + pose proof (sys_step_results g g' w w' Hs IHw IHr) as Hr.
      eapply Forall_impl; [exact Hr|].
      intros r. apply result_ok_ext; assumption.
Qed.


End SearchProperties.

(** ** Construction, start and stop *)

Section LifecycleProperties.
Context `{Unicode} `{RegexEngine} `{Clock}.

Lemma split_nonempty (sep : N) (s : pystr) : split sep s <> [].
Proof.
  destruct s as [|c s]; simpl; [discriminate|].
  destruct (c =? sep)%N; [discriminate|].
  destruct (split sep s); discriminate.
Qed.

Lemma split_with_sep (sep : N) (s : pystr) :
  char_in sep s = true -> (2 <= length (split sep s))%nat.
Proof.
  induction s as [|c s IH]; simpl; [discriminate|].
  intros Hc. destruct (c =? sep)%N eqn:Heq.
  - pose proof (split_nonempty sep s) as Hne.
    destruct (split sep s); [contradiction | simpl; lia].
  - rewrite N.eqb_sym, Heq in Hc. simpl in Hc. specialize (IH Hc).
    destruct (split sep s); simpl in *; lia.
Qed.

(** X8. [VanityGenerator(...)] returns an orchestrator exactly when the
    pattern is a regex pattern or one [validate_hex_pattern] accepts, and
    the destination type is one of the two known ones or has a ['.'] and no
    surrogate code point.  The orchestrator is then idle, holds the
    validated pattern and the resolved name hash, and has at least one
    worker to start: the number asked for if it is positive. *)
Theorem init_succeeds_iff
    (pat : pystr) (m : MatchMode) (dt : pystr) (n : Z) (cs : bool)
    (cpu : option Z) :
  ((exists g, init pat m dt n cs cpu = Ok g) <->
   (m = REGEX \/ exists c, validate_hex_pattern pat = Ok c) /\
   (is_Some (DEST_NAME_HASHES !! dt) \/
    (char_in 46%N dt = true /\
     Forall (fun c => is_surrogate c = false) dt))) /\
  (forall g, init pat m dt n cs cpu = Ok g ->
     (m = REGEX -> pattern_str g = pat) /\
     (m <> REGEX -> validate_hex_pattern pat = Ok (pattern_str g)) /\
     match_pattern g = {| mode := m; pattern := pattern_str g;
                          case_sensitive := cs |} /\
     resolve_name_hash dt = Ok (name_hash g) /\
     dest_type g = dt /\
     1 <= num_workers g /\ (0 < n -> num_workers g = n) /\
     _is_running g = false /\ _workers g = [] /\ _results g = []).
Proof.
  assert (Hres : (exists h, resolve_name_hash dt = Ok h) <->
                 (is_Some (DEST_NAME_HASHES !! dt) \/
                  (char_in 46%N dt = true /\
                   Forall (fun c => is_surrogate c = false) dt))).
  { unfold resolve_name_hash.
    destruct (DEST_NAME_HASHES !! dt) as [h|] eqn:Hd.
    - split; [intros _; left; eauto | eauto].
    - destruct (char_in 46%N dt) eqn:Hdot.
      + pose proof (split_with_sep 46%N dt Hdot) as Hl.
        destruct (Z.of_nat (length (split 46%N dt)) <? 2) eqn:Hlt;
          [apply Z.ltb_lt in Hlt; lia|].
        split.
        * intros [h Hh]. right. split; [reflexivity|].
          unfold compute_name_hash in Hh. apply utf8_encode_ok.
          destruct (utf8_encode dt); [eauto | discriminate].
        * intros [[h Hh]|[_ Hs]]; [discriminate|].
          destruct (compute_name_hash_ok dt Hs) as (h & -> & _).
          eauto.
      + rewrite split_no_sep by exact Hdot. simpl.
        split; [intros [h Hh]; discriminate|].
        intros [[h Hh]|[Hx _]]; discriminate. }
  split.
  - unfold init. split.
    + intros [g Hg].
      destruct m; simpl in Hg;
        try (destruct (validate_hex_pattern pat) as [c|] eqn:Hv;
             simpl in Hg; [|discriminate]);
        (destruct (resolve_name_hash dt) as [h|] eqn:Hr;
         simpl in Hg; [|discriminate]);
        (split; [eauto | apply Hres; eauto]).
    + intros [Hp Hd]. apply Hres in Hd. destruct Hd as [h Hh].
      destruct Hp as [-> | [c Hc]].
      * simpl. rewrite Hh. simpl. eauto.
      * destruct m; simpl; rewrite ?Hc, Hh; simpl; eauto.
  - intros g Hg. unfold init in Hg.
    assert (Hnum : 1 <= (if 0 <? n then n
                         else Z.max 1 (match cpu with
                                       | Some k => if k =? 0 then 2 else k
                                       | None => 2
                                       end - 1)) /\
                   (0 < n -> (if 0 <? n then n
                              else Z.max 1 (match cpu with
                                            | Some k => if k =? 0 then 2 else k
                                            | None => 2
                                            end - 1)) = n)).
    { destruct (0 <? n) eqn:Hn; [apply Z.ltb_lt in Hn | apply Z.ltb_ge in Hn];
        split; lia. }
    destruct m; simpl in Hg;
      try (destruct (validate_hex_pattern pat) as [c|] eqn:Hv;
           simpl in Hg; [|discriminate]);
      (destruct (resolve_name_hash dt) as [h|] eqn:Hr;
       simpl in Hg; [|discriminate]);
      injection Hg as <-; simpl;
      repeat split; try tauto; try congruence; try apply Hnum.
Qed.

Lemma spawn_shape (n q ev c : nat) (g : VanityGenerator) (w : World) :
  let r := spawn n q ev c g w in
  procs (snd r) = procs w ++ replicate n (new_proc g q ev c) /\
  _workers (fst r) = _workers g ++ seq (length (procs w)) n /\
  queues (snd r) = queues w /\ events (snd r) = events w /\
  counters (snd r) = counters w /\ ticks (snd r) = ticks w /\
  calls (snd r) = calls w.
Proof.
  revert g w. induction n as [|n IH]; intros g w; simpl.
  - rewrite !app_nil_r. auto 10.
  - destruct (IH (set_workers (_workers g ++ [length (procs w)]) g)
                 (with_procs (fun l => l ++ [new_proc g q ev c]) w))
      as (Hp & Hw & Hq & He & Hc & Ht & Hl).
    simpl in *. rewrite Hp, Hw. rewrite <- !app_assoc. simpl.
    rewrite length_app. simpl.
    replace (length (procs w) + 1)%nat with (S (length (procs w))) by lia.
    auto 10.
Qed.

(** X9. [start] on an idle orchestrator creates one queue, one event that
    is not set and one counter at 0, resets the results, and appends
    [num_workers] processes to the world and to its list of workers; each
    of them has the orchestrator's name hash and pattern, the new queue,
    event and counter, the batch size 500, and is at its first program
    point. *)
Theorem start_spawns_workers (g : VanityGenerator) (w : World) :
  _is_running g = false ->
  let g' := snd (fst (start g w)) in
  let w' := snd (start g w) in
  let q := length (queues w) in
  let ev := length (events w) in
  let c := length (counters w) in
  let n := Z.to_nat (num_workers g) in
  queues w' = queues w ++ [queue_new] /\
  events w' = events w ++ [false] /\
  counters w' = counters w ++ [0] /\
  procs w' = procs w ++ replicate n (new_proc g q ev c) /\
  _workers g' = _workers g ++ seq (length (procs w)) n /\
  _result_queue g' = Some q /\ _stop_event g' = Some ev /\
  _counter g' = Some c /\ _results g' = [] /\ _is_running g' = true.
Proof.
  intros Hr. unfold start. rewrite Hr.
  match goal with
  | |- context [spawn ?n ?q ?ev ?c ?g1 ?w2] =>
      pose proof (spawn_shape n q ev c g1 w2) as Hs;
      pose proof (spawn_fields n q ev c g1 w2) as Hf;
      destruct (spawn n q ev c g1 w2) as [g2 w3]
  end.
  simpl in *.
  destruct Hs as (Hp & Hw & Hq & He & Hc & _ & _).
  destruct Hf as (Hf1 & Hf2 & Hf3 & Hf4 & Hf5).
  rewrite Hp, Hw, Hq, He, Hc, Hf1, Hf2, Hf3, Hf4, Hf5. auto 15.
Qed.

(** *** A dead process stays dead *)

Lemma worker_step_dead (k : KeyMaterial) (p : Proc) (w : World) :
  is_alive p = false -> worker_step k p w = (p, w).
Proof.
  unfold is_alive, worker_step.
  destruct (p_pc p); try discriminate; reflexivity.
Qed.

Lemma step_proc_dead (i j : nat) (k : KeyMaterial) (w : World) :
  dead_at i w -> dead_at i (step_proc j k w).
Proof.
  intros Hd p. unfold step_proc.
  destruct (procs w !! j) as [pj|] eqn:Hj; [|apply Hd].
  destruct (decide (j = i)) as [->|Hne].
  - rewrite (worker_step_dead k pj w (Hd pj Hj)). simpl.
    rewrite list_lookup_insert_eq by (eapply lookup_lt_Some, Hj).
    intros [= <-]. apply (Hd pj Hj).
  - pose proof (worker_step_effect k pj w) as He.
    destruct (worker_step k pj w) as [p' w']. simpl in *.
    assert (Hprocs : procs w' = procs w).
    { destruct He as [->|[(x & _ & _ & ->)|[[_ ->]|[_ ->]]]]; reflexivity. }
    rewrite Hprocs, list_lookup_insert_ne by assumption. apply Hd.
Qed.

Lemma run_dead (i : nat) (s : Schedule) (w : World) :
  dead_at i w -> dead_at i (run s w).
Proof.
  revert w. induction s as [|[j k] s IH]; intros w Hw; simpl; [exact Hw|].
  apply IH, step_proc_dead, Hw.
Qed.

Lemma terminate_dead (i j : nat) (w : World) :
  dead_at i w -> dead_at i (terminate j w).
Proof.
  intros Hd p. unfold terminate. simpl.
  destruct (decide (j = i)) as [->|Hne].
  - rewrite list_lookup_alter_eq.
    destruct (procs w !! i) as [p0|] eqn:Hp0; [|discriminate].
    intros [= <-]. rewrite (Hd p0 Hp0). apply (Hd p0 Hp0).
  - rewrite list_lookup_alter_ne by assumption. apply Hd.
Qed.

Lemma terminate_kills (i : nat) (w : World) : dead_at i (terminate i w).
Proof.
  intros p. unfold terminate. simpl. rewrite list_lookup_alter_eq.
  destruct (procs w !! i) as [p0|]; [|discriminate].
  intros [= <-]. destruct (is_alive p0) eqn:Ha; [reflexivity | exact Ha].
Qed.

Lemma join_all_dead (joins : list Schedule) (ws : list nat) (w : World)
    (i : nat) :
  dead_at i w \/ i ∈ ws -> dead_at i (join_all joins ws w).
Proof.
  revert joins w. induction ws as [|j ws IH]; intros joins w Hi; simpl.
  - destruct Hi as [Hd|Hin]; [exact Hd | inversion Hin].
  - apply IH. destruct Hi as [Hd|Hin].
    + left. apply terminate_dead, run_dead, Hd.
    + apply elem_of_cons in Hin. destruct Hin as [->|Hin]; [|auto].
      left. apply terminate_kills.
Qed.

Lemma run_events_length (s : Schedule) (w : World) :
  length (events (run s w)) = length (events w).
Proof.
  revert w. induction s as [|[i k] s IH]; intros w; simpl; [reflexivity|].
  rewrite IH. destruct (step_proc_events i k w) as [->|[e ->]];
    [reflexivity | apply length_insert].
Qed.

Lemma join_all_events_length (joins : list Schedule) (ws : list nat)
    (w : World) :
  length (events (join_all joins ws w)) = length (events w).
Proof.
  revert joins w. induction ws as [|i ws IH]; intros joins w; simpl.
  - reflexivity.
  - rewrite IH. unfold terminate. simpl. apply run_events_length.
Qed.

Lemma stop_idle (joins : list Schedule) (g : VanityGenerator) (w : World) :
  _is_running (snd (fst (stop joins g w))) = false /\
  _workers (snd (fst (stop joins g w))) = [].
Proof.
  unfold stop.
  destruct (match _result_queue g with
            | Some q => drain_stop g q _
            | None => _
            end) as [rs w3].
  simpl. auto.
Qed.


(** X13. No operation but a [start] that succeeds drops a result: after
    any other step of the system, the results the orchestrator held
    before are still there, in order, at the head of its list.  A [start]
    that succeeds empties the list. *)
Theorem results_only_grow (g g' : VanityGenerator) (w w' : World) :
  sys_step (g, w) (g', w') ->
  (exists rs, _results g' = _results g ++ rs) \/
  (_is_running g = false /\ _is_running g' = true /\ _results g' = []).
Proof.
  intros Hs. inversion Hs; subst; clear Hs.
  - left. exists []. rewrite app_nil_r. reflexivity.
  - left. exists []. rewrite app_nil_r. reflexivity.
  - destruct (_is_running g) eqn:Hr.
    + left. exists []. unfold start. rewrite Hr. simpl.
      rewrite app_nil_r. reflexivity.
    + right. split; [reflexivity|]. unfold start. rewrite Hr.
      match goal with
      | |- context [spawn ?n ?q ?ev ?c ?g1 ?w2] =>
          pose proof (spawn_fields n q ev c g1 w2) as Hf;
          destruct (spawn n q ev c g1 w2) as [g2 w3]
      end.
      simpl in *. destruct Hf as (Hf1 & _ & _ & _ & Hf5).
      rewrite Hf1, Hf5. auto.
  - left. unfold poll. destruct (negb (_is_running g)); simpl;
      [exists []; rewrite app_nil_r; reflexivity|].
    destruct (_result_queue g) as [q|]; simpl;
      [|exists []; rewrite app_nil_r; reflexivity].
    destruct (drain_poll g q w) as [rs w1]. exists rs.
    destruct (_counter g); simpl; [|reflexivity].
    destruct (_stop_event g); simpl; [|reflexivity].
    destruct (_ && _); reflexivity.
  - left. unfold stop.
    destruct (match _result_queue g with
              | Some q => drain_stop g q _
              | None => _
              end) as [rs w3].
    exists rs. reflexivity.
Qed.


(** *** [run_blocking] *)

(** X14. [run_blocking] on an orchestrator that is already running raises
    the [RuntimeError] of [start] and changes nothing: [start] stands
    before the [try], so [stop] is not called and the running search goes
    on.  On an idle orchestrator it never raises, because its [finally]
    clause returns: whatever happens in the loop, the orchestrator is left
    not running and without workers, and what is returned is its list of
    results. *)
Theorem run_blocking_stops (rounds joins : list Schedule)
    (g : VanityGenerator) (w : World) :
  let r := run_blocking rounds joins g w in
  (_is_running g = true -> r = (Raise RuntimeError, g, w)) /\
  (_is_running g = false ->
   fst (fst r) = Ok (_results (snd (fst r))) /\
   _is_running (snd (fst r)) = false /\
   _workers (snd (fst r)) = []).
Proof.
  unfold run_blocking. split.
  - intros Hr. unfold start. rewrite Hr. reflexivity.
  - intros Hr. unfold start. rewrite Hr.
    destruct (spawn _ _ _ _ _ _) as [g1 w1].
    destruct (poll_loop rounds g1 w1) as [g2 w2].
    destruct (stop_idle joins g2 w2) as (Ha & Hb).
    assert (Hres : fst (fst (stop joins g2 w2))
                   = _results (snd (fst (stop joins g2 w2)))).
    { unfold stop.
      destruct (match _result_queue g2 with
                | Some q => drain_stop g2 q _
                | None => _
                end) as [rs w3].
      reflexivity. }
    destruct (stop joins g2 w2) as [[rs g3] w3]. simpl in *.
    rewrite Hres. auto.
Qed.

End LifecycleProperties.

(** ** Export *)

Lemma hexval_hexchar (d : Z) : 0 <= d < 16 -> hexval (hexchar d) = Some d.
Proof.
  intros Hd.
  assert (Hn : d = Z.of_nat (Z.to_nat d)) by lia.
  assert (Hlt : (Z.to_nat d < 16)%nat) by lia.
  rewrite Hn. generalize dependent (Z.to_nat d). clear Hd. intros n _ Hlt.
  do 16 (destruct n as [|n]; [reflexivity|]). lia.
Qed.

Lemma hexchar_not_space (d : Z) :
  0 <= d < 16 -> ascii_space (hexchar d) = false.
Proof.
  intros Hd.
  assert (Hn : d = Z.of_nat (Z.to_nat d)) by lia.
  assert (Hlt : (Z.to_nat d < 16)%nat) by lia.
  rewrite Hn. generalize dependent (Z.to_nat d). clear Hd. intros n _ Hlt.
  do 16 (destruct n as [|n]; [reflexivity|]). lia.
Qed.

Lemma bytes_fromhex_hex (b : pybytes) :
  Forall is_byte b -> bytes_fromhex (bytes_hex b) = Some b.
Proof.
  induction 1 as [|x b Hx _ IH]; [reflexivity|].
  unfold is_byte in Hx.
  change (bytes_hex (x :: b))
    with (hexchar (x / 16) :: hexchar (x mod 16) :: bytes_hex b).
  cbn [bytes_fromhex].
  rewrite (hexchar_not_space (x / 16))
    by (split; [apply Z.div_pos | apply Z.div_lt_upper_bound]; lia).
  rewrite (hexval_hexchar (x / 16))
    by (split; [apply Z.div_pos | apply Z.div_lt_upper_bound]; lia).
  rewrite (hexval_hexchar (x mod 16)) by (apply Z.mod_pos_bound; lia).
  rewrite IH. simpl. f_equal. f_equal.
  rewrite (Z.div_mod x 16) at 3 by lia. reflexivity.
Qed.

(** X16. The hexadecimal form determines the octets: [hex()] of a byte
    string is two lower-case hexadecimal digits for each octet, and
    [bytes.fromhex] of it gives the byte string back; so two byte strings
    with the same hexadecimal form are the same. *)
Theorem bytes_hex_roundtrip (b : pybytes) :
  Forall is_byte b ->
  bytes_fromhex (bytes_hex b) = Some b /\
  length (bytes_hex b) = (2 * length b)%nat /\
  Forall is_hexdigit (bytes_hex b) /\
  (forall b', Forall is_byte b' -> bytes_hex b' = bytes_hex b -> b' = b).
Proof.
  intros Hb. split; [|split; [|split]].
  - apply bytes_fromhex_hex, Hb.
  - apply bytes_hex_length.
  - apply bytes_hex_digits, Hb.
  - intros b' Hb' Heq.
    pose proof (bytes_fromhex_hex b' Hb') as H1.
    rewrite Heq, (bytes_fromhex_hex b Hb) in H1. congruence.
Qed.

Section ExportProperties.
Context `{Base64}.

(** X15. The export of a result names the address that was searched for.
    For an item [generate_and_hash] made under the name hash the
    orchestrator resolved for its destination type, [prepare_export] maps
    that destination type to the item's address, and maps each of the two
    known destination types to the address of the same identity under that
    type. *)
Theorem export_names_searched_address
    (dt : pystr) (nh : pybytes) (k : KeyMaterial) :
  resolve_name_hash dt = Ok nh ->
  let x := generate_and_hash nh k in
  let e := prepare_export (fst (fst x)) (snd (fst x)) dt (snd x) in
  dest_hashes e !! dt = Some (snd x) /\
  (forall t h, DEST_NAME_HASHES !! t = Some h ->
     dest_hashes e !! t
     = Some (bytes_hex (dest_hash_from_identity_hash h (snd (fst x))))) /\
  private_key_raw e = x_prv k ++ e_prv k /\
  bytes_fromhex (identity_hash_hex e) = Some (snd (fst x)).
Proof.
  intros Hres x e.
  assert (Hprv : fst (fst x) = x_prv k ++ e_prv k) by reflexivity.
  assert (Hhex : snd x = bytes_hex (dest_hash_from_identity_hash
                                      nh (snd (fst x)))) by reflexivity.
  destruct (generate_and_hash_address nh k) as (Hl32 & _).
  fold x in Hl32.
  assert (Hne : snd x <> []) by (intros Hx; rewrite Hx in Hl32; discriminate).
  unfold e, prepare_export.
  cbn [dest_hashes private_key_raw identity_hash_hex].
  set (f := fun name_hash_ : pybytes =>
              bytes_hex (dest_hash_from_identity_hash name_hash_
                                                      (snd (fst x)))).
  unfold resolve_name_hash in Hres.
  destruct (DEST_NAME_HASHES !! dt) as [h|] eqn:Hd.
  - injection Hres as ->.
    assert (Hl : (f <$> DEST_NAME_HASHES) !! dt = Some (snd x)).
    { rewrite lookup_fmap, Hd. simpl. unfold f. rewrite <- Hhex.
      reflexivity. }
    rewrite bool_decide_eq_false_2 by (rewrite Hl; discriminate). simpl.
    split; [|split; [|split]].
    + exact Hl.
    + intros t h Ht. rewrite lookup_fmap, Ht. reflexivity.
    + exact Hprv.
    + apply bytes_fromhex_hex, Forall_take, digest_range.
  - assert (Hl : (f <$> DEST_NAME_HASHES) !! dt = None)
      by (rewrite lookup_fmap, Hd; reflexivity).
    rewrite bool_decide_eq_true_2 by exact Hl.
    rewrite bool_decide_eq_false_2 by exact Hne. simpl.
    split; [|split; [|split]].
    + apply lookup_insert_eq.
    + intros t h Ht. rewrite lookup_insert_ne by congruence.
      rewrite lookup_fmap, Ht. reflexivity.
    + exact Hprv.
    + apply bytes_fromhex_hex, Forall_take, digest_range.
Qed.

End ExportProperties.

(** ** The orchestrator and its workers *)

Section OrchestratorProperties.
Context `{Unicode} `{RegexEngine} `{Clock}.

Lemma worker_step_handles (k : KeyMaterial) (p : Proc) (w : World) :
  let p' := fst (worker_step k p w) in
  p_queue p' = p_queue p /\ p_event p' = p_event p /\
  p_counter p' = p_counter p.
Proof.
  unfold worker_step. destruct (p_pc p); simpl; auto.
  - destruct (compile (p_pattern p)); simpl; auto.
  - destruct (event_is_set (p_event p) w); simpl; auto.
  - destruct (i <? p_batch_size p); simpl; auto.
    destruct (p_compiled p); simpl; auto.
    destruct (matches _ _) as [[|]|]; simpl; auto.
  - destruct (p_item p); simpl; auto.
  - destruct (0 <? p_local_count p); simpl; auto.
Qed.

Lemma worker_step_alive (k : KeyMaterial) (p : Proc) (w : World) :
  is_alive (fst (worker_step k p w)) = true -> is_alive p = true.
Proof.
  destruct (is_alive p) eqn:Ha; [reflexivity|].
  rewrite (worker_step_dead k p w Ha). simpl. rewrite Ha. auto.
Qed.

Lemma worker_step_procs (k : KeyMaterial) (p : Proc) (w : World) :
  procs (snd (worker_step k p w)) = procs w.
Proof.
  destruct (worker_step_effect k p w)
    as [->|[(x & _ & _ & ->)|[[_ ->]|[_ ->]]]]; reflexivity.
Qed.

Lemma step_proc_at (i : nat) (k : KeyMaterial) (w : World) (p : Proc) :
  procs w !! i = Some p ->
  step_proc i k w
  = with_procs (fun l => <[i := fst (worker_step k p w)]> l)
               (snd (worker_step k p w)).
Proof.
  intros Hp. unfold step_proc. rewrite Hp.
  destruct (worker_step k p w); reflexivity.
Qed.

Lemma step_proc_lookup (i j : nat) (k : KeyMaterial) (w : World) (p' : Proc) :
  procs (step_proc i k w) !! j = Some p' ->
  exists p, procs w !! j = Some p /\
            (p' = p \/ p' = fst (worker_step k p w)).
Proof.
  destruct (procs w !! i) as [p|] eqn:Hp.
  - rewrite (step_proc_at i k w p Hp). simpl. rewrite worker_step_procs.
    destruct (decide (i = j)) as [->|Hne].
    + rewrite list_lookup_insert_eq by (eapply lookup_lt_Some, Hp).
      intros [= <-]. eauto.
    + rewrite list_lookup_insert_ne by assumption. eauto.
  - unfold step_proc. rewrite Hp. eauto.
Qed.

(** *** The read cursors *)

Lemma queue_take_ok (qu : Queue) :
  queue_ok qu -> queue_ok (queue_take (length (queue_pending qu)) qu).
Proof.
  unfold queue_ok, queue_take, queue_pending. simpl.
  rewrite length_drop. lia.
Qed.

Lemma step_proc_queues_ok (i : nat) (k : KeyMaterial) (w : World) :
  Forall queue_ok (queues w) -> Forall queue_ok (queues (step_proc i k w)).
Proof.
  intros Hq. unfold step_proc. destruct (procs w !! i) as [p|]; [|exact Hq].
  pose proof (worker_step_effect k p w) as He.
  destruct (worker_step k p w) as [p' w']. simpl in *.
  destruct He as [->|[(x & _ & _ & ->)|[[_ ->]|[_ ->]]]]; simpl; auto.
  apply Forall_alter; [exact Hq|].
  intros qu _. unfold queue_ok, queue_put. simpl.
  rewrite length_app. simpl. lia.
Qed.

Lemma run_queues_ok (s : Schedule) (w : World) :
  Forall queue_ok (queues w) -> Forall queue_ok (queues (run s w)).
Proof.
  revert w. induction s as [|[i k] s IH]; intros w Hw; simpl; [exact Hw|].
  apply IH, step_proc_queues_ok, Hw.
Qed.

Lemma join_all_queues_ok (joins : list Schedule) (ws : list nat) (w : World) :
  Forall queue_ok (queues w) -> Forall queue_ok (queues (join_all joins ws w)).
Proof.
  revert joins w. induction ws as [|i ws IH]; intros joins w Hw; simpl.
  - exact Hw.
  - apply IH. unfold terminate. simpl. apply run_queues_ok, Hw.
Qed.

Lemma alter_take_ok (q : nat) (l : list Queue) (qu : Queue) :
  l !! q = Some qu -> Forall queue_ok l ->
  Forall queue_ok (alter (queue_take (length (queue_pending qu))) q l).
Proof.
  intros Hq Hl. apply Forall_alter; [exact Hl|].
  intros qu' Hqu'. rewrite Hq in Hqu'. injection Hqu' as <-.
  apply queue_take_ok.
Qed.

Lemma drain_stop_queues_ok (g : VanityGenerator) (q : nat) (w : World) :
  Forall queue_ok (queues w) ->
  Forall queue_ok (queues (snd (drain_stop g q w))).
Proof.
  intros Hw. unfold drain_stop.
  destruct (queues w !! q) as [qu|] eqn:Hq; simpl; [|exact Hw].
  apply alter_take_ok; assumption.
Qed.

Lemma drain_poll_queues_ok (g : VanityGenerator) (q : nat) (w : World) :
  Forall queue_ok (queues w) ->
  Forall queue_ok (queues (snd (drain_poll g q w))).
Proof.
  intros Hw. unfold drain_poll.
  destruct (queues w !! q) as [qu|] eqn:Hq; simpl; [|exact Hw].
  destruct (_counter g) as [c|]; simpl.
  - destruct (on_result g); simpl; [|apply alter_take_ok; assumption].
    match goal with
    | |- context [fold_left ?f ?rs ?w0] =>
        destruct (fold_calls_shared rs w0) as (_ & _ & _ & -> & _)
    end.
    simpl. apply alter_take_ok; assumption.
  - destruct (queue_pending qu) as [|x xs] eqn:Hp; simpl; [exact Hw|].
    apply Forall_alter; [exact Hw|].
    intros qu' Hqu'. rewrite Hq in Hqu'. injection Hqu' as <-.
    intros Hok. unfold queue_ok, queue_take, queue_pending in *. simpl.
    assert (Hl : length (drop (q_read qu) (q_items qu)) = S (length xs))
      by (rewrite Hp; reflexivity).
    rewrite length_drop in Hl. lia.
Qed.

(** *** What [poll] leaves alone *)

Lemma drain_poll_shared (g : VanityGenerator) (q : nat) (w : World) :
  let w' := snd (drain_poll g q w) in
  procs w' = procs w /\ events w' = events w /\ counters w' = counters w.
Proof.
  unfold drain_poll. destruct (queues w !! q) as [qu|]; simpl; [|auto].
  destruct (_counter g) as [c|]; simpl.
  - destruct (on_result g); simpl; [|auto].
    match goal with
    | |- context [fold_left ?f ?rs ?w0] =>
        destruct (fold_calls_shared rs w0) as (-> & -> & -> & _ & _)
    end.
    auto.
  - destruct (queue_pending qu); simpl; auto.
Qed.


Lemma workers_dead_test (g : VanityGenerator) (w : World) :
  forallb (fun i => match procs w !! i with
                    | Some p => negb (is_alive p)
                    | None => true
                    end) (_workers g) = true
  <-> all_dead g w.
Proof.
  rewrite forallb_forall. unfold all_dead, dead_at. split.
  - intros Hf i Hi p Hp. apply list_elem_of_In in Hi.
    specialize (Hf i Hi). rewrite Hp in Hf.
    destruct (is_alive p); [discriminate | reflexivity].
  - intros Hd i Hi. apply list_elem_of_In in Hi.
    destruct (procs w !! i) as [p|] eqn:Hp; [|reflexivity].
    rewrite (Hd i Hi p Hp). reflexivity.
Qed.

(** [poll] on a running orchestrator that holds its queue, event and
    counter. *)
Lemma poll_running (g : VanityGenerator) (w : World) (q ev c : nat) :
  _is_running g = true -> _result_queue g = Some q ->
  _stop_event g = Some ev -> _counter g = Some c ->
  let rs := fst (drain_poll g q w) in
  let g1 := set_results (_results g ++ rs) g in
  let done :=
    event_is_set ev w &&
    forallb (fun i => match procs w !! i with
                      | Some p => negb (is_alive p)
                      | None => true
                      end) (_workers g) in
  exists st w',
    poll g w = (Ok st, if done then set_is_running false g1 else g1, w') /\
    s_is_running st = true /\
    s_results_found st = Z.of_nat (length (_results g ++ rs)) /\
    s_total_checked st = counter_value c w /\
    procs w' = procs w /\ events w' = events w /\
    counters w' = counters w /\
    queues w' = queues (snd (drain_poll g q w)).
Proof.
  intros Hr Hq He Hc. unfold poll. rewrite Hr, Hq. simpl.
  destruct (drain_poll_shared g q w) as (Hp1 & He1 & Hc1).
  destruct (drain_poll g q w) as [rs w1]. simpl in *.
  rewrite Hc, He.
  set (w2 := with_ticks (S (ticks w1)) w1).
  set (w3 := if on_progress g then _ else w2).
  assert (Hw3 : procs w3 = procs w /\ events w3 = events w /\
                counters w3 = counters w /\ queues w3 = queues w1).
  { subst w3 w2. destruct (on_progress g); simpl; auto. }
  destruct Hw3 as (Hp3 & He3 & Hc3 & Hq3).
  assert (Hset : event_is_set ev w3 = event_is_set ev w)
    by (unfold event_is_set; rewrite He3; reflexivity).
  assert (Hval : counter_value c w2 = counter_value c w)
    by (unfold counter_value; subst w2; simpl; rewrite Hc1; reflexivity).
  rewrite Hset, Hp3.
  destruct (event_is_set ev w && forallb _ (_workers g));
    eexists; eexists; (split; [reflexivity|]); simpl; rewrite ?Hr;
    destruct (on_complete g); simpl; auto 10.
Qed.

Lemma stop_queues_ok (joins : list Schedule) (g : VanityGenerator)
    (w : World) :
  Forall queue_ok (queues w) ->
  Forall queue_ok (queues (snd (stop joins g w))).
Proof.
  intros Hw. unfold stop.
  set (w1 := match _stop_event g with
             | Some ev => event_set ev w
             | None => w
             end).
  assert (Hw1 : Forall queue_ok (queues w1))
    by (subst w1; destruct (_stop_event g); exact Hw).
  pose proof (join_all_queues_ok joins (_workers g) w1 Hw1) as Hw2.
  destruct (_result_queue g) as [q|].
  - pose proof (drain_stop_queues_ok g q _ Hw2) as Hw3.
    destruct (drain_stop g q _) as [rs w3]. exact Hw3.
  - exact Hw2.
Qed.

Lemma sys_step_system_ok (g g' : VanityGenerator) (w w' : World) :
  sys_step (g, w) (g', w') -> system_ok g w -> system_ok g' w'.
Proof.
  intros Hs (Hq & Hh & Hl & Hd). inversion Hs; subst; clear Hs.
  - (* a worker *)
    split; [apply step_proc_queues_ok, Hq|]. split; [exact Hh|]. split.
    + intros j p' Hj Hp' Ha.
      destruct (step_proc_lookup _ _ _ _ _ Hp') as (p & Hp & [->| ->]).
      * exact (Hl j p Hj Hp Ha).
      * destruct (Hl j p Hj Hp (worker_step_alive _ _ _ Ha))
          as (L1 & L2 & L3).
        destruct (worker_step_handles k p w) as (E1 & E2 & E3).
        unfold linked. rewrite E1, E2, E3. auto.
    + intros Hr j Hj. apply step_proc_dead. exact (Hd Hr j Hj).
  - (* the callbacks *)
    split; [exact Hq|]. split; [exact Hh|]. split; [exact Hl | exact Hd].
  - (* start *)
    destruct (_is_running g) eqn:Hr.
    + unfold start. rewrite Hr. simpl.
      split; [exact Hq|]. split; [intros _; exact (Hh eq_refl)|].
      split; [exact Hl|]. intros Hr'. congruence.
    + unfold start. rewrite Hr.
      match goal with
      | |- context [spawn ?n ?q ?ev ?c ?g1 ?w2] =>
          pose proof (spawn_shape n q ev c g1 w2) as Hs;
          pose proof (spawn_fields n q ev c g1 w2) as Hf;
          destruct (spawn n q ev c g1 w2) as [g2 w3]
      end.
      simpl in *.
      destruct Hs as (Hp & Hw & Hqs & _).
      destruct Hf as (Hf1 & Hf2 & Hf3 & Hf4 & _).
      split; [|split; [|split]].
      * rewrite Hqs. apply Forall_app. split; [exact Hq|].
        apply Forall_singleton. unfold queue_ok. simpl. lia.
      * intros _. rewrite Hf2, Hf3, Hf4. eauto.
      * intros i p Hi Hpi Ha. rewrite Hp in Hpi.
        apply lookup_app_Some in Hpi. destruct Hpi as [Hpi|[Hge Hpi]].
        -- exfalso. rewrite Hw in Hi. apply elem_of_app in Hi.
           destruct Hi as [Hi|Hi].
           ++ rewrite (Hd eq_refl i Hi p Hpi) in Ha. discriminate.
           ++ apply elem_of_seq in Hi. apply lookup_lt_Some in Hpi. lia.
        -- apply lookup_replicate_1 in Hpi. destruct Hpi as [-> _].
           unfold linked. rewrite Hf2, Hf3, Hf4. simpl. auto.
      * intros Hr'. congruence.
  - (* poll *)
    destruct (_is_running g) eqn:Hr.
    + destruct (Hh eq_refl) as ([q Hgq] & [ev Hgev] & [c Hgc]).
      destruct (poll_running g w q ev c Hr Hgq Hgev Hgc)
        as (st & w1 & Hpoll & _ & _ & _ & Hp1 & He1 & Hc1 & Hq1).
      rewrite Hpoll. simpl.
      split; [rewrite Hq1; apply drain_poll_queues_ok, Hq|].
      destruct (event_is_set ev w && forallb _ (_workers g)) eqn:Hdone;
        simpl.
      * split; [intros; discriminate|]. split.
        -- intros i p Hi Hpi. rewrite Hp1 in Hpi. exact (Hl i p Hi Hpi).
        -- intros _ i Hi p. rewrite Hp1.
           apply andb_true_iff in Hdone. destruct Hdone as [_ Hdone].
           apply workers_dead_test in Hdone. exact (Hdone i Hi p).
      * split; [intros _; exact (Hh eq_refl)|]. split.
        -- intros i p Hi Hpi. rewrite Hp1 in Hpi. exact (Hl i p Hi Hpi).
        -- intros Hr'. congruence.
    + unfold poll. rewrite Hr. simpl.
      split; [exact Hq|]. split; [intros Hr'; congruence|].
      split; [exact Hl|]. intros _. exact (Hd eq_refl).
  - (* stop *)
    destruct (stop_idle joins g w) as (Hr & Hw).
    split; [apply stop_queues_ok, Hq|]. split; [intros; congruence|]. split.
    + intros i p Hi. rewrite Hw in Hi. apply elem_of_nil in Hi. contradiction.
    + intros _ i Hi. rewrite Hw in Hi. apply elem_of_nil in Hi. contradiction.
Qed.

Lemma reachable_system_ok (s : System) :
  reachable s -> system_ok (fst s) (snd s).
Proof.
  induction 1 as [pat m dt n cs cpu g Hg | [g w] [g' w'] _ IH Hs].
  - unfold init in Hg.
    destruct (match m with
              | REGEX => Ok pat
              | _ => validate_hex_pattern pat
              end); simpl in Hg; [|discriminate].
    destruct (resolve_name_hash dt); simpl in Hg; [|discriminate].
    injection Hg as <-. simpl.
    split; [constructor|]. split; [intros; discriminate|]. split.
    + intros i p Hi. apply elem_of_nil in Hi. contradiction.
    + intros _ i Hi. apply elem_of_nil in Hi. contradiction.
  - exact (sys_step_system_ok g g' w w' Hs IH).
Qed.


Lemma live_worker_linked (g : VanityGenerator) (w : World) (i : nat)
    (p : Proc) :
  reachable (g, w) -> i ∈ _workers g -> procs w !! i = Some p ->
  is_alive p = true ->
  _is_running g = true /\ linked g p /\ proc_ok w p.
Proof.
  intros Hr Hi Hp Ha.
  destruct (reachable_system_ok _ Hr) as (_ & _ & Hl & Hd). simpl in *.
  destruct (reachable_ok _ Hr) as [Hok _]. simpl in Hok.
  rewrite Forall_forall in Hok.
  split; [|split].
  - destruct (_is_running g) eqn:Hrun; [reflexivity|].
    rewrite (Hd eq_refl i Hi p Hp) in Ha. discriminate.
  - exact (Hl i p Hi Hp Ha).
  - eapply Hok, list_elem_of_lookup_2, Hp.
Qed.

(** X18. In every state the system gets into, a live worker that the
    orchestrator lists belongs to the running search: the orchestrator is
    running, the worker searches for the orchestrator's pattern under its
    name hash, and it reports to the queue, the event and the counter the
    orchestrator holds now, all of which exist.  So an orchestrator that
    is not running lists no live worker. *)
Theorem live_worker_is_current (g : VanityGenerator) (w : World) (i : nat)
    (p : Proc) :
  reachable (g, w) -> i ∈ _workers g -> procs w !! i = Some p ->
  is_alive p = true ->
  _is_running g = true /\
  p_pattern p = match_pattern g /\ p_name_hash p = name_hash g /\
  _result_queue g = Some (p_queue p) /\
  _stop_event g = Some (p_event p) /\
  _counter g = Some (p_counter p) /\
  is_Some (queues w !! p_queue p) /\ is_Some (events w !! p_event p) /\
  is_Some (counters w !! p_counter p).
Proof.
  intros Hr Hi Hp Ha.
  destruct (live_worker_linked g w i p Hr Hi Hp Ha)
    as (Hrun & (L1 & L2 & L3) & (_ & Hq & He & Hc & _)).
  destruct (reachable_search _ Hr) as [[Hps _] _]. simpl in Hps.
  rewrite Forall_forall in Hps.
  destruct (Hps p (list_elem_of_lookup_2 _ _ _ Hp)) as (Hpat & Hnh & _).
  repeat split; auto; apply lookup_lt_is_Some; assumption.
Qed.


(** *** From a match to the result *)

Lemma compiled_inv_closed : step_closed compiled_inv (fun _ => True).
Proof.
  split; [|split]; [| |auto].
  - intros k p w Hc. unfold compiled_inv, worker_step in *.
    destruct (p_pc p) eqn:Hpc; simpl in Hc;
      repeat match goal with
             | |- context [match ?t with _ => _ end] =>
                 lazymatch t with
                 | context [match _ with _ => _ end] => fail
                 | _ => destruct t eqn:?
                 end
             end;
      simpl; rewrite ?Hpc; simpl; try (intros; discriminate); eauto.
  - intros p Hc. unfold compiled_inv in *. simpl. exact Hc.
Qed.

Lemma reachable_compiled (s : System) :
  reachable s -> procs_inv compiled_inv (fun _ => True) (snd s).
Proof.
  induction 1 as [pat m dt n cs cpu g Hg | [g w] [g' w'] _ IH Hs].
  - split; constructor.
  - eapply sys_step_inv; [apply compiled_inv_closed | | exact Hs | exact IH].
    intros q ev c. unfold compiled_inv. simpl. discriminate.
Qed.

Lemma worker_step_match (k : KeyMaterial) (p : Proc) (w : World) (j : Z)
    (c : CompiledPattern) :
  p_pc p = PFor j -> j < p_batch_size p -> p_compiled p = Some c ->
  matches c (snd (generate_and_hash (p_name_hash p) k)) = Ok true ->
  worker_step k p w
  = (set_pc PPut (set_local_count (p_local_count p + 1)
                    (set_item (generate_and_hash (p_name_hash p) k) p)), w).
Proof.
  intros Hpc Hlt Hc Hm. unfold worker_step. rewrite Hpc.
  apply Z.ltb_lt in Hlt. rewrite Hlt. cbv zeta. rewrite Hc, Hm. reflexivity.
Qed.

Lemma worker_step_put (k : KeyMaterial) (p : Proc) (w : World) (x : Item) :
  p_pc p = PPut -> p_item p = Some x ->
  worker_step k p w = (set_pc PSet p, put (p_queue p) x w).
Proof. intros Hpc Hx. unfold worker_step. rewrite Hpc, Hx. reflexivity. Qed.

Lemma worker_step_set (k : KeyMaterial) (p : Proc) (w : World) :
  p_pc p = PSet ->
  worker_step k p w = (set_pc PAddFound p, event_set (p_event p) w).
Proof. intros Hpc. unfold worker_step. rewrite Hpc. reflexivity. Qed.

Lemma worker_step_add (k : KeyMaterial) (p : Proc) (w : World) :
  p_pc p = PAddFound ->
  worker_step k p w
  = (set_pc PReturnFound p,
     counter_add (p_counter p) (p_local_count p) w).
Proof. intros Hpc. unfold worker_step. rewrite Hpc. reflexivity. Qed.

(** The four steps of a worker from the draw of a matching key pair to
    its [return]. *)
Lemma run_found (i : nat) (k : KeyMaterial) (p : Proc) (w : World) (j : Z)
    (c : CompiledPattern) :
  procs w !! i = Some p ->
  p_pc p = PFor j -> j < p_batch_size p -> p_compiled p = Some c ->
  matches c (snd (generate_and_hash (p_name_hash p) k)) = Ok true ->
  let x := generate_and_hash (p_name_hash p) k in
  let n := p_local_count p + 1 in
  let w' := run (repeat (i, k) 4) w in
  queues w' = alter (queue_put x) (p_queue p) (queues w) /\
  events w' = <[p_event p := true]> (events w) /\
  counters w' = alter (fun v => (v + n) mod 2 ^ 64) (p_counter p)
                      (counters w) /\
  ticks w' = ticks w /\
  exists p', procs w' !! i = Some p' /\ p_pc p' = PReturnFound.
Proof.
  intros Hp Hpc Hlt Hc Hm x n.
  assert (Hi : (i < length (procs w))%nat) by (eapply lookup_lt_Some, Hp).
  change (run (repeat (i, k) 4) w)
    with (step_proc i k (step_proc i k (step_proc i k (step_proc i k w)))).
  rewrite (step_proc_at i k w p Hp).
  rewrite (worker_step_match k p w j c Hpc Hlt Hc Hm). fold x. fold n.
  cbn [fst snd].
  set (p1 := set_pc PPut (set_local_count n (set_item x p))).
  set (w1 := with_procs (fun l => <[i := p1]> l) w).
  assert (Hp1 : procs w1 !! i = Some p1)
    by (apply list_lookup_insert_eq; exact Hi).
  rewrite (step_proc_at i k w1 p1 Hp1).
  rewrite (worker_step_put k p1 w1 x eq_refl eq_refl). cbn [fst snd].
  set (p2 := set_pc PSet p1).
  set (w2 := with_procs (fun l => <[i := p2]> l) (put (p_queue p1) x w1)).
  assert (Hp2 : procs w2 !! i = Some p2).
  { subst w2 w1. cbn [procs with_procs put with_queues].
    apply list_lookup_insert_eq. rewrite length_insert. exact Hi. }
  rewrite (step_proc_at i k w2 p2 Hp2).
  rewrite (worker_step_set k p2 w2 eq_refl). cbn [fst snd].
  set (p3 := set_pc PAddFound p2).
  set (w3 := with_procs (fun l => <[i := p3]> l)
               (event_set (p_event p2) w2)).
  assert (Hp3 : procs w3 !! i = Some p3).
  { subst w3 w2 w1.
    cbn [procs with_procs put with_queues event_set with_events].
    apply list_lookup_insert_eq. rewrite !length_insert. exact Hi. }
  rewrite (step_proc_at i k w3 p3 Hp3).
  rewrite (worker_step_add k p3 w3 eq_refl). cbn [fst snd].
  split; [reflexivity|]. split; [reflexivity|]. split; [reflexivity|].
  split; [reflexivity|].
  exists (set_pc PReturnFound p3). split; [|reflexivity].
  cbn [procs with_procs counter_add with_counters].
  apply list_lookup_insert_eq.
  subst w3 w2 w1.
  cbn [procs with_procs put with_queues event_set with_events].
  rewrite !length_insert. exact Hi.
Qed.

Lemma make_results_last (g : VanityGenerator) (xs : list Item) (x : Item)
    (n : nat) (total : Z) :
  exists t,
    make_results g (xs ++ [x]) n total
    = make_results g xs n total ++ [make_result g x t total].
Proof.
  revert n. induction xs as [|y xs IH]; intros n; simpl.
  - eexists. reflexivity.
  - destruct (IH (S n)) as [t Ht]. exists t. rewrite Ht. reflexivity.
Qed.


End OrchestratorProperties.

(** ** The counter *)

Section CounterProperties.
Context `{Unicode} `{RegexEngine} `{Clock}.

Lemma worker_step_counters (k : KeyMaterial) (p : Proc) (w : World) :
  counters (snd (worker_step k p w))
  = if writes_counter p
    then alter (fun v => (v + p_local_count p) mod 2 ^ 64) (p_counter p)
               (counters w)
    else counters w.
Proof.
  unfold worker_step, writes_counter. destruct (p_pc p); simpl;
    try reflexivity.
  - destruct (compile (p_pattern p)); reflexivity.
  - destruct (event_is_set (p_event p) w); reflexivity.
  - destruct (i <? p_batch_size p); simpl; [|reflexivity].
    destruct (p_compiled p); simpl; [|reflexivity].
    destruct (matches _ _) as [[|]|]; reflexivity.
  - destruct (p_item p); reflexivity.
  - destruct (0 <? p_local_count p); reflexivity.
Qed.

Lemma step_proc_counter (i : nat) (k : KeyMaterial) (w : World) (c : nat)
    (v : Z) :
  0 <= v < 2 ^ 64 -> counters w !! c = Some v ->
  counters (step_proc i k w) !! c
  = Some ((v + count_added w i c) mod 2 ^ 64).
Proof.
  intros Hv Hc. unfold count_added.
  destruct (procs w !! i) as [p|] eqn:Hp.
  - rewrite (step_proc_at i k w p Hp). cbn [counters with_procs].
    rewrite worker_step_counters.
    destruct (writes_counter p); simpl.
    + destruct (decide (p_counter p = c)) as [Heq|Hne].
      * rewrite bool_decide_eq_true_2 by exact Heq. subst c.
        rewrite list_lookup_alter_eq, Hc. reflexivity.
      * rewrite bool_decide_eq_false_2 by exact Hne.
        rewrite list_lookup_alter_ne by exact Hne.
        rewrite Z.add_0_r, Z.mod_small by exact Hv. exact Hc.
    + rewrite Z.add_0_r, Z.mod_small by exact Hv. exact Hc.
  - unfold step_proc. rewrite Hp.
    rewrite Z.add_0_r, Z.mod_small by exact Hv. exact Hc.
Qed.

Lemma count_added_nonneg (w : World) (i c : nat) :
  world_ok w -> 0 <= count_added w i c.
Proof.
  intros [Hps _]. unfold count_added.
  destruct (procs w !! i) as [p|] eqn:Hp; [|lia].
  destruct (_ && _); [|lia].
  rewrite Forall_forall in Hps.
  destruct (Hps p (list_elem_of_lookup_2 _ _ _ Hp)) as (Hn & _). exact Hn.
Qed.

Lemma counter_range (w : World) (c : nat) (v : Z) :
  world_ok w -> counters w !! c = Some v -> 0 <= v < 2 ^ 64.
Proof.
  intros [_ Hcs] Hc. rewrite Forall_forall in Hcs.
  eapply Hcs, list_elem_of_lookup_2, Hc.
Qed.

Lemma run_counter (s : Schedule) (w : World) (c : nat) (v : Z) :
  world_ok w -> counters w !! c = Some v ->
  0 <= run_added s w c /\
  counters (run s w) !! c = Some ((v + run_added s w c) mod 2 ^ 64).
Proof.
  revert w v. induction s as [|[i k] s IH]; intros w v Hw Hc; simpl.
  - split; [lia|]. rewrite Z.add_0_r, Z.mod_small; [exact Hc|].
    eapply counter_range; eassumption.
  - pose proof (counter_range w c v Hw Hc) as Hv.
    pose proof (count_added_nonneg w i c Hw) as Hd.
    pose proof (step_proc_counter i k w c v Hv Hc) as Hs.
    destruct (IH (step_proc i k w) _ (proj1 (step_proc_ok i k w Hw)) Hs)
      as [Hr Hc'].
    split; [lia|]. rewrite Hc'. f_equal.
    rewrite Zplus_mod_idemp_l. f_equal. lia.
Qed.

Lemma join_counter (joins : list Schedule) (ws : list nat) (w : World)
    (c : nat) (v : Z) :
  world_ok w -> counters w !! c = Some v ->
  0 <= join_added joins ws w c /\
  counters (join_all joins ws w) !! c
  = Some ((v + join_added joins ws w c) mod 2 ^ 64).
Proof.
  revert joins w v. induction ws as [|i ws IH]; intros joins w v Hw Hc; simpl.
  - split; [lia|]. rewrite Z.add_0_r, Z.mod_small; [exact Hc|].
    eapply counter_range; eassumption.
  - destruct (run_counter (hd [] joins) w c v Hw Hc) as [Hr Hc1].
    pose proof (proj1 (run_ok (hd [] joins) w Hw)) as Hw1.
    pose proof (proj1 (terminate_ok i _ Hw1)) as Hw2.
    destruct (IH (tail joins) (terminate i (run (hd [] joins) w)) _ Hw2 Hc1)
      as [Hj Hc2].
    split; [lia|]. rewrite Hc2. f_equal.
    rewrite Zplus_mod_idemp_l. f_equal. lia.
Qed.

Lemma start_counter (g : VanityGenerator) (w : World) (c : nat) (v : Z) :
  counters w !! c = Some v -> counters (snd (start g w)) !! c = Some v.
Proof.
  intros Hc. unfold start. destruct (_is_running g); [exact Hc|].
  match goal with
  | |- context [spawn ?n ?q ?ev ?c0 ?g1 ?w2] =>
      pose proof (spawn_shape n q ev c0 g1 w2) as Hs;
      destruct (spawn n q ev c0 g1 w2) as [g2 w3]
  end.
  simpl in *. destruct Hs as (_ & _ & _ & _ & -> & _).
  apply lookup_app_l_Some, Hc.
Qed.

Lemma poll_counters (g : VanityGenerator) (w : World) :
  counters (snd (poll g w)) = counters w.
Proof.
  unfold poll. destruct (negb (_is_running g)); [reflexivity|].
  destruct (_result_queue g) as [q|]; [|reflexivity].
  destruct (drain_poll_shared g q w) as (_ & _ & Hc).
  destruct (drain_poll g q w) as [rs w1]. simpl in Hc.
  destruct (_counter g); [|exact Hc].
  destruct (_stop_event g);
    [|destruct (on_progress g); exact Hc].
  destruct (_ && _); destruct (on_progress g); destruct (on_complete g);
    exact Hc.
Qed.

Lemma stop_counter (joins : list Schedule) (g : VanityGenerator) (w : World)
    (c : nat) (v : Z) :
  world_ok w -> counters w !! c = Some v ->
  0 <= stop_added joins g w c /\
  counters (snd (stop joins g w)) !! c
  = Some ((v + stop_added joins g w c) mod 2 ^ 64).
Proof.
  intros Hw Hc. unfold stop, stop_added.
  set (w1 := match _stop_event g with
             | Some ev => event_set ev w
             | None => w
             end).
  assert (Hw1 : world_ok w1 /\ counters w1 !! c = Some v).
  { subst w1. destruct (_stop_event g) as [ev|]; [|auto].
    split; [apply event_set_ok, Hw | exact Hc]. }
  destruct Hw1 as [Hw1 Hc1].
  destruct (join_counter joins (_workers g) w1 c v Hw1 Hc1) as [Hj Hc2].
  split; [exact Hj|].
  destruct (_result_queue g) as [q|]; [|exact Hc2].
  assert (Hd : counters (snd (drain_stop g q (join_all joins (_workers g) w1)))
               = counters (join_all joins (_workers g) w1)).
  { unfold drain_stop. destruct (queues _ !! q); reflexivity. }
  destruct (drain_stop g q _) as [rs w3]. simpl in *.
  rewrite Hd. exact Hc2.
Qed.

(** C8, as the code has it.  In every state the system gets into, a
    counter holds a value [v] below 2^64, and: a step of process [i]
    changes it to [(v + d) mod 2^64], where [d] is the local count of the
    process if it is at one of its three writes to this counter, and 0
    otherwise; [d] is between 0 and 500; so the value goes up by [d] as
    long as [v + d] stays below 2^64, and comes down to [v + d - 2^64]
    when it does not.  [start] and [poll] leave the value, and [stop]
    changes it by what the processes add while it joins them. *)
Theorem counter_monotone (g : VanityGenerator) (w : World) (c : nat)
    (v : Z) :
  reachable (g, w) -> counters w !! c = Some v ->
  0 <= v < 2 ^ 64 /\
  (forall i k,
     let d := count_added w i c in
     0 <= d <= 500 /\
     counters (step_proc i k w) !! c = Some ((v + d) mod 2 ^ 64) /\
     (v + d < 2 ^ 64 ->
      counters (step_proc i k w) !! c = Some (v + d) /\ v <= v + d) /\
     (2 ^ 64 <= v + d ->
      counters (step_proc i k w) !! c = Some (v + d - 2 ^ 64) /\
      v + d - 2 ^ 64 < v)) /\
  counters (snd (start g w)) !! c = Some v /\
  counters (snd (poll g w)) !! c = Some v /\
  (forall joins,
     let d := stop_added joins g w c in
     0 <= d /\
     counters (snd (stop joins g w)) !! c = Some ((v + d) mod 2 ^ 64) /\
     (v + d < 2 ^ 64 ->
      counters (snd (stop joins g w)) !! c = Some (v + d) /\ v <= v + d)).
Proof.
  intros Hr Hc.
  pose proof (reachable_ok _ Hr) as Hw. simpl in Hw.
  pose proof (counter_range w c v Hw Hc) as Hv.
  split; [exact Hv|]. split; [|split; [|split]].
  - intros i k d.
    pose proof (step_proc_counter i k w c v Hv Hc) as Hs. fold d in Hs.
    assert (Hd : 0 <= d <= 500).
    { split; [apply count_added_nonneg, Hw|].
      subst d. unfold count_added.
      destruct (procs w !! i) as [p|] eqn:Hp; [|lia].
      destruct (_ && _); [|lia].
      destruct (reachable_loop_inv _ Hr) as [Hps _]. simpl in Hps.
      rewrite Forall_forall in Hps.
      destruct (Hps p (list_elem_of_lookup_2 _ _ _ Hp)) as [_ Hl].
      clear -Hl. induction (p_pc p); simpl in Hl; try lia. auto. }
    split; [exact Hd|]. split; [exact Hs|]. split.
    + intros Hlt. rewrite Hs, Z.mod_small by lia. split; [reflexivity | lia].
    + intros Hge. rewrite Hs. split; [|lia]. f_equal.
      rewrite <- (Z.mod_small (v + d - 2 ^ 64) (2 ^ 64)) by lia.
      replace (v + d) with (v + d - 2 ^ 64 + 1 * 2 ^ 64) at 1 by lia.
      apply Z.mod_add. lia.
  - apply start_counter, Hc.
  - rewrite poll_counters. exact Hc.
  - intros joins d.
    destruct (stop_counter joins g w c v Hw Hc) as [Hd Hs].
    fold d in Hd, Hs. split; [exact Hd|]. split; [exact Hs|].
    intros Hlt. rewrite Hs, Z.mod_small by lia. split; [reflexivity | lia].
Qed.

End CounterProperties.

(** ** From the stop signal to the result *)

Section DeliveryProperties.
Context `{Unicode} `{RegexEngine} `{Clock}.

Lemma routed_closed (oev oq : option nat) :
  step_closed (routed oev oq) (fun _ => True).
Proof.
  split; [|split]; [| |auto].
  - intros k p w Hp. unfold routed in *.
    destruct (worker_step_handles k p w) as (E1 & E2 & _).
    rewrite E1, E2. exact Hp.
  - intros p Hp. exact Hp.
Qed.

Lemma routed_procs_inv (oev oq : option nat) (w : World) :
  Forall (routed oev oq) (procs w) <->
  procs_inv (routed oev oq) (fun _ => True) w.
Proof.
  split; [|intros [Hp _]; exact Hp].
  intros Hp. split; [exact Hp|].
  apply Forall_forall. intros qu _. apply Forall_forall. auto.
Qed.

(** *** The results and the read cursor *)

Lemma map_item_of_make_results (g : VanityGenerator) (xs : list Item)
    (n : nat) (total : Z) :
  map item_of (make_results g xs n total) = xs.
Proof.
  revert n. induction xs as [|[[a b] c] xs IH]; intros n; simpl;
    [reflexivity|].
  rewrite IH. reflexivity.
Qed.

Lemma taken_all (l : list Item) (qu : Queue) :
  queue_ok qu -> l = take (q_read qu) (q_items qu) ->
  l ++ queue_pending qu = q_items qu /\
  take (q_read (queue_take (length (queue_pending qu)) qu)) (q_items qu)
  = q_items qu.
Proof.
  unfold queue_ok, queue_pending, queue_take. intros Hok ->. simpl.
  split; [apply take_drop|].
  apply take_ge. rewrite length_drop. lia.
Qed.

Lemma step_proc_taken (g : VanityGenerator) (i : nat) (k : KeyMaterial)
    (w : World) :
  Forall queue_ok (queues w) -> taken_ok g w ->
  taken_ok g (step_proc i k w).
Proof.
  intros Hq Ht q qu' Hgq Hqu'. unfold step_proc in Hqu'.
  destruct (procs w !! i) as [p|]; [|exact (Ht q qu' Hgq Hqu')].
  pose proof (worker_step_effect k p w) as He.
  destruct (worker_step k p w) as [p' w']. simpl in *.
  destruct He as [->|[(x & _ & _ & ->)|[[_ ->]|[_ ->]]]]; simpl in Hqu';
    try exact (Ht q qu' Hgq Hqu').
  destruct (decide (p_queue p = q)) as [<-|Hne].
  - rewrite list_lookup_alter_eq in Hqu'.
    destruct (queues w !! p_queue p) as [qu|] eqn:Hqu; [|discriminate].
    injection Hqu' as <-. simpl.
    rewrite take_app_le.
    + exact (Ht _ qu Hgq Hqu).
    + rewrite Forall_forall in Hq.
      exact (Hq qu (list_elem_of_lookup_2 _ _ _ Hqu)).
  - rewrite list_lookup_alter_ne in Hqu' by exact Hne.
    exact (Ht q qu' Hgq Hqu').
Qed.

Lemma run_taken (g : VanityGenerator) (s : Schedule) (w : World) :
  Forall queue_ok (queues w) -> taken_ok g w -> taken_ok g (run s w).
Proof.
  revert w. induction s as [|[i k] s IH]; intros w Hq Ht; simpl; [exact Ht|].
  apply IH; [apply step_proc_queues_ok, Hq | apply step_proc_taken; assumption].
Qed.

Lemma join_all_taken (g : VanityGenerator) (joins : list Schedule)
    (ws : list nat) (w : World) :
  Forall queue_ok (queues w) -> taken_ok g w ->
  taken_ok g (join_all joins ws w).
Proof.
  revert joins w. induction ws as [|i ws IH]; intros joins w Hq Ht; simpl;
    [exact Ht|].
  apply IH.
  - unfold terminate. simpl. apply run_queues_ok, Hq.
  - pose proof (run_taken g (hd [] joins) w Hq Ht) as Hr. exact Hr.
Qed.

Lemma drain_poll_taken (g : VanityGenerator) (q c : nat) (w : World)
    (qu : Queue) :
  _counter g = Some c -> queues w !! q = Some qu -> queue_ok qu ->
  map item_of (_results g) = take (q_read qu) (q_items qu) ->
  map item_of (fst (drain_poll g q w)) = queue_pending qu /\
  map item_of (_results g ++ fst (drain_poll g q w)) = q_items qu /\
  queues (snd (drain_poll g q w)) !! q
  = Some (queue_take (length (queue_pending qu)) qu).
Proof.
  intros Hc Hqu Hok Ht. unfold drain_poll. rewrite Hqu, Hc. cbn [fst snd].
  rewrite map_app, map_item_of_make_results.
  split; [reflexivity|]. split.
  - apply (taken_all _ qu Hok Ht).
  - destruct (on_result g).
    + match goal with
      | |- context [fold_left ?f ?rs ?w0] =>
          destruct (fold_calls_shared rs w0) as (_ & _ & _ & -> & _)
      end.
      simpl. rewrite list_lookup_alter_eq, Hqu. reflexivity.
    + simpl. rewrite list_lookup_alter_eq, Hqu. reflexivity.
Qed.

Lemma drain_stop_taken (g : VanityGenerator) (q : nat) (w : World)
    (qu : Queue) :
  queues w !! q = Some qu -> queue_ok qu ->
  map item_of (_results g) = take (q_read qu) (q_items qu) ->
  map item_of (_results g ++ fst (drain_stop g q w)) = q_items qu /\
  queues (snd (drain_stop g q w)) !! q
  = Some (queue_take (length (queue_pending qu)) qu).
Proof.
  intros Hqu Hok Ht. unfold drain_stop. rewrite Hqu. cbn [fst snd].
  rewrite map_app, map_item_of_make_results. split.
  - apply (taken_all _ qu Hok Ht).
  - simpl. rewrite list_lookup_alter_eq, Hqu. reflexivity.
Qed.

(** [stop], unfolded. *)
Lemma stop_unfold (joins : list Schedule) (g : VanityGenerator) (w : World) :
  let w2 := join_all joins (_workers g)
              (match _stop_event g with
               | Some ev => event_set ev w
               | None => w
               end) in
  let rw := match _result_queue g with
            | Some q => drain_stop g q w2
            | None => ([], w2)
            end in
  stop joins g w
  = (_results g ++ fst rw,
     set_is_running false
       (set_workers [] (set_results (_results g ++ fst rw) g)),
     snd rw).
Proof.
  unfold stop.
  destruct (match _result_queue g with
            | Some q => drain_stop g q _
            | None => _
            end) as [rs w3].
  reflexivity.
Qed.

Lemma run_queues_length (s : Schedule) (w : World) :
  length (queues (run s w)) = length (queues w).
Proof.
  revert w. induction s as [|[i k] s IH]; intros w; simpl; [reflexivity|].
  rewrite IH. apply step_proc_queues_length.
Qed.

Lemma join_all_queues_length (joins : list Schedule) (ws : list nat)
    (w : World) :
  length (queues (join_all joins ws w)) = length (queues w).
Proof.
  revert joins w. induction ws as [|i ws IH]; intros joins w; simpl;
    [reflexivity|].
  rewrite IH. unfold terminate. simpl. apply run_queues_length.
Qed.

Lemma stop_queues_length (joins : list Schedule) (g : VanityGenerator)
    (w : World) :
  length (queues (snd (stop joins g w))) = length (queues w).
Proof.
  rewrite stop_unfold. cbn [snd].
  assert (Hl : length (queues (join_all joins (_workers g)
                                 (match _stop_event g with
                                  | Some ev => event_set ev w
                                  | None => w
                                  end)))
               = length (queues w)).
  { rewrite join_all_queues_length. destruct (_stop_event g); reflexivity. }
  destruct (_result_queue g) as [q|]; [|exact Hl].
  unfold drain_stop. destruct (queues _ !! q); simpl; [|exact Hl].
  rewrite length_alter. exact Hl.
Qed.

(** What [stop] returns, for an orchestrator with the queue [q]: all the
    items of the queue as it is after the joins. *)
Lemma stop_items (joins : list Schedule) (g : VanityGenerator) (w : World)
    (q : nat) (qu : Queue) :
  world_ok w -> Forall queue_ok (queues w) -> taken_ok g w ->
  _result_queue g = Some q -> queues w !! q = Some qu ->
  exists qu2,
    (forall x, x ∈ q_items qu -> x ∈ q_items qu2) /\
    map item_of (fst (fst (stop joins g w))) = q_items qu2 /\
    queues (snd (stop joins g w)) !! q
    = Some (queue_take (length (queue_pending qu2)) qu2).
Proof.
  intros Hw Hq Ht Hgq Hqu. rewrite stop_unfold. cbn [fst snd]. rewrite Hgq.
  set (w1 := match _stop_event g with
             | Some ev => event_set ev w
             | None => w
             end).
  assert (Hst1 : good_step w w1 /\ queues w1 = queues w).
  { subst w1. destruct (_stop_event g) as [ev|].
    - split; [apply event_set_ok, Hw | reflexivity].
    - split; [apply good_step_refl, Hw | reflexivity]. }
  destruct Hst1 as [Hg1 Hq1].
  pose proof (join_all_ok joins (_workers g) w1 (proj1 Hg1)) as Hg2.
  set (w2 := join_all joins (_workers g) w1) in *.
  assert (Hq2 : Forall queue_ok (queues w2)).
  { apply join_all_queues_ok. rewrite Hq1. exact Hq. }
  assert (Ht2 : taken_ok g w2).
  { apply join_all_taken; [rewrite Hq1; exact Hq|].
    intros q0 qu0 Hg0 Hqu0. rewrite Hq1 in Hqu0. exact (Ht q0 qu0 Hg0 Hqu0). }
  destruct Hg2 as (_ & (Hle & _) & _).
  rewrite <- Hq1 in Hqu.
  destruct (Hle q qu Hqu) as (qu2 & Hqu2 & Hin).
  assert (Hok2 : queue_ok qu2).
  { rewrite Forall_forall in Hq2.
    exact (Hq2 qu2 (list_elem_of_lookup_2 _ _ _ Hqu2)). }
  destruct (drain_stop_taken g q w2 qu2 Hqu2 Hok2 (Ht2 q qu2 Hgq Hqu2))
    as [Hitems Hq3].
  exists qu2. split; [exact Hin|]. split; [exact Hitems | exact Hq3].
Qed.

(** *** The stop signal *)

Lemma worker_step_after_set (k : KeyMaterial) (p : Proc) (w : World) :
  after_set (p_pc p) = true ->
  after_set (p_pc (fst (worker_step k p w))) = true.
Proof.
  unfold worker_step. destruct (p_pc p) eqn:Hpc; simpl; try discriminate;
    intros Ha; rewrite ?Hpc; simpl; auto.
Qed.

Lemma step_proc_signal (i : nat) (k : KeyMaterial) (w : World) (ev : nat) :
  events (step_proc i k w) !! ev = Some true ->
  events w !! ev = Some true \/
  exists p, procs w !! i = Some p /\ p_pc p = PSet /\ p_event p = ev.
Proof.
  destruct (procs w !! i) as [p|] eqn:Hp;
    [|unfold step_proc; rewrite Hp; auto].
  rewrite (step_proc_at i k w p Hp). cbn [events with_procs].
  destruct (worker_step_effect k p w)
    as [->|[(x & _ & _ & ->)|[[Hpc ->]|[_ ->]]]]; simpl; auto.
  destruct (decide (p_event p = ev)) as [Heq|Hne]; [eauto|].
  rewrite list_lookup_insert_ne by exact Hne. auto.
Qed.

Lemma step_proc_signal_ok (g : VanityGenerator) (i : nat) (k : KeyMaterial)
    (w : World) :
  signal_ok g w -> signal_ok g (step_proc i k w).
Proof.
  intros Hs ev Hrun Hev Hset.
  destruct (step_proc_signal i k w ev Hset) as [Hold|(p & Hp & Hpc & Hpe)].
  - destruct (Hs ev Hrun Hev Hold) as (j & pj & Hj & Hje & Hja).
    destruct (procs w !! i) as [p|] eqn:Hp.
    + rewrite (step_proc_at i k w p Hp). cbn [procs with_procs].
      rewrite worker_step_procs.
      destruct (decide (i = j)) as [->|Hne].
      * assert (p = pj) by congruence. subst p.
        exists j, (fst (worker_step k pj w)).
        split; [apply list_lookup_insert_eq; eapply lookup_lt_Some, Hj|].
        destruct (worker_step_handles k pj w) as (_ & E2 & _).
        split; [rewrite E2; exact Hje | apply worker_step_after_set, Hja].
      * exists j, pj. rewrite list_lookup_insert_ne by exact Hne. auto.
    + unfold step_proc. rewrite Hp. eauto.
  - exists i, (fst (worker_step k p w)).
    rewrite (step_proc_at i k w p Hp). cbn [procs with_procs].
    rewrite worker_step_procs.
    split; [apply list_lookup_insert_eq; eapply lookup_lt_Some, Hp|].
    rewrite (worker_step_set k p w Hpc). simpl. auto.
Qed.

(** *** The invariant *)

Lemma sys_step_delivery_ok (g g' : VanityGenerator) (w w' : World) :
  world_ok w -> system_ok g w ->
  sys_step (g, w) (g', w') -> delivery_ok g w -> delivery_ok g' w'.
Proof.
  intros Hw (Hq & Hh & _ & _) Hs (Hrt & Htk & Hsg).
  inversion Hs; subst; clear Hs.
  - (* a worker *)
    split; [|split].
    + apply routed_procs_inv.
      apply (step_proc_inv _ _ (routed_closed _ _)), routed_procs_inv, Hrt.
    + apply step_proc_taken; assumption.
    + apply step_proc_signal_ok, Hsg.
  - (* the callbacks *)
    split; [exact Hrt|]. split; [exact Htk | exact Hsg].
  - (* start *)
    destruct (_is_running g) eqn:Hr.
    + unfold start. rewrite Hr. simpl.
      split; [exact Hrt|]. split; [exact Htk|].
      intros ev _. apply Hsg. exact Hr.
    + unfold start. rewrite Hr.
      match goal with
      | |- context [spawn ?n ?q ?ev ?c ?g1 ?w2] =>
          pose proof (spawn_shape n q ev c g1 w2) as Hsp;
          pose proof (spawn_fields n q ev c g1 w2) as Hf;
          destruct (spawn n q ev c g1 w2) as [g2 w3]
      end.
      simpl in *.
      destruct Hsp as (Hp & _ & Hqs & Hes & _).
      destruct Hf as (_ & Hf2 & Hf3 & _ & Hf5).
      split; [|split].
      * rewrite Hp, Hf2, Hf3. apply Forall_app. split.
        -- destruct Hw as [Hps _]. eapply Forall_impl; [exact Hps|].
           intros p (_ & _ & He & _) Heq. injection Heq as Heq. lia.
        -- apply Forall_replicate. intros _. reflexivity.
      * intros q0 qu0 Hg0 Hqu0. rewrite Hf2 in Hg0. injection Hg0 as <-.
        rewrite Hqs in Hqu0.
        rewrite list_lookup_middle in Hqu0 by reflexivity.
        injection Hqu0 as <-. rewrite Hf5. reflexivity.
      * intros ev0 _ Hev0 Hset. rewrite Hf3 in Hev0. injection Hev0 as <-.
        rewrite Hes in Hset.
        rewrite list_lookup_middle in Hset by reflexivity. discriminate.
  - (* poll *)
    destruct (_is_running g) eqn:Hr.
    + destruct (Hh eq_refl) as ([q Hgq] & [ev Hgev] & [c Hgc]).
      destruct (poll_running g w q ev c Hr Hgq Hgev Hgc)
        as (st & w1 & Hpoll & _ & _ & _ & Hp1 & He1 & _ & Hq1).
      rewrite Hpoll. cbn [fst snd].
      set (rs := fst (drain_poll g q w)) in *.
      assert (Hcommon :
                forall g1, _result_queue g1 = _result_queue g ->
                           _stop_event g1 = _stop_event g ->
                           _results g1 = _results g ++ rs ->
                           Forall (routed (_stop_event g1) (_result_queue g1))
                                  (procs w1) /\ taken_ok g1 w1).
      { intros g1 E1 E2 E3. split; [rewrite E1, E2, Hp1; exact Hrt|].
        intros q0 qu' Hg0 Hqu'. rewrite E1, Hgq in Hg0. injection Hg0 as <-.
        rewrite Hq1 in Hqu'. rewrite E3.
        destruct (queues w !! q) as [qu|] eqn:Hqu.
        - assert (Hok : queue_ok qu).
          { rewrite Forall_forall in Hq.
            exact (Hq qu (list_elem_of_lookup_2 _ _ _ Hqu)). }
          destruct (drain_poll_taken g q c w qu Hgc Hqu Hok
                      (Htk q qu Hgq Hqu)) as (_ & Hitems & Hq2).
          rewrite Hq2 in Hqu'. injection Hqu' as <-.
          fold rs in Hitems. rewrite Hitems. symmetry.
          apply (taken_all _ qu Hok (Htk q qu Hgq Hqu)).
        - exfalso. unfold drain_poll in Hqu'. rewrite Hqu in Hqu'.
          simpl in Hqu'. congruence. }
      destruct (event_is_set ev w && forallb _ (_workers g)).
      * destruct (Hcommon (set_is_running false
                             (set_results (_results g ++ rs) g))
                    eq_refl eq_refl eq_refl) as [Ha Hb].
        split; [exact Ha|]. split; [exact Hb|].
        intros ev0 Hrun. simpl in Hrun. discriminate.
      * destruct (Hcommon (set_results (_results g ++ rs) g)
                    eq_refl eq_refl eq_refl) as [Ha Hb].
        split; [exact Ha|]. split; [exact Hb|].
        intros ev0 _ Hev0 Hset. simpl in Hev0. rewrite He1 in Hset.
        destruct (Hsg ev0 Hr Hev0 Hset) as (i & p & Hp & Hx).
        exists i, p. rewrite Hp1. auto.
    + unfold poll. rewrite Hr. simpl.
      split; [exact Hrt|]. split; [exact Htk|].
      intros ev Hrun. congruence.
  - (* stop *)
    split; [|split].
    + pose proof (proj1 (routed_procs_inv _ _ _) Hrt) as Hinv.
      apply (stop_inv _ _ (routed_closed _ _) joins g) in Hinv.
      apply routed_procs_inv in Hinv.
      rewrite stop_unfold in *. exact Hinv.
    + intros q0 qu' Hg0 Hqu'.
      assert (Hgq : _result_queue g = Some q0)
        by (rewrite stop_unfold in Hg0; exact Hg0).
      destruct (queues w !! q0) as [qu|] eqn:Hqu.
      * destruct (stop_items joins g w q0 qu Hw Hq Htk Hgq Hqu)
          as (qu2 & _ & Hitems & Hq3).
        rewrite Hq3 in Hqu'. injection Hqu' as <-.
        assert (Hres : _results (snd (fst (stop joins g w)))
                       = fst (fst (stop joins g w)))
          by (rewrite stop_unfold; reflexivity).
        rewrite Hres, Hitems. simpl. symmetry.
        apply take_ge. unfold queue_pending. rewrite length_drop. lia.
      * exfalso.
        apply lookup_lt_Some in Hqu'.
        pose proof (stop_queues_length joins g w) as Hlen.
        rewrite Hlen in Hqu'. apply lookup_lt_is_Some in Hqu'.
        rewrite Hqu in Hqu'. destruct Hqu' as [? ?]. discriminate.
    + intros ev Hrun. exfalso.
      destruct (stop_idle joins g w) as [Hidle _]. congruence.
Qed.

Lemma reachable_delivery_ok (s : System) :
  reachable s -> delivery_ok (fst s) (snd s).
Proof.
  intros Hr. induction Hr as [pat m dt n cs cpu g Hg | [g w] [g' w'] Hr IH Hs].
  - unfold init in Hg.
    destruct (match m with
              | REGEX => Ok pat
              | _ => validate_hex_pattern pat
              end); simpl in Hg; [|discriminate].
    destruct (resolve_name_hash dt); simpl in Hg; [|discriminate].
    injection Hg as <-. simpl.
    split; [constructor|]. split.
    + intros q qu Hq. discriminate.
    + intros ev Hrun. discriminate.
  - exact (sys_step_delivery_ok g g' w w' (reachable_ok _ Hr)
             (reachable_system_ok _ Hr) Hs IH).
Qed.

Lemma after_set_put (c : pc) : after_set c = true -> after_put c = true.
Proof. induction c; simpl; auto; discriminate. Qed.


End DeliveryProperties.

(** ** More worked examples *)

Section MoreExamples.
#[local] Existing Instance caseless_unicode.
#[local] Existing Instance literal_regex.
#[local] Existing Instance integer_clock.
#[local] Existing Instance no_base64.

(** The orchestrator and the world of ["9"] after the worker found [k0]
    and [stop] collected it. *)
#[local] Abbreviation stopped_g :=
  (snd (fst (stop [] (fst matched_state) (snd matched_state)))).
#[local] Abbreviation stopped_w :=
  (snd (stop [] (fst matched_state) (snd matched_state))).

Lemma reachable_matched : reachable (fst matched_state, snd matched_state).
Proof. apply reachable_run, (reachable_started 57). reflexivity. Defined.

Lemma step_stopped :
  sys_step (fst matched_state, snd matched_state) (stopped_g, stopped_w).
Proof. apply Step_stop. Defined.

Lemma reachable_stopped : reachable (stopped_g, stopped_w).
Proof.
  eapply Reach_step; [exact reachable_matched | exact step_stopped].
Defined.

Lemma compute_name_hash_total_witness :
  exists h, compute_name_hash (lit "custom.app") = Ok h /\
            length h = 10%nat /\ Forall is_byte h.
Proof.
  apply (proj1 (compute_name_hash_total (lit "custom.app"))).
  repeat constructor.
Defined.

Lemma validate_hex_pattern_normal_witness :
  lit "dead" = strip (lower (lit " DeAd ")) /\
  lit "dead" <> [] /\ Forall is_hexdigit (lit "dead") /\
  (length (lit "dead") <= 32)%nat /\
  validate_hex_pattern (lit "dead") = Ok (lit "dead").
Proof.
  apply (validate_hex_pattern_normal (lit " DeAd ") (lit "dead")).
  reflexivity.
Defined.

Lemma matches_only_hex_patterns_witness :
  Forall is_hexdigit (lit "91") /\ (length (lit "91") <= 32)%nat.
Proof.
  apply (matches_only_hex_patterns PREFIX (lit "91") false
           {| cp_mode := PREFIX; cp_pattern := lit "91"; cp_regex := None |}
           LXMF_NAME_HASH k0).
  - discriminate.
  - reflexivity.
  - vm_compute. reflexivity.
Defined.

Lemma prefix_suffix_imply_contains_witness :
  matches {| cp_mode := CONTAINS; cp_pattern := lit "7a51";
             cp_regex := None |}
          (snd (generate_and_hash LXMF_NAME_HASH k0)) = Ok true.
Proof.
  apply (prefix_suffix_imply_contains (lit "7a51") _ false SUFFIX
           {| cp_mode := SUFFIX; cp_pattern := lit "7a51";
              cp_regex := None |}).
  - right. reflexivity.
  - reflexivity.
  - reflexivity.
  - vm_compute. reflexivity.
Defined.

Lemma difficulty_tiers_witness :
  exists d, estimate_difficulty {| mode := PREFIX; pattern := lit "dead";
                                   case_sensitive := false |} = Ok d /\
            difficulty_description d = lit "Seconds".
Proof.
  apply (proj1 (difficulty_tiers {| mode := PREFIX; pattern := lit "dead";
                                    case_sensitive := false |})).
  - left. reflexivity.
  - vm_compute. discriminate.
Defined.

Lemma estimate_difficulty_overflow_witness :
  estimate_difficulty {| mode := SUFFIX; pattern := repeat 48%N 300;
                         case_sensitive := false |} = Raise OverflowError.
Proof.
  apply (proj1 (estimate_difficulty_overflow
                  {| mode := SUFFIX; pattern := repeat 48%N 300;
                     case_sensitive := false |})).
  - right. reflexivity.
  - vm_compute. discriminate.
Defined.

Lemma init_succeeds_iff_witness :
  exists g, init (lit "Be") CONTAINS (lit "my.app") 0 false (Some 8) = Ok g.
Proof.
  apply (proj1 (init_succeeds_iff (lit "Be") CONTAINS (lit "my.app") 0 false
                  (Some 8))).
  split.
  - right. exists (lit "be"). reflexivity.
  - right. split; [reflexivity | repeat constructor].
Defined.

Lemma start_spawns_workers_witness :
  procs (snd (start (prefix_generator (lit "0")) empty_world))
  = [new_proc (prefix_generator (lit "0")) 0 0 0].
Proof.
  apply (start_spawns_workers (prefix_generator (lit "0")) empty_world).
  reflexivity.
Defined.


Lemma worker_loop_count_witness :
  0 <= p_local_count (looping_proc (lit "9") PAddFound 1) <= 500.
Proof.
  apply (worker_loop_count (fst matched_state) (snd matched_state) 0%nat
           (looping_proc (lit "9") PAddFound 1) reachable_matched matched_proc).
Defined.


Lemma results_only_grow_witness :
  (exists rs, _results stopped_g = _results (fst matched_state) ++ rs) \/
  (_is_running (fst matched_state) = false /\
   _is_running stopped_g = true /\
   _results stopped_g = []).
Proof.
  exact (results_only_grow (fst matched_state) stopped_g
           (snd matched_state) stopped_w step_stopped).
Defined.

Lemma run_blocking_stops_witness :
  run_blocking [] [] (fst (started (lit "0"))) (snd (started (lit "0")))
  = (Raise RuntimeError, fst (started (lit "0")), snd (started (lit "0"))).
Proof.
  apply (proj1 (run_blocking_stops [] [] (fst (started (lit "0")))
                  (snd (started (lit "0"))))).
  reflexivity.
Defined.

Lemma export_names_searched_address_witness :
  dest_hashes
    (prepare_export (x_prv k0 ++ e_prv k0)
       (snd (fst (generate_and_hash LXMF_NAME_HASH k0)))
       (lit "lxmf.delivery") (snd (generate_and_hash LXMF_NAME_HASH k0)))
    !! lit "lxmf.delivery"
  = Some (snd (generate_and_hash LXMF_NAME_HASH k0)).
Proof.
  assert (Hres : resolve_name_hash (lit "lxmf.delivery") = Ok LXMF_NAME_HASH)
    by (vm_compute; reflexivity).
  exact (proj1 (export_names_searched_address (lit "lxmf.delivery")
                  LXMF_NAME_HASH k0 Hres)).
Defined.

Lemma bytes_hex_roundtrip_witness :
  bytes_fromhex (bytes_hex [110; 198; 11; 195]) = Some [110; 198; 11; 195].
Proof.
  apply (proj1 (bytes_hex_roundtrip [110; 198; 11; 195]
                  ltac:(repeat constructor; unfold is_byte; lia))).
Defined.


Lemma live_worker_is_current_witness :
  _is_running (fst (started (lit "9"))) = true /\
  _result_queue (fst (started (lit "9"))) = Some 0%nat /\
  _stop_event (fst (started (lit "9"))) = Some 0%nat /\
  _counter (fst (started (lit "9"))) = Some 0%nat.
Proof.
  assert (Hr : reachable (fst (started (lit "9")), snd (started (lit "9")))).
  { apply (reachable_run _ _ []), (reachable_started 57). reflexivity. }
  destruct (live_worker_is_current _ _ 0%nat
              (new_proc (prefix_generator (lit "9")) 0 0 0) Hr)
    as (H1 & _ & _ & H2 & H3 & H4 & _).
  - vm_compute. apply list_elem_of_here.
  - reflexivity.
  - reflexivity.
  - split; [exact H1|]. split; [exact H2|]. split; [exact H3 | exact H4].
Defined.


(** The worker of ["9"] at its first draw. *)
#[local] Abbreviation drawing_w :=
  (run (repeat (0%nat, k0) 2) (snd (started (lit "9")))).


Lemma counter_monotone_witness :
  count_added (snd matched_state) 0 0 = 1 /\
  counters (snd matched_state) !! 0%nat = Some 0 /\
  counters (step_proc 0 k0 (snd matched_state)) !! 0%nat = Some (0 + 1).
Proof.
  assert (Hd : count_added (snd matched_state) 0 0 = 1)
    by (vm_compute; reflexivity).
  assert (Hc : counters (snd matched_state) !! 0%nat = Some 0)
    by (vm_compute; reflexivity).
  split; [exact Hd|]. split; [exact Hc|].
  destruct (counter_monotone (fst matched_state) (snd matched_state) 0%nat 0
              reachable_matched Hc) as (_ & Hstep & _).
  destruct (Hstep 0%nat k0) as (_ & _ & Hup & _).
  rewrite Hd in Hup. exact (proj1 (Hup ltac:(lia))).
Defined.


End MoreExamples.

(** ** A regex pattern that does not compile *)

Section RegexExample.
#[local] Existing Instance caseless_unicode.
#[local] Existing Instance checking_regex.
#[local] Existing Instance integer_clock.

(** The world of [regex_generator] after [start], before and after the
    step of its worker. *)
#[local] Abbreviation regex_w :=
  ({| queues := [queue_new]; events := [false]; counters := [0];
      procs := [new_proc regex_generator 0 0 0]; ticks := 1; calls := [] |}).
#[local] Abbreviation regex_w' :=
  ({| queues := [queue_new]; events := [false]; counters := [0];
      procs := [set_pc (PCrashed ReError) (new_proc regex_generator 0 0 0)];
      ticks := 1; calls := [] |}).

Lemma regex_start : snd (start regex_generator empty_world) = regex_w.
Proof. reflexivity. Qed.

Lemma regex_run (s : Schedule) (w : World) :
  w = regex_w \/ w = regex_w' -> run s w = regex_w \/ run s w = regex_w'.
Proof.
  revert w. induction s as [|[i k] s IH]; intros w Hw; simpl; [exact Hw|].
  apply IH. destruct Hw as [-> | ->].
  - destruct i as [|i]; [right | left]; reflexivity.
  - right. destruct i as [|i]; reflexivity.
Qed.


End RegexExample.
